(** * Notebook 2, "Differentiable quantum computing with PennyLane"

    A shallow embedding of the code cells of
    [2-differentiable-quantum-computing.ipynb] and the properties of the
    functions they define.

    Conventions of the embedding.
    - Python floats and the entries of numpy / PennyLane tensors are real
      numbers ([R]); rounding is not modelled.
    - Tensor objects are mutable Python objects: they live in a store and the
      notebook's variables hold references ([loc]) to them.  The store is
      typed by rank: 0-d tensors ([scalars]), 1-d ([vectors]) and 2-d
      ([matrices]).
    - A cell or a function is a computation in a state-and-exception monad
      over the session: the global names, the tensor store, the state vector
      held by the device [dev] and what has been printed.  An exception
      leaves the session as it was when it was raised.
    - A function defined in the notebook is the definition of the same name
      here, and a call to it is a call of that definition; the cells check
      that the global names they use are bound.
    - PennyLane itself (circuit templates, expectation values, [qml.grad]) is
      not part of the notebook: it enters as the variables of [Section
      Notebook]. *)

From Stdlib Require Import Reals Lra Lia ZArith List String DecimalString.
From stdpp Require Import base gmap strings.
Import ListNotations.

Open Scope string_scope.
Open Scope list_scope.
Open Scope R_scope.

(** ** Values *)

Definition vector := list R.
Definition matrix := list (list R).

(** A complex amplitude, as real and imaginary part. *)
Definition amplitude := (R * R)%type.
Definition statevec := list amplitude.

(** Exceptions a cell can end with. *)
Inductive error :=
| ZeroDivisionError
| NameError (name : string)
| TypeError
| LibraryError (msg : string).

Inductive result (A : Type) :=
| Ok (a : A)
| Raise (e : error).
Arguments Ok {A} a.
Arguments Raise {A} e.

Definition result_bind {A B} (r : result A) (k : A -> result B) : result B :=
  match r with
  | Ok a => k a
  | Raise e => Raise e
  end.

(** ** The session *)

Definition loc := nat.

(** What a global name can be bound to. *)
Inductive object :=
| OModule                         (* qml, np *)
| ODevice                         (* dev *)
| OFunction                       (* made by def, qml.qnode or qml.grad *)
| OOptimizer (stepsize : R)
| OInt (z : Z)
| OFloat (r : R)
| OScalar (l : loc)               (* a 0-d tensor *)
| OVector (l : loc)               (* a 1-d tensor *)
| OMatrix (l : loc)               (* a 2-d tensor *)
| OData (d : list (loc * loc)).   (* a list of pairs (x, y) of tensors *)

Record state := mkState {
  globals : gmap string object;
  next : loc;                 (* first reference not yet allocated *)
  scalars : loc -> R;
  vectors : loc -> vector;
  matrices : loc -> matrix;
  dev_state : statevec;       (* dev.state *)
  stdout : list R             (* what print has written, oldest first *)
}.

Definition upd {A} (f : loc -> A) (l : loc) (a : A) : loc -> A :=
  fun l' => if Nat.eqb l' l then a else f l'.

(** A fresh kernel. *)
Definition fresh : state :=
  mkState ∅ 0%nat (fun _ => 0) (fun _ => []) (fun _ => []) [] [].

(** ** The monad of cells *)

Definition M (A : Type) := state -> result A * state.

Definition ret {A} (a : A) : M A := fun s => (Ok a, s).

Definition bind {A B} (m : M A) (k : A -> M B) : M B :=
  fun s => match m s with
           | (Ok a, s') => k a s'
           | (Raise e, s') => (Raise e, s')
           end.

Definition raise {A} (e : error) : M A := fun s => (Raise e, s).

(** A call into the library that returns or raises. *)
Definition lift {A} (r : result A) : M A := fun s => (r, s).

Declare Scope monad_scope.
Delimit Scope monad_scope with monad.
Notation "'do' x <- m ; k" := (bind m (fun x => k))
  (at level 10, x name, m at level 100, k at level 200, only parsing)
  : monad_scope.
Open Scope monad_scope.

(** *** Global names *)

Definition global (name : string) : M object :=
  fun s => match globals s !! name with
           | Some o => (Ok o, s)
           | None => (Raise (NameError name), s)
           end.

Definition with_globals (g : gmap string object) (s : state) : state :=
  mkState g (next s) (scalars s) (vectors s) (matrices s) (dev_state s)
          (stdout s).

Definition assign (name : string) (o : object) : M unit :=
  fun s => (Ok tt, with_globals (<[name := o]> (globals s)) s).

Definition global_scalar (name : string) : M loc :=
  do o <- global name ;
  match o with OScalar l => ret l | _ => raise TypeError end.

Definition global_matrix (name : string) : M loc :=
  do o <- global name ;
  match o with OMatrix l => ret l | _ => raise TypeError end.

Definition global_data (name : string) : M (list (loc * loc)) :=
  do o <- global name ;
  match o with OData d => ret d | _ => raise TypeError end.

Definition global_optimizer (name : string) : M R :=
  do o <- global name ;
  match o with OOptimizer r => ret r | _ => raise TypeError end.

(** [x = y] for global names [x] and [y]. *)
Definition copy (x y : string) : M unit :=
  do o <- global y ; assign x o.

(** *** Reading, allocating and writing tensor objects *)

Definition read_scalar (l : loc) : M R := fun s => (Ok (scalars s l), s).
Definition read_vector (l : loc) : M vector := fun s => (Ok (vectors s l), s).
Definition read_matrix (l : loc) : M matrix := fun s => (Ok (matrices s l), s).

Definition alloc_scalar (r : R) (s : state) : state :=
  mkState (globals s) (S (next s)) (upd (scalars s) (next s) r) (vectors s)
          (matrices s) (dev_state s) (stdout s).

Definition alloc_vector (v : vector) (s : state) : state :=
  mkState (globals s) (S (next s)) (scalars s) (upd (vectors s) (next s) v)
          (matrices s) (dev_state s) (stdout s).

Definition alloc_matrix (m : matrix) (s : state) : state :=
  mkState (globals s) (S (next s)) (scalars s) (vectors s)
          (upd (matrices s) (next s) m) (dev_state s) (stdout s).

Definition store_scalar (l : loc) (r : R) (s : state) : state :=
  mkState (globals s) (next s) (upd (scalars s) l r) (vectors s) (matrices s)
          (dev_state s) (stdout s).

Definition with_dev_state (psi : statevec) (s : state) : state :=
  mkState (globals s) (next s) (scalars s) (vectors s) (matrices s) psi
          (stdout s).

Definition with_stdout (out : list R) (s : state) : state :=
  mkState (globals s) (next s) (scalars s) (vectors s) (matrices s)
          (dev_state s) out.

(** A new tensor object gets the next free reference. *)
Definition new_scalar (r : R) : M loc := fun s => (Ok (next s), alloc_scalar r s).
Definition new_vector (v : vector) : M loc := fun s => (Ok (next s), alloc_vector v s).
Definition new_matrix (m : matrix) : M loc := fun s => (Ok (next s), alloc_matrix m s).

(** In-place update of a 0-d tensor (what [ndarray.__iadd__] does). *)
Definition write_scalar (l : loc) (r : R) : M unit :=
  fun s => (Ok tt, store_scalar l r s).

Definition set_dev_state (psi : statevec) : M unit :=
  fun s => (Ok tt, with_dev_state psi s).

Definition print (r : R) : M unit :=
  fun s => (Ok tt, with_stdout (stdout s ++ [r]) s).

(** [for x in xs: acc = body acc x] *)
Fixpoint for_each {A B} (xs : list A) (acc : B) (body : B -> A -> M B) : M B :=
  match xs with
  | [] => ret acc
  | x :: xs' => do acc' <- body acc x ; for_each xs' acc' body
  end.

(** [for i in range(n): body] *)
Fixpoint for_range (n : nat) (body : M unit) : M unit :=
  match n with
  | O => ret tt
  | S n' => do _ <- body ; for_range n' body
  end.

(** ** numpy arithmetic on tensor objects

    Every operator allocates its result; only [+=] on a tensor writes in
    place. *)

Definition np_add (a b : loc) : M loc :=
  do x <- read_scalar a ; do y <- read_scalar b ; new_scalar (x + y).

Definition np_sub (a b : loc) : M loc :=
  do x <- read_scalar a ; do y <- read_scalar b ; new_scalar (x - y).

(** [t ** 2] *)
Definition np_square (a : loc) : M loc :=
  do x <- read_scalar a ; new_scalar (x ^ 2).

(** [r * t] for a Python float [r] and a 0-d tensor [t] *)
Definition np_scale (r : R) (a : loc) : M loc :=
  do x <- read_scalar a ; new_scalar (r * x).

(** Entrywise operations on 2-d tensors of one shape. *)
Fixpoint zip_with {A B C} (f : A -> B -> C) (xs : list A) (ys : list B) : list C :=
  match xs, ys with
  | x :: xs', y :: ys' => f x y :: zip_with f xs' ys'
  | _, _ => []
  end.

Definition mat_scale (r : R) (m : matrix) : matrix := map (map (Rmult r)) m.
Definition mat_sub (m1 m2 : matrix) : matrix := zip_with (zip_with Rminus) m1 m2.

Definition np_scale_matrix (r : R) (a : loc) : M loc :=
  do m <- read_matrix a ; new_matrix (mat_scale r m).

Definition np_sub_matrix (a b : loc) : M loc :=
  do m1 <- read_matrix a ; do m2 <- read_matrix b ; new_matrix (mat_sub m1 m2).

(** The value of the variable [c] of [average_loss]: the Python int it starts
    as, a Python float, or a reference to a 0-d tensor. *)
Inductive pyval :=
| PInt (z : Z)
| PFloat (r : R)
| PRef (l : loc).

(** [c += t] for a 0-d tensor [t].  An int or float has no [__iadd__], so
    Python evaluates [c = c + t], which numpy answers with a new tensor; a
    tensor is updated in place and [c] keeps its reference. *)
Definition iadd (c : pyval) (t : loc) : M pyval :=
  match c with
  | PInt z => do v <- read_scalar t ; do l <- new_scalar (IZR z + v) ; ret (PRef l)
  | PFloat r => do v <- read_scalar t ; do l <- new_scalar (r + v) ; ret (PRef l)
  | PRef l =>
      do a <- read_scalar l ; do v <- read_scalar t ;
      do _ <- write_scalar l (a + v) ; ret (PRef l)
  end.

(** [c / n] for a Python int [n] (here [len(data)]).  Between Python numbers
    a zero divisor raises; numpy divides a tensor without raising. *)
Definition truediv (c : pyval) (n : nat) : M pyval :=
  match c with
  | PInt z =>
      match n with
      | O => raise ZeroDivisionError
      | S _ => ret (PFloat (IZR z / INR n))
      end
  | PFloat r =>
      match n with
      | O => raise ZeroDivisionError
      | S _ => ret (PFloat (r / INR n))
      end
  | PRef l => do a <- read_scalar l ; do l' <- new_scalar (a / INR n) ; ret (PRef l')
  end.

(** The number a [pyval] denotes in a state. *)
Definition value_of (s : state) (v : pyval) : R :=
  match v with
  | PInt z => IZR z
  | PFloat r => r
  | PRef l => scalars s l
  end.

Definition read_pyval (v : pyval) : M R := fun s => (Ok (value_of s v), s).

(** What a call comes to: the number its result denotes in the final state,
    or the exception. *)
Definition outcome {A} (val : state -> A -> R) (p : result A * state)
  : result R :=
  match fst p with
  | Ok a => Ok (val (snd p) a)
  | Raise e => Raise e
  end.

(** ** Frames

    [extends s s']: every tensor object allocated in [s] has the same content
    in [s'], the global names are bound as before and nothing was printed in
    between.  The device state is not part of the frame. *)
Definition extends (s s' : state) : Prop :=
  (next s <= next s')%nat /\
  (forall l, (l < next s)%nat -> scalars s' l = scalars s l) /\
  (forall l, (l < next s)%nat -> vectors s' l = vectors s l) /\
  (forall l, (l < next s)%nat -> matrices s' l = matrices s l) /\
  globals s' = globals s /\
  stdout s' = stdout s.

(** The part of the frame that is about the tensors. *)
Definition store_extends (s s' : state) : Prop :=
  (next s <= next s')%nat /\
  (forall l, (l < next s)%nat -> scalars s' l = scalars s l) /\
  (forall l, (l < next s)%nat -> vectors s' l = vectors s l) /\
  (forall l, (l < next s)%nat -> matrices s' l = matrices s l).

(** The arguments of [average_loss] are allocated objects. *)
Definition allocated (s : state) (w b : loc) (data : list (loc * loc)) : Prop :=
  (w < next s)%nat /\ (b < next s)%nat /\
  Forall (fun xy => (fst xy < next s)%nat /\ (snd xy < next s)%nat) data.

Definition data_values (s : state) (data : list (loc * loc)) : list (vector * R) :=
  map (fun xy => (vectors s (fst xy), scalars s (snd xy))) data.

Definition read_data (data : list (loc * loc)) : M (list (vector * R)) :=
  fun s => (Ok (data_values s data), s).

(** ** The device and quantum nodes (cells 5 to 24) *)

(** [dev = qml.device('default.qubit', wires=2)]: two wires, hence four
    amplitudes; a device starts in |00>. *)
Definition ket00 : statevec := [(1, 0); (0, 0); (0, 0); (0, 0)].

(** An operation of a quantum function maps the state it finds to a new one,
    or raises. *)
Definition gate := statevec -> result statevec.

Fixpoint apply_gates (ops : list gate) (psi : statevec) : result statevec :=
  match ops with
  | [] => Ok psi
  | g :: ops' => result_bind (g psi) (apply_gates ops')
  end.

(** Evaluating a quantum node: the device is reset to |00>, the operations
    queued by the quantum function are applied in order, and the device keeps
    the final state (what [dev.state] shows afterwards). *)
Definition execute (ops : list gate) : M statevec :=
  do psi <- lift (apply_gates ops ket00) ;
  do _ <- set_dev_state psi ;
  ret psi.

(** [qml.QubitUnitary(U, wires=[0, 1])] for a real matrix [U]: the
    matrix-vector product. *)
Definition cadd (a b : amplitude) : amplitude := (fst a + fst b, snd a + snd b).
Definition cscale (r : R) (a : amplitude) : amplitude := (r * fst a, r * snd a).
Definition dot (row : list R) (psi : statevec) : amplitude :=
  fold_right cadd (0, 0) (zip_with cscale row psi).
Definition QubitUnitary (U : matrix) : gate :=
  fun psi => Ok (map (fun row => dot row psi) U).

(** [qml.probs(wires=[0, 1])] *)
Definition probs (psi : statevec) : vector :=
  map (fun a => fst a ^ 2 + snd a ^ 2) psi.

(** Cell 10: [circuit] without operations, returning [qml.probs]. *)
Definition circuit_10 : M loc :=
  do psi <- execute [] ; new_vector (probs psi).

(** Cell 14: [s = 1/np.sqrt(2)] (here [s_], [s] being a session throughout),
    the matrix [U], and [circuit] applying the global [U]. *)
Definition s_ : R := 1 / sqrt 2.
Definition U : matrix :=
  [ [0; - s_; 0; s_];
    [s_; 0; - s_; 0];
    [s_; 0; s_; 0];
    [0; - s_; 0; - s_] ].

Definition circuit_14 : M loc :=
  do u <- global_matrix "U" ;
  do Uv <- read_matrix u ;
  do psi <- execute [QubitUnitary Uv] ;
  new_vector (probs psi).

(** ** Values of the training example

    The numbers the functions of cell 40 compute, without the store: what
    [qml.grad] differentiates. *)

Inductive num :=
| NInt (z : Z)
| NFloat (r : R)
| NTensor (r : R).

Definition num_R (c : num) : R :=
  match c with
  | NInt z => IZR z
  | NFloat r => r
  | NTensor r => r
  end.

Definition loss_val (a b : R) : R := (a - b) ^ 2.

Definition iadd_val (c : num) (v : R) : num := NTensor (num_R c + v).

Definition truediv_val (c : num) (n : nat) : result num :=
  match c with
  | NInt z =>
      match n with
      | O => Raise ZeroDivisionError
      | S _ => Ok (NFloat (IZR z / INR n))
      end
  | NFloat r =>
      match n with
      | O => Raise ZeroDivisionError
      | S _ => Ok (NFloat (r / INR n))
      end
  | NTensor r => Ok (NTensor (r / INR n))
  end.

Fixpoint for_each_val {A B} (xs : list A) (acc : B) (body : B -> A -> result B)
  : result B :=
  match xs with
  | [] => Ok acc
  | x :: xs' => result_bind (body acc x) (fun acc' => for_each_val xs' acc' body)
  end.

(** The variable [c] of [average_loss] in state [s] against its value [cv]:
    a tensor it refers to was allocated after the entry state [s0]. *)
Definition acc_rel (s0 s : state) (c : pyval) (cv : num) : Prop :=
  match c, cv with
  | PInt z, NInt z' => z = z'
  | PFloat r, NFloat r' => r = r'
  | PRef l, NTensor r => (next s0 <= l < next s)%nat /\ scalars s l = r
  | _, _ => False
  end.

(** What a cell shows: the value of its last expression, or what it printed. *)
Inductive display :=
| DNothing
| DScalar (r : R)
| DVector (v : vector)
| DState (psi : statevec)
| DPrinted (out : list R).

Definition stdout_length : M nat := fun s => (Ok (length (stdout s)), s).

(** The lines printed since [stdout] had [n] lines. *)
Definition printed_since (n : nat) : M display :=
  fun s => (Ok (DPrinted (skipn n (stdout s))), s).

(** The cells of the notebook that are modelled.  Cell 40 draws random
    numbers: [rng] is the stream of draws it consumes. *)
Inductive cell :=
| Cell2                      (* the imports *)
| Cell5                      (* dev = qml.device(...) *)
| Cell10                     (* the empty circuit *)
| CellDevState               (* dev.state: cells 12, 16, 20 and 24 *)
| Cell14                     (* the circuit applying U *)
| Cell32                     (* quantum_model *)
| Cell40 (rng : nat -> R)    (* the hand-coded training loop *)
| Cell42.                    (* the PennyLane optimizer *)

(** ** The cells on circuits (cells 2 to 24) *)

(** Cell 2: [import pennylane as qml] and
    [from pennylane import numpy as np]. *)
Definition cell_2 : M display :=
  do _ <- assign "qml" OModule ;
  do _ <- assign "np" OModule ;
  ret DNothing.

(** Cell 5: [dev = qml.device('default.qubit', wires=2)]. *)
Definition cell_5 : M display :=
  do _ <- global "qml" ;
  do _ <- set_dev_state ket00 ;
  do _ <- assign "dev" ODevice ;
  ret DNothing.

(** [@qml.qnode(dev)] on the definition of [name]. *)
Definition def_qnode (name : string) : M unit :=
  do _ <- global "qml" ;
  do _ <- global "dev" ;
  assign name OFunction.

(** Cell 10: defines [circuit] and shows [circuit()]. *)
Definition cell_10 : M display :=
  do _ <- def_qnode "circuit" ;
  do p <- circuit_10 ;
  do v <- read_vector p ;
  ret (DVector v).

(** Cells 12, 16, 20 and 24: [dev.state]. *)
Definition cell_dev_state : M display :=
  do _ <- global "dev" ;
  fun s => (Ok (DState (dev_state s)), s).

(** Cell 14 up to its last line: binds [s] and [U] and defines [circuit]. *)
Definition cell_14_defs : M unit :=
  do _ <- global "np" ;
  do _ <- assign "s" (OFloat s_) ;
  do u <- new_matrix U ;
  do _ <- assign "U" (OMatrix u) ;
  def_qnode "circuit".

(** Cell 14: the definitions, then shows [circuit()]. *)
Definition cell_14 : M display :=
  do _ <- cell_14_defs ;
  do p <- circuit_14 ;
  do v <- read_vector p ;
  ret (DVector v).

(** The session in which the last line of cell 14 runs, when the cells are
    run in order: after the imports, the device, the empty circuit and the
    definitions of cell 14.  The device is in |00>. *)
Definition session_with_U : state :=
  snd (cell_14_defs (snd (cell_10 (snd (cell_5 (snd (cell_2 fresh))))))).

(** ** A library to run the notebook on

    A stand-in for PennyLane in which the definitions can be evaluated: the
    templates leave |00> as it is, the expectation value of Pauli-Z on a
    wire is then 1, and the gradients are those of an objective that is
    constant in [w] and quadratic in [b]. *)
Module TrivialLibrary.

(** [AngleEmbedding] takes a rotation angle per wire: on two wires it
    accepts up to two features and raises PennyLane's [ValueError] for
    more. *)
Definition too_many_features (n : nat) : error :=
  LibraryError
    (String.append "Features must be of length 2 or less; got length "
       (String.append (NilEmpty.string_of_uint (Nat.to_uint n)) ".")).

Definition AngleEmbedding (x : vector) : gate :=
  fun psi =>
    if (length x <=? 2)%nat then Ok psi
    else Raise (too_many_features (length x)).

Definition BasicEntanglerLayers (w : matrix) : gate := fun psi => Ok psi.

Definition expval_PauliZ (wire : nat) (psi : statevec) : result R := Ok 1.

Definition qml_grad_argnum0 (f : matrix -> R -> result R) (w : matrix) (b : R)
  : result matrix :=
  result_bind (f w b) (fun _ => Ok (map (map (fun _ => 0)) w)).

Definition qml_grad_argnum1 (f : matrix -> R -> result R) (w : matrix) (b : R)
  : result R :=
  result_bind (f w (b + 1)) (fun u =>
  result_bind (f w (b - 1)) (fun v => Ok ((u - v) / 2))).

(** A session to evaluate in: [w = [[0, 0]]] at reference 0, [b = 0] at 1,
    and one sample [x = [0, 0]], [y = 1] at 2 and 3. *)
Definition session : state :=
  alloc_scalar 1 (alloc_vector [0; 0] (alloc_scalar 0 (alloc_matrix [[0; 0]] fresh))).

(** The same with one more tensor, a sample of one feature, at 4. *)
Definition session' : state := alloc_vector [0] session.

Definition w0 : loc := 0%nat.
Definition b0 : loc := 1%nat.
Definition x0 : loc := 2%nat.
Definition y0 : loc := 3%nat.
Definition x1 : loc := 4%nat.
Definition data0 : list (loc * loc) := [(x0, y0)].

(** [session] with the names of cells 40 and 42 bound. *)
Definition session_bound : state :=
  with_globals
    (list_to_map
       [("w", OMatrix w0); ("b", OScalar b0); ("data", OData data0);
        ("gradient_fn_w", OFunction); ("gradient_fn_b", OFunction);
        ("average_loss", OFunction); ("model_with_bias", OFunction);
        ("quantum_model", OFunction); ("loss", OFunction);
        ("opt", OOptimizer 0.05)])
    session.

(** [session] with a second sample, [x = [0, 0]] and [y = -1], at 4 and 5. *)
Definition session2 : state :=
  alloc_scalar (-1) (alloc_vector [0; 0] session).

Definition x2 : loc := 4%nat.
Definition y2 : loc := 5%nat.
Definition data2 : list (loc * loc) := [(x0, y0); (x2, y2)].

(** Gradients that vanish: those of an objective that is flat around the
    point. *)
Definition flat_grad_argnum0 (f : matrix -> R -> result R) (w : matrix) (b : R)
  : result matrix :=
  Ok (map (map (fun _ => 0)) w).

Definition flat_grad_argnum1 (f : matrix -> R -> result R) (w : matrix) (b : R)
  : result R :=
  Ok 0.

(** A stream of draws for cell 40. *)
Definition rng0 : nat -> R := fun _ => 0.

(** [session] with a sample of three features at 4: one more than the two
    wires take. *)
Definition session3 : state := alloc_vector [0; 0; 0] session.

Definition x3 : loc := 4%nat.
Definition data3 : list (loc * loc) := [(x0, y0); (x3, y0)].

(** [session3] with the names of the training cells bound, [data] to the two
    samples of which the library rejects the second. *)
Definition session3_bound : state :=
  with_globals
    (list_to_map
       [("w", OMatrix w0); ("b", OScalar b0); ("data", OData data3);
        ("gradient_fn_w", OFunction); ("gradient_fn_b", OFunction);
        ("average_loss", OFunction); ("model_with_bias", OFunction);
        ("quantum_model", OFunction); ("loss", OFunction);
        ("opt", OOptimizer 0.05); ("closure", OFunction)])
    session3.

(** A [qml.grad] that raises for the bias. *)
Definition not_differentiable : error :=
  LibraryError "Cannot differentiate with respect to the argument".

Definition failing_grad_argnum1 (f : matrix -> R -> result R) (w : matrix)
    (b : R) : result R :=
  Raise not_differentiable.

(** A gradient in [w] of ones, and a template that accepts a first weight of
    0 only: the weights a step has moved are rejected. *)
Definition ones_grad_argnum0 (f : matrix -> R -> result R) (w : matrix) (b : R)
  : result matrix :=
  Ok (map (map (fun _ => 1)) w).

Definition weights_rejected : error := LibraryError "Weights rejected".

Definition FragileLayers (w : matrix) : gate :=
  fun psi =>
    match w with
    | (a :: _) :: _ =>
        if Req_dec_T a 0 then Ok psi else Raise weights_rejected
    | _ => Ok psi
    end.

(** torch reduced to the calls: [zero_grad] and [backward] do nothing, and
    [step] calls the closure and returns its loss. *)
Definition zero_grad : M unit := ret tt.
Definition backward (l : pyval) : M unit := ret tt.
Definition opt_step (closure : M pyval) : M pyval := closure.

End TrivialLibrary.

Section Notebook.

(** ** PennyLane *)

(** [qml.templates.AngleEmbedding(x, wires=[0, 1])] and
    [qml.templates.BasicEntanglerLayers(w, wires=[0, 1])] as operations, and
    [qml.expval(qml.PauliZ(wires=i))] as a function of the final state. *)
Variable AngleEmbedding : vector -> gate.
Variable BasicEntanglerLayers : matrix -> gate.
Variable expval_PauliZ : nat -> statevec -> result R.

(** [qml.grad(f, argnum=0)] and [qml.grad(f, argnum=1)] for an objective [f]
    of a 2-d tensor and a 0-d tensor: the gradient at a point, or an
    exception. *)
Variable qml_grad_argnum0 : (matrix -> R -> result R) -> matrix -> R -> result matrix.
Variable qml_grad_argnum1 : (matrix -> R -> result R) -> matrix -> R -> result R.

(** ** Cell 32: the quantum model *)

Definition quantum_model (x w : loc) : M loc :=
  do xv <- read_vector x ;
  do wv <- read_matrix w ;
  do psi <- execute [AngleEmbedding xv; BasicEntanglerLayers wv] ;
  do e <- lift (expval_PauliZ 0 psi) ;
  new_scalar e.

Definition quantum_model_val (xv : vector) (wv : matrix) : result R :=
  result_bind (apply_gates [AngleEmbedding xv; BasicEntanglerLayers wv] ket00)
              (expval_PauliZ 0).

(** ** Cell 40: model with bias, loss, average loss *)

Definition model_with_bias (x w b : loc) : M loc :=
  do q <- quantum_model x w ; np_add q b.

Definition loss (a b : loc) : M loc :=
  do d <- np_sub a b ; np_square d.

(** The body of the loop of [average_loss], for the sample [(x, y)]. *)
Definition accumulate (w b : loc) (c : pyval) (xy : loc * loc) : M pyval :=
  do prediction <- model_with_bias (fst xy) w b ;
  do l <- loss prediction (snd xy) ;
  iadd c l.

Definition average_loss (w b : loc) (data : list (loc * loc)) : M pyval :=
  do c <- for_each data (PInt 0) (accumulate w b) ;
  truediv c (length data).

Definition model_with_bias_val (xv : vector) (wv : matrix) (bv : R) : result R :=
  result_bind (quantum_model_val xv wv) (fun q => Ok (q + bv)).

Definition accumulate_val (wv : matrix) (bv : R) (c : num) (xy : vector * R)
  : result num :=
  result_bind (model_with_bias_val (fst xy) wv bv)
              (fun p => Ok (iadd_val c (loss_val p (snd xy)))).

Definition average_loss_val (wv : matrix) (bv : R) (dv : list (vector * R))
  : result num :=
  result_bind (for_each_val dv (NInt 0) (accumulate_val wv bv))
              (fun c => truediv_val c (length dv)).

(** *** The gradient functions *)

(** The objective as [qml.grad] sees it: a function of [w] and [b], the data
    held fixed. *)
Definition objective (dv : list (vector * R)) : matrix -> R -> result R :=
  fun wv bv => result_bind (average_loss_val wv bv dv) (fun c => Ok (num_R c)).

(** [gradient_fn_w = qml.grad(average_loss, argnum=0)]: a call evaluates
    [average_loss] at the arguments (the forward pass) and returns the
    gradient with respect to [w] as a new tensor. *)
Definition gradient_fn_w (w b : loc) (data : list (loc * loc)) : M loc :=
  do wv <- read_matrix w ;
  do bv <- read_scalar b ;
  do dv <- read_data data ;
  do _ <- average_loss w b data ;
  do g <- lift (qml_grad_argnum0 (objective dv) wv bv) ;
  new_matrix g.

(** [gradient_fn_b = qml.grad(average_loss, argnum=1)] *)
Definition gradient_fn_b (w b : loc) (data : list (loc * loc)) : M loc :=
  do wv <- read_matrix w ;
  do bv <- read_scalar b ;
  do dv <- read_data data ;
  do _ <- average_loss w b data ;
  do g <- lift (qml_grad_argnum1 (objective dv) wv bv) ;
  new_scalar g.

(** *** The hand-coded training loop

    The statements of the body of [for i in range(15)], in order.  The cell
    is top-level code: [w], [b], [w_new], [b_new] and [data] are global
    names, read when a statement runs. *)

(** The names a call of [average_loss(w, b, data)] resolves, in the order in
    which Python resolves them: for the first sample [model_with_bias] and,
    inside it, [quantum_model]; [loss] only once the model has returned, so
    that an exception of the model on the first sample comes before a
    [NameError] for [loss].  For the later samples the names are bound as
    for the first. *)
Definition average_loss_names (w b : loc) (data : list (loc * loc)) : M unit :=
  match data with
  | [] => ret tt
  | xy :: _ =>
      do _ <- global "model_with_bias" ;
      do _ <- global "quantum_model" ;
      fun s =>
        match globals s !! "loss" with
        | Some _ => (Ok tt, s)
        | None =>
            (do _ <- model_with_bias (fst xy) w b ; raise (NameError "loss")) s
        end
  end.

(** [w_new = w - 0.05*gradient_fn_w(w, b, data)] *)
Definition assign_w_new : M unit :=
  do w <- global_matrix "w" ;
  do _ <- global "gradient_fn_w" ;
  do b <- global_scalar "b" ;
  do data <- global_data "data" ;
  do _ <- average_loss_names w b data ;
  do g <- gradient_fn_w w b data ;
  do sg <- np_scale_matrix 0.05 g ;
  do w_new <- np_sub_matrix w sg ;
  assign "w_new" (OMatrix w_new).

(** [b_new = b - 0.05*gradient_fn_b(w, b, data)] *)
Definition assign_b_new : M unit :=
  do b <- global_scalar "b" ;
  do _ <- global "gradient_fn_b" ;
  do w <- global_matrix "w" ;
  do data <- global_data "data" ;
  do _ <- average_loss_names w b data ;
  do g <- gradient_fn_b w b data ;
  do sg <- np_scale 0.05 g ;
  do b_new <- np_sub b sg ;
  assign "b_new" (OScalar b_new).

(** [print(average_loss(w_new, b_new, data))] *)
Definition print_average_loss : M unit :=
  do _ <- global "average_loss" ;
  do w_new <- global_matrix "w_new" ;
  do b_new <- global_scalar "b_new" ;
  do data <- global_data "data" ;
  do _ <- average_loss_names w_new b_new data ;
  do l <- average_loss w_new b_new data ;
  do v <- read_pyval l ;
  print v.

(** The body of the loop of cell 40. *)
Definition cell_40_body : M unit :=
  do _ <- assign_w_new ;
  do _ <- assign_b_new ;
  do _ <- print_average_loss ;
  do _ <- copy "w" "w_new" ;
  copy "b" "b_new".

(** The names the training loops read are bound: [w], [b] and [data] to the
    tensors of cell 40, the functions to something. *)
Definition names_bound (s : state) (w b : loc) (data : list (loc * loc)) : Prop :=
  globals s !! "w" = Some (OMatrix w) /\
  globals s !! "b" = Some (OScalar b) /\
  globals s !! "data" = Some (OData data) /\
  is_Some (globals s !! "gradient_fn_w") /\
  is_Some (globals s !! "gradient_fn_b") /\
  is_Some (globals s !! "average_loss") /\
  is_Some (globals s !! "model_with_bias") /\
  is_Some (globals s !! "quantum_model") /\
  is_Some (globals s !! "loss").

(** ** Cell 42: the PennyLane optimizer *)

(** Modelled from the spec: [qml.GradientDescentOptimizer] is PennyLane's, so
    its [step_and_cost] is not in the notebook.  The spec describes the step
    as "call the library's gradient function and subtract a scaled gradient
    from the parameters": the objective is evaluated at the arguments (the
    cost that is returned), the library's gradient is taken there for each
    argument, and each argument is replaced by a new tensor, the argument
    minus [stepsize] times its gradient. *)
Definition step_and_cost (stepsize : R)
    (objective_fn : loc -> loc -> M pyval)
    (objective_val : matrix -> R -> result R)
    (w b : loc) : M ((loc * loc) * pyval) :=
  do wv <- read_matrix w ;
  do bv <- read_scalar b ;
  do cst <- objective_fn w b ;
  do g0 <- lift (qml_grad_argnum0 objective_val wv bv) ;
  do g1 <- lift (qml_grad_argnum1 objective_val wv bv) ;
  do gw <- new_matrix g0 ;
  do gb <- new_scalar g1 ;
  do sgw <- np_scale_matrix stepsize gw ;
  do w' <- np_sub_matrix w sgw ;
  do sgb <- np_scale stepsize gb ;
  do b' <- np_sub b sgb ;
  ret ((w', b'), cst).

(** [opt.step_and_cost(lambda w_, b_: average_loss(w_, b_, data), w, b)] *)
Definition optimizer_step (stepsize : R) (data : list (loc * loc)) (w b : loc)
  : M ((loc * loc) * pyval) :=
  do dv <- read_data data ;
  step_and_cost stepsize (fun w_ b_ => average_loss w_ b_ data) (objective dv) w b.

(** ** The cells that train *)

(** Cell 32: defines [quantum_model], binds [x] and [w] and shows
    [quantum_model(x, w)]. *)
Definition cell_32 : M display :=
  do _ <- def_qnode "quantum_model" ;
  do _ <- global "np" ;
  do x <- new_vector [0.1; 0.2] ;
  do _ <- assign "x" (OVector x) ;
  do w <- new_matrix [[-2.1; 1.2]; [-1.4; -3.9]; [0.5; 0.2]] ;
  do _ <- assign "w" (OMatrix w) ;
  do q <- quantum_model x w ;
  do v <- read_scalar q ;
  ret (DScalar v).

(** The samples of cell 40: sample [i] has the features
    [(rng (2 i), rng (2 i + 1))]; the first [n_samples//2 = 50] are labelled
    [-1] and the other 50 are labelled [1]. *)
Definition samples (rng : nat -> R) : list (vector * R) :=
  map (fun i => ([rng (2 * i)%nat; rng (2 * i + 1)%nat],
                 if (i <? 50)%nat then -1 else 1))
      (seq 0 100).

(** [w_init = np.random.random(size=(3, 2))] *)
Definition w_init (rng : nat -> R) : matrix :=
  [[rng 200%nat; rng 201%nat]; [rng 202%nat; rng 203%nat];
   [rng 204%nat; rng 205%nat]].

(** [data = list(zip(X, Y))]: a pair of tensor objects per sample. *)
Fixpoint new_data (sv : list (vector * R)) : M (list (loc * loc)) :=
  match sv with
  | [] => ret []
  | xy :: rest =>
      do x <- new_vector (fst xy) ;
      do y <- new_scalar (snd xy) ;
      do d <- new_data rest ;
      ret ((x, y) :: d)
  end.

(** Cell 40.  Of the names it binds, those no modelled cell reads
    ([X0], [X1], [X], [Y], [w_init], [i]) are left out. *)
Definition cell_40 (rng : nat -> R) : M display :=
  do n <- stdout_length ;
  do _ <- assign "n_samples" (OInt 100) ;
  do _ <- global "np" ;
  do data <- new_data (samples rng) ;
  do _ <- assign "data" (OData data) ;
  do _ <- assign "model_with_bias" OFunction ;
  do _ <- assign "loss" OFunction ;
  do _ <- assign "average_loss" OFunction ;
  do _ <- global "qml" ;
  do _ <- assign "gradient_fn_w" OFunction ;
  do _ <- assign "gradient_fn_b" OFunction ;
  do w <- new_matrix (w_init rng) ;
  do _ <- assign "w" (OMatrix w) ;
  do b <- new_scalar 0 ;
  do _ <- assign "b" (OScalar b) ;
  do _ <- for_range 15 cell_40_body ;
  printed_since n.

(** The body of the loop of cell 42.  The cost goes from [step_and_cost] to
    [print] without a binding of [cst], which nothing else reads. *)
Definition cell_42_body : M unit :=
  do stepsize <- global_optimizer "opt" ;
  do w <- global_matrix "w" ;
  do b <- global_scalar "b" ;
  do _ <- global "average_loss" ;
  do data <- global_data "data" ;
  do _ <- average_loss_names w b data ;
  do r <- optimizer_step stepsize data w b ;
  do _ <- assign "w" (OMatrix (fst (fst r))) ;
  do _ <- assign "b" (OScalar (snd (fst r))) ;
  do cst <- read_pyval (snd r) ;
  print cst.

(** Cell 42. *)
Definition cell_42 : M display :=
  do n <- stdout_length ;
  do _ <- global "qml" ;
  do _ <- assign "opt" (OOptimizer 0.05) ;
  do _ <- for_range 15 cell_42_body ;
  printed_since n.

Definition run_cell (c : cell) : M display :=
  match c with
  | Cell2 => cell_2
  | Cell5 => cell_5
  | Cell10 => cell_10
  | CellDevState => cell_dev_state
  | Cell14 => cell_14
  | Cell32 => cell_32
  | Cell40 rng => cell_40 rng
  | Cell42 => cell_42
  end.

(** The session after running cells one after the other; a cell that raises
    leaves the session as it is at that point, and the next cell runs. *)
Fixpoint run_cells (cs : list cell) (s : state) : state :=
  match cs with
  | [] => s
  | c :: cs' => run_cells cs' (snd (run_cell c s))
  end.

(** What cell [c] shows in a fresh kernel in which [earlier] have been run. *)
Definition shown (earlier : list cell) (c : cell) : result display :=
  fst (run_cell c (run_cells earlier fresh)).

(** A cell is independent when what it shows does not depend on the cells
    run before it. *)
Definition independent (c : cell) : Prop :=
  forall earlier1 earlier2, shown earlier1 c = shown earlier2 c.

(** Nothing a computation writes survives it: apart from the tensors it
    allocates, the session is afterwards as it was before. *)
Definition writes_no_state {A} (m : M A) : Prop :=
  forall s, extends s (snd (m s)) /\ dev_state (snd (m s)) = dev_state s.

(** ** The loss in closed form

    What the loop of [average_loss] is to compute, to compare it with: the
    mean of the squared residuals of the predictions against the targets. *)
Definition sum_list (l : list R) : R := fold_right Rplus 0 l.

Definition mean_squared_error (predictions targets : list R) : R :=
  sum_list (zip_with loss_val predictions targets) / INR (length targets).

(** The term a sample adds to the accumulator of [average_loss] when the
    model evaluates on it. *)
Definition squared_residual (wv : matrix) (bv : R) (xy : vector * R) : R :=
  match model_with_bias_val (fst xy) wv bv with
  | Ok p => loss_val p (snd xy)
  | Raise _ => 0
  end.

(** The model evaluates on a sample. *)
Definition evaluates (wv : matrix) (xy : vector * R) : Prop :=
  exists q, quantum_model_val (fst xy) wv = Ok q.

(** ** Gradient descent

    What the training loops are to compute, to compare them with.  A step
    of gradient descent as both loops take it: the objective is evaluated at
    the pair (the forward pass), the library gives the two gradients there,
    and the new pair is the old one minus [stepsize] times the gradients. *)
Definition descent_step (stepsize : R) (dv : list (vector * R))
    (wb : matrix * R) : result (matrix * R) :=
  result_bind (objective dv (fst wb) (snd wb)) (fun _ =>
  result_bind (qml_grad_argnum0 (objective dv) (fst wb) (snd wb)) (fun gw =>
  result_bind (qml_grad_argnum1 (objective dv) (fst wb) (snd wb)) (fun gb =>
  Ok (mat_sub (fst wb) (mat_scale stepsize gw), snd wb - stepsize * gb)))).

(** [n] passes of the hand-coded loop: a pass steps with 0.05 and prints
    the loss at the new pair.  The result is the last pair and the printed
    losses. *)
Fixpoint hand_coded_descent (n : nat) (dv : list (vector * R))
    (wb : matrix * R) : result ((matrix * R) * list R) :=
  match n with
  | O => Ok (wb, [])
  | S n' =>
      result_bind (descent_step 0.05 dv wb) (fun wb' =>
      result_bind (objective dv (fst wb') (snd wb')) (fun l =>
      result_bind (hand_coded_descent n' dv wb') (fun r =>
      Ok (fst r, l :: snd r))))
  end.

(** [n] passes of the optimizer loop: a pass prints the cost at the old
    pair and steps. *)
Fixpoint optimizer_descent (n : nat) (stepsize : R) (dv : list (vector * R))
    (wb : matrix * R) : result ((matrix * R) * list R) :=
  match n with
  | O => Ok (wb, [])
  | S n' =>
      result_bind (objective dv (fst wb) (snd wb)) (fun l =>
      result_bind (descent_step stepsize dv wb) (fun wb' =>
      result_bind (optimizer_descent n' stepsize dv wb') (fun r =>
      Ok (fst r, l :: snd r))))
  end.

(** A gradient of the shape of [m] that vanishes. *)
Definition zeros_like (m : matrix) : matrix := map (map (fun _ => 0)) m.

(** ** What a computation leaves as it was

    [preserves rel m]: the session in which [m] ends, whether it returns or
    raises, is related by [rel] to the one in which it started. *)
Definition preserves (rel : state -> state -> Prop) {A} (m : M A) : Prop :=
  forall s, rel s (snd (m s)).

(** The global names are bound as before and nothing was printed. *)
Definition quiet (s s' : state) : Prop :=
  globals s' = globals s /\ stdout s' = stdout s.

(** Only names among [names] were bound anew. *)
Definition binds_only (names : list string) (s s' : state) : Prop :=
  forall name, ~ In name names -> globals s' !! name = globals s !! name.

(** The same, and nothing was printed. *)
Definition binds_quietly (names : list string) (s s' : state) : Prop :=
  binds_only names s s' /\ stdout s' = stdout s.

(** The names cell 40 binds. *)
Definition cell_40_names : list string :=
  ["n_samples"; "data"; "model_with_bias"; "loss"; "average_loss";
   "gradient_fn_w"; "gradient_fn_b"; "w"; "b"; "w_new"; "b_new"].

(** ** Cell 44: the PyTorch variant

    Cell 44 defines [quantum_model] again, with the same circuit on the
    same device, and [average_loss] without the bias.  Its tensors are
    torch's: as with numpy's, [+=] on a tensor is in place and the other
    operators allocate their result. *)
Definition accumulate_torch (w : loc) (c : pyval) (xy : loc * loc) : M pyval :=
  do prediction <- quantum_model (fst xy) w ;
  do l <- loss prediction (snd xy) ;
  iadd c l.

Definition average_loss_torch (w : loc) (data : list (loc * loc)) : M pyval :=
  do c <- for_each data (PInt 0) (accumulate_torch w) ;
  truediv c (length data).

(** The names a call of cell 44's [average_loss(w, data)] resolves, in
    Python's order: [quantum_model] for the first sample, and [loss] once
    the model has returned. *)
Definition average_loss_torch_names (w : loc) (data : list (loc * loc))
  : M unit :=
  match data with
  | [] => ret tt
  | xy :: _ =>
      do _ <- global "quantum_model" ;
      fun s =>
        match globals s !! "loss" with
        | Some _ => (Ok tt, s)
        | None =>
            (do _ <- quantum_model (fst xy) w ; raise (NameError "loss")) s
        end
  end.

(** torch is a library as PennyLane is.  [opt.zero_grad()],
    [loss.backward()] and [opt.step(closure)] act on what torch keeps with
    the session (the gradient of [w], the moments of Adam, the tensor of [w]
    it updates in place): each is a computation on the session that returns
    or raises, and [opt.step] is handed the closure to call. *)
Variable zero_grad : M unit.
Variable backward : pyval -> M unit.
Variable opt_step : M pyval -> M pyval.

(** [closure()]:
    [opt.zero_grad(); loss = average_loss(w, data); loss.backward();
     return loss].  The [loss] it assigns is a local variable. *)
Definition closure : M pyval :=
  do _ <- global "opt" ;
  do _ <- zero_grad ;
  do _ <- global "average_loss" ;
  do w <- global_matrix "w" ;
  do data <- global_data "data" ;
  do _ <- average_loss_torch_names w data ;
  do l <- average_loss_torch w data ;
  do _ <- backward l ;
  ret l.

(** The body of the loop of cell 44:
    [opt.step(closure); print(average_loss(w, data))]. *)
Definition cell_44_body : M unit :=
  do _ <- global "opt" ;
  do _ <- global "closure" ;
  do _ <- opt_step closure ;
  do _ <- global "average_loss" ;
  do w <- global_matrix "w" ;
  do data <- global_data "data" ;
  do _ <- average_loss_torch_names w data ;
  do l <- average_loss_torch w data ;
  do v <- read_pyval l ;
  print v.

(** The names the loop of cell 44 and its closure read are bound. *)
Definition torch_names_bound (s : state) (w : loc) (data : list (loc * loc))
  : Prop :=
  globals s !! "w" = Some (OMatrix w) /\
  globals s !! "data" = Some (OData data) /\
  is_Some (globals s !! "average_loss") /\
  is_Some (globals s !! "quantum_model") /\
  is_Some (globals s !! "loss").


(** * Properties *)

(** ** The monad *)

Lemma bind_Ok {A B} (m : M A) (k : A -> M B) s a s' :
  m s = (Ok a, s') -> bind m k s = k a s'.
Proof. intros H. unfold bind. now rewrite H. Qed.

Lemma bind_Raise {A B} (m : M A) (k : A -> M B) s e s' :
  m s = (Raise e, s') -> bind m k s = (Raise e, s').
Proof. intros H. unfold bind. now rewrite H. Qed.

(** ** The store *)

Lemma upd_same {A} (f : loc -> A) l a : upd f l a l = a.
Proof. unfold upd. now rewrite Nat.eqb_refl. Qed.

Lemma upd_other {A} (f : loc -> A) l l' a : l' <> l -> upd f l a l' = f l'.
Proof. intros H. unfold upd. apply Nat.eqb_neq in H. now rewrite H. Qed.

Lemma extends_refl s : extends s s.
Proof. unfold extends. auto 10. Qed.

Lemma extends_trans s1 s2 s3 : extends s1 s2 -> extends s2 s3 -> extends s1 s3.
Proof.
  intros (Hn & H0 & H1 & H2 & Hg & Ho) (Hn' & H0' & H1' & H2' & Hg' & Ho').
  unfold extends. repeat split.
  - lia.
  - intros l Hl. rewrite H0' by lia. now apply H0.
  - intros l Hl. rewrite H1' by lia. now apply H1.
  - intros l Hl. rewrite H2' by lia. now apply H2.
  - congruence.
  - congruence.
Qed.

Lemma extends_alloc_scalar r s : extends s (alloc_scalar r s).
Proof.
  unfold extends; simpl. repeat split; auto.
  intros l Hl. apply upd_other. lia.
Qed.

Lemma extends_alloc_vector v s : extends s (alloc_vector v s).
Proof.
  unfold extends; simpl. repeat split; auto.
  intros l Hl. apply upd_other. lia.
Qed.

Lemma extends_alloc_matrix m s : extends s (alloc_matrix m s).
Proof.
  unfold extends; simpl. repeat split; auto.
  intros l Hl. apply upd_other. lia.
Qed.

Lemma extends_with_dev_state psi s : extends s (with_dev_state psi s).
Proof. unfold extends; simpl. auto 10. Qed.

(** Writing into an object allocated after [s0] keeps the frame of [s0]. *)
Lemma extends_store_scalar s0 s l r :
  extends s0 s -> (next s0 <= l)%nat -> extends s0 (store_scalar l r s).
Proof.
  intros (Hn & H0 & H1 & H2 & Hg & Ho) Hl.
  unfold extends; simpl. repeat split; auto.
  intros l' Hl'. rewrite upd_other by lia. now apply H0.
Qed.

Lemma data_values_extends s s' data :
  extends s s' ->
  Forall (fun xy => (fst xy < next s)%nat /\ (snd xy < next s)%nat) data ->
  data_values s' data = data_values s data.
Proof.
  intros (_ & H0 & H1 & _) Hd. unfold data_values.
  induction Hd as [|xy data [Hx Hy] _ IH]; simpl; [reflexivity|].
  now rewrite IH, H0, H1.
Qed.

Lemma allocated_extends s s' w b data :
  extends s s' -> allocated s w b data -> allocated s' w b data.
Proof.
  intros (Hn & _) (Hw & Hb & Hd). repeat split; try lia.
  eapply Forall_impl; [exact Hd|]. simpl. intros xy [Hx Hy]. lia.
Qed.

(** The values of the arguments of [average_loss] in a later state. *)
Lemma arguments_extends s s' w b data :
  extends s s' -> allocated s w b data ->
  matrices s' w = matrices s w /\ scalars s' b = scalars s b /\
  data_values s' data = data_values s data.
Proof.
  intros Hext Hall.
  rewrite (data_values_extends _ _ _ Hext) by apply Hall.
  destruct Hall as (Hw & Hb & _). destruct Hext as (_ & E0 & _ & E2 & _).
  rewrite E0, E2 by assumption. auto.
Qed.

(** ** Each function against the value it computes *)

Lemma quantum_model_spec x w s :
  exists s', extends s s' /\
    match quantum_model_val (vectors s x) (matrices s w) with
    | Raise e => quantum_model x w s = (Raise e, s')
    | Ok q =>
        quantum_model x w s = (Ok (next s), s') /\
        next s' = S (next s) /\ scalars s' (next s) = q
    end.
Proof.
  unfold quantum_model_val, quantum_model, execute, bind, lift, read_vector,
    read_matrix, set_dev_state, ret, new_scalar, result_bind.
  destruct (apply_gates _ ket00) as [psi|e].
  - destruct (expval_PauliZ 0 psi) as [q|e].
    + eexists; split; [|split; [reflexivity|split; [reflexivity|]]].
      * eapply extends_trans; [apply extends_with_dev_state|apply extends_alloc_scalar].
      * simpl. apply upd_same.
    + eexists; split; [|reflexivity]. apply extends_with_dev_state.
  - eexists; split; [|reflexivity]. apply extends_refl.
Qed.

Lemma model_with_bias_spec x w b s :
  (b < next s)%nat ->
  exists s', extends s s' /\
    match model_with_bias_val (vectors s x) (matrices s w) (scalars s b) with
    | Raise e => model_with_bias x w b s = (Raise e, s')
    | Ok p =>
        exists l, model_with_bias x w b s = (Ok l, s') /\
                  (next s <= l < next s')%nat /\ scalars s' l = p
    end.
Proof.
  intros Hb. unfold model_with_bias_val, model_with_bias.
  destruct (quantum_model_spec x w s) as (s1 & Hext & Hq).
  destruct (quantum_model_val _ _) as [q|e]; simpl.
  - destruct Hq as (Hq & Hn & Hv).
    rewrite (bind_Ok _ _ _ _ _ Hq).
    unfold np_add, bind, read_scalar, new_scalar.
    eexists; split; [|eexists; split; [reflexivity|split]].
    + eapply extends_trans; [exact Hext|apply extends_alloc_scalar].
    + simpl. lia.
    + simpl. rewrite upd_same, Hv.
      destruct Hext as (_ & H0 & _). now rewrite H0.
  - exists s1. split; [exact Hext|]. now apply bind_Raise.
Qed.

Lemma loss_spec a b s :
  exists l s', loss a b s = (Ok l, s') /\
               extends s s' /\ (next s <= l < next s')%nat /\
               scalars s' l = loss_val (scalars s a) (scalars s b) /\
               dev_state s' = dev_state s.
Proof.
  unfold loss, np_sub, np_square, bind, read_scalar, new_scalar.
  eexists _, _; split; [reflexivity|]. split; [|split; [|split]].
  - eapply extends_trans; apply extends_alloc_scalar.
  - simpl. lia.
  - simpl. now rewrite !upd_same.
  - reflexivity.
Qed.

Lemma iadd_spec s0 s c cv t :
  extends s0 s -> acc_rel s0 s c cv ->
  exists c' s', iadd c t s = (Ok c', s') /\
                extends s0 s' /\ (next s <= next s')%nat /\
                acc_rel s0 s' c' (iadd_val cv (scalars s t)) /\
                dev_state s' = dev_state s.
Proof.
  intros Hext Hrel.
  destruct c as [z|r|l], cv as [z'|r'|r']; simpl in Hrel; try contradiction.
  - subst z'. unfold iadd, bind, read_scalar, new_scalar, ret.
    eexists _, _; split; [reflexivity|]. split; [|split; [|split; [|reflexivity]]].
    + eapply extends_trans; [exact Hext|apply extends_alloc_scalar].
    + simpl. lia.
    + simpl. split; [destruct Hext; lia|apply upd_same].
  - subst r'. unfold iadd, bind, read_scalar, new_scalar, ret.
    eexists _, _; split; [reflexivity|]. split; [|split; [|split; [|reflexivity]]].
    + eapply extends_trans; [exact Hext|apply extends_alloc_scalar].
    + simpl. lia.
    + simpl. split; [destruct Hext; lia|apply upd_same].
  - destruct Hrel as [Hl Hv]. unfold iadd, bind, read_scalar, write_scalar, ret.
    eexists _, _; split; [reflexivity|]. split; [|split; [|split; [|reflexivity]]].
    + apply extends_store_scalar; [assumption|lia].
    + simpl. lia.
    + simpl. split; [lia|]. now rewrite upd_same, Hv.
Qed.

Lemma accumulate_spec w b x y s0 s c cv :
  (w < next s0)%nat -> (b < next s0)%nat ->
  (x < next s0)%nat -> (y < next s0)%nat ->
  extends s0 s -> acc_rel s0 s c cv ->
  exists s', extends s0 s' /\
    match accumulate_val (matrices s0 w) (scalars s0 b) cv
                         (vectors s0 x, scalars s0 y) with
    | Raise e => accumulate w b c (x, y) s = (Raise e, s')
    | Ok cv' =>
        exists c', accumulate w b c (x, y) s = (Ok c', s') /\
                   acc_rel s0 s' c' cv'
    end.
Proof.
  intros Hw Hb Hx Hy Hext Hrel. unfold accumulate_val, accumulate. simpl.
  assert (Hb' : (b < next s)%nat) by (destruct Hext; lia).
  destruct (model_with_bias_spec x w b s Hb') as (s1 & Hext1 & Hm).
  assert (Hext01 : extends s0 s1) by (eapply extends_trans; eassumption).
  destruct Hext as (Hn & H0 & H1 & H2 & Hg & Ho).
  rewrite (H1 x Hx), (H2 w Hw), (H0 b Hb) in Hm.
  destruct (model_with_bias_val _ _ _) as [p|e]; simpl.
  - destruct Hm as (lp & Hm & Hlp & Hp).
    rewrite (bind_Ok _ _ _ _ _ Hm).
    destruct (loss_spec lp y s1) as (ll & s2 & Hls & Hext2 & Hll & Hl & _).
    rewrite (bind_Ok _ _ _ _ _ Hls).
    assert (Hext02 : extends s0 s2) by (eapply extends_trans; eassumption).
    assert (Hrel2 : acc_rel s0 s2 c cv).
    { destruct c as [z|r|l], cv as [z'|r'|r']; simpl in *; auto.
      destruct Hrel as [Hl' Hv]. split.
      - destruct Hext1, Hext2; lia.
      - destruct Hext2 as (_ & E2 & _), Hext1 as (Hn1 & E1 & _).
        rewrite E2 by lia. rewrite E1 by lia. exact Hv. }
    destruct (iadd_spec s0 s2 c cv ll Hext02 Hrel2)
      as (c3 & s3 & Hi & Hext3 & _ & Hrel3 & _).
    assert (Hy2 : scalars s1 y = scalars s0 y).
    { destruct Hext01 as (_ & E1 & _). now apply E1. }
    rewrite Hl, Hp, Hy2 in Hrel3.
    eauto.
  - exists s1. split; [exact Hext01|]. now apply bind_Raise.
Qed.

Lemma for_each_accumulate_spec w b data : forall s0 s c cv,
  allocated s0 w b data -> extends s0 s -> acc_rel s0 s c cv ->
  exists s', extends s0 s' /\
    match for_each_val (data_values s0 data) cv
                       (accumulate_val (matrices s0 w) (scalars s0 b)) with
    | Raise e => for_each data c (accumulate w b) s = (Raise e, s')
    | Ok cv' =>
        exists c', for_each data c (accumulate w b) s = (Ok c', s') /\
                   acc_rel s0 s' c' cv'
    end.
Proof.
  induction data as [|[x y] data IH]; intros s0 s c cv Hall Hext Hrel.
  - simpl. unfold ret. eauto.
  - destruct Hall as (Hw & Hb & Hd). inversion Hd as [|? ? [Hx Hy] Hd']; subst.
    simpl in Hx, Hy. simpl.
    destruct (accumulate_spec w b x y s0 s c cv Hw Hb Hx Hy Hext Hrel)
      as (s1 & Hext1 & Ha).
    destruct (accumulate_val _ _ cv _) as [cv1|e]; simpl.
    + destruct Ha as (c1 & Ha & Hrel1).
      rewrite (bind_Ok _ _ _ _ _ Ha).
      apply IH; [repeat split; assumption|assumption|assumption].
    + exists s1. split; [exact Hext1|]. now apply bind_Raise.
Qed.

(** [average_loss] computes [average_loss_val] of the values of its
    arguments, raises when it raises, and keeps the frame. *)
Lemma average_loss_spec w b data s :
  allocated s w b data ->
  exists s', extends s s' /\
    match average_loss_val (matrices s w) (scalars s b) (data_values s data) with
    | Raise e => average_loss w b data s = (Raise e, s')
    | Ok cv =>
        exists v, average_loss w b data s = (Ok v, s') /\
                  value_of s' v = num_R cv /\
                  (forall s'', extends s' s'' -> value_of s'' v = value_of s' v)
    end.
Proof.
  intros Hall. unfold average_loss_val, average_loss.
  destruct (for_each_accumulate_spec w b data s s (PInt 0) (NInt 0) Hall
              (extends_refl s) eq_refl) as (s1 & Hext & Hf).
  destruct (for_each_val _ _ _) as [cv|e]; simpl.
  - destruct Hf as (c & Hf & Hrel).
    rewrite (bind_Ok _ _ _ _ _ Hf).
    assert (Hlen : length (data_values s data) = length data)
      by (unfold data_values; apply length_map).
    rewrite Hlen.
    destruct c as [z|r|l], cv as [z'|r'|r']; simpl in Hrel; try contradiction.
    + subst z'. simpl. destruct (length data); simpl; unfold raise, ret;
        (eexists; split; [exact Hext|]); [reflexivity|].
      eexists; split; [reflexivity|split; [reflexivity|intros; reflexivity]].
    + subst r'. simpl. destruct (length data); simpl; unfold raise, ret;
        (eexists; split; [exact Hext|]); [reflexivity|].
      eexists; split; [reflexivity|split; [reflexivity|intros; reflexivity]].
    + destruct Hrel as [Hl Hv]. simpl.
      unfold bind, read_scalar, new_scalar, ret.
      eexists; split; [|eexists; split; [reflexivity|split]].
      * eapply extends_trans; [exact Hext|apply extends_alloc_scalar].
      * simpl. now rewrite upd_same, Hv.
      * intros s'' (_ & E & _). simpl. apply E. simpl. lia.
  - exists s1. split; [exact Hext|]. now apply bind_Raise.
Qed.

(** ** The accumulated loss is a sum of squares *)

Lemma loss_val_nonneg a b : 0 <= loss_val a b.
Proof. unfold loss_val. apply pow2_ge_0. Qed.

Lemma loss_val_sym a b : loss_val a b = loss_val b a.
Proof. unfold loss_val. ring. Qed.

Lemma for_each_accumulate_val_nonneg wv bv dv : forall cv cv',
  0 <= num_R cv ->
  for_each_val dv cv (accumulate_val wv bv) = Ok cv' ->
  0 <= num_R cv' /\ (dv <> [] -> exists r, cv' = NTensor r).
Proof.
  induction dv as [|xy dv IH]; intros cv cv' Hcv H; simpl in H.
  - injection H as <-. split; [assumption|congruence].
  - unfold accumulate_val at 1 in H.
    destruct (model_with_bias_val _ _ _) as [p|e]; simpl in H; [|discriminate].
    pose proof (loss_val_nonneg p (snd xy)) as Hl.
    destruct (IH (iadd_val cv (loss_val p (snd xy))) cv') as [Hge Hten].
    + simpl. lra.
    + exact H.
    + split; [exact Hge|]. intros _.
      destruct dv as [|xy' dv'].
      * simpl in H. injection H as <-. unfold iadd_val. eauto.
      * apply Hten. congruence.
Qed.

Lemma for_each_accumulate_val_Ok wv bv dv : forall cv,
  Forall (fun xy => exists q, quantum_model_val (fst xy) wv = Ok q) dv ->
  exists cv', for_each_val dv cv (accumulate_val wv bv) = Ok cv'.
Proof.
  induction dv as [|xy dv IH]; intros cv Hd; simpl.
  - eauto.
  - inversion Hd as [|? ? [q Hq] Hd']; subst.
    unfold accumulate_val at 1, model_with_bias_val. rewrite Hq. simpl.
    now apply IH.
Qed.

Lemma average_loss_val_nonneg wv bv dv :
  dv <> [] ->
  Forall (fun xy => exists q, quantum_model_val (fst xy) wv = Ok q) dv ->
  exists cv, average_loss_val wv bv dv = Ok cv /\ 0 <= num_R cv.
Proof.
  intros Hne Hd. unfold average_loss_val.
  destruct (for_each_accumulate_val_Ok wv bv dv (NInt 0) Hd) as [cv Hcv].
  rewrite Hcv. simpl.
  destruct (for_each_accumulate_val_nonneg wv bv dv (NInt 0) cv) as [Hge Hten].
  - simpl. lra.
  - exact Hcv.
  - destruct (Hten Hne) as [r ->]. simpl in *.
    eexists; split; [reflexivity|]. simpl.
    apply Rmult_le_pos; [exact Hge|].
    apply Rlt_le, Rinv_0_lt_compat, lt_0_INR.
    destruct dv; [congruence|simpl; lia].
Qed.

Lemma Forall_data_values (P : vector * R -> Prop) s data :
  Forall (fun xy => P (vectors s (fst xy), scalars s (snd xy))) data ->
  Forall P (data_values s data).
Proof.
  unfold data_values. induction 1; simpl; constructor; assumption.
Qed.

(** ** The claims about the functions of cell 40 *)

(** C7: for every [w] and [b], [average_loss(w, b, data)] with an empty
    [data] raises a division-by-zero error: the loop leaves the accumulator
    [c] at the int 0 and the unguarded [c/len(data)] divides it by zero. *)
Theorem average_loss_empty_data_raises w b s :
  for_each [] (PInt 0) (accumulate w b) s = (Ok (PInt 0), s) /\
  truediv (PInt 0) (length (@nil (loc * loc))) s = (Raise ZeroDivisionError, s) /\
  average_loss w b [] s = (Raise ZeroDivisionError, s).
Proof. repeat split. Qed.

(** C8: [model_with_bias(x, w, b)] is [quantum_model(x, w) + b]: it raises
    what [quantum_model] raises, and otherwise returns a tensor whose value
    is the value of [quantum_model]'s result plus the value of [b]; with
    [b = 0] that is the value of [quantum_model(x, w)] itself. *)
Theorem model_with_bias_is_quantum_model_plus_b x w b s :
  (b < next s)%nat ->
  match quantum_model x w s with
  | (Raise e, s1) => model_with_bias x w b s = (Raise e, s1)
  | (Ok q, s1) =>
      exists l s', model_with_bias x w b s = (Ok l, s') /\
                   scalars s' l = scalars s1 q + scalars s b /\
                   (scalars s b = 0 -> scalars s' l = scalars s1 q)
  end.
Proof.
  intros Hb. unfold model_with_bias.
  destruct (quantum_model_spec x w s) as (s1' & Hext & Hq).
  destruct (quantum_model x w s) as [[q|e] s1] eqn:E.
  - destruct (quantum_model_val _ _) as [qv|e'].
    + destruct Hq as (Hq & Hn & Hv). injection Hq as -> ->.
      rewrite (bind_Ok _ _ _ _ _ E).
      unfold np_add, bind, read_scalar, new_scalar.
      eexists _, _; split; [reflexivity|]. simpl. rewrite upd_same.
      destruct Hext as (_ & H0 & _). rewrite (H0 b Hb).
      split; [reflexivity|]. intros ->. ring.
    + discriminate.
  - now apply bind_Raise.
Qed.

(** C9: [loss(a, b)] returns a tensor of value [(a - b)^2], which is
    non-negative and is also the value of [loss(b, a)]; and for non-empty
    [data], whenever the library evaluates the model on every sample,
    [average_loss(w, b, data)] returns a non-negative value. *)
Theorem loss_nonneg_sym_average_loss_nonneg :
  (forall a b s,
     exists l1 s1 l2 s2,
       loss a b s = (Ok l1, s1) /\ loss b a s = (Ok l2, s2) /\
       scalars s1 l1 = (scalars s a - scalars s b) ^ 2 /\
       0 <= scalars s1 l1 /\
       scalars s2 l2 = scalars s1 l1) /\
  (forall w b data s,
     data <> [] ->
     allocated s w b data ->
     Forall (fun xy => exists q,
               quantum_model_val (vectors s (fst xy)) (matrices s w) = Ok q)
            data ->
     exists v s', average_loss w b data s = (Ok v, s') /\ 0 <= value_of s' v).
Proof.
  split.
  - intros a b s.
    destruct (loss_spec a b s) as (l1 & s1 & H1 & _ & _ & V1 & _).
    destruct (loss_spec b a s) as (l2 & s2 & H2 & _ & _ & V2 & _).
    exists l1, s1, l2, s2. repeat split; try assumption.
    + rewrite V1. apply loss_val_nonneg.
    + rewrite V1, V2. apply loss_val_sym.
  - intros w b data s Hne Hall Hd.
    destruct (average_loss_val_nonneg (matrices s w) (scalars s b)
                (data_values s data)) as (cv & Hcv & Hge).
    + destruct data; [congruence|discriminate].
    + apply Forall_data_values. exact Hd.
    + destruct (average_loss_spec w b data s Hall) as (s' & _ & Hs).
      rewrite Hcv in Hs. destruct Hs as (v & Hv & Hval & _).
      exists v, s'. split; [exact Hv|]. now rewrite Hval.
Qed.

(** ** Outcomes *)

Lemma quantum_model_outcome x w s :
  outcome scalars (quantum_model x w s)
  = quantum_model_val (vectors s x) (matrices s w).
Proof.
  destruct (quantum_model_spec x w s) as (s' & _ & H). unfold outcome.
  destruct (quantum_model_val _ _) as [q|e].
  - destruct H as (-> & _ & Hv). simpl. now rewrite Hv.
  - now rewrite H.
Qed.

Lemma average_loss_outcome w b data s :
  allocated s w b data ->
  outcome value_of (average_loss w b data s)
  = objective (data_values s data) (matrices s w) (scalars s b).
Proof.
  intros Hall. destruct (average_loss_spec w b data s Hall) as (s' & _ & H).
  unfold outcome, objective.
  destruct (average_loss_val _ _ _) as [cv|e]; simpl.
  - destruct H as (v & -> & Hv & _). simpl. now rewrite Hv.
  - now rewrite H.
Qed.

Lemma average_loss_extends w b data s :
  allocated s w b data -> extends s (snd (average_loss w b data s)).
Proof.
  intros Hall. destruct (average_loss_spec w b data s Hall) as (s' & Hext & H).
  destruct (average_loss_val _ _ _) as [cv|e].
  - destruct H as (v & -> & _). exact Hext.
  - now rewrite H.
Qed.

(** C5: evaluation is deterministic.  What [quantum_model(x, w)] comes to
    depends only on the values of [x] and [w], and what
    [average_loss(w, b, data)] comes to only on the values of [w], [b] and
    [data]: evaluations from any two sessions that agree on them, and in
    particular two evaluations one after the other, give equal values (or
    the same exception). *)
Theorem evaluation_deterministic :
  (forall x w s1 s2,
     vectors s1 x = vectors s2 x -> matrices s1 w = matrices s2 w ->
     outcome scalars (quantum_model x w s1)
     = outcome scalars (quantum_model x w s2)) /\
  (forall w b data s1 s2,
     allocated s1 w b data -> allocated s2 w b data ->
     matrices s1 w = matrices s2 w -> scalars s1 b = scalars s2 b ->
     data_values s1 data = data_values s2 data ->
     outcome value_of (average_loss w b data s1)
     = outcome value_of (average_loss w b data s2)) /\
  (forall w b data s,
     allocated s w b data ->
     outcome value_of (average_loss w b data s)
     = outcome value_of (average_loss w b data (snd (average_loss w b data s)))).
Proof.
  split; [|split].
  - intros x w s1 s2 Hx Hw. rewrite !quantum_model_outcome. now rewrite Hx, Hw.
  - intros w b data s1 s2 H1 H2 Hw Hb Hd.
    rewrite !average_loss_outcome by assumption. now rewrite Hw, Hb, Hd.
  - intros w b data s Hall.
    pose proof (average_loss_extends w b data s Hall) as Hext.
    rewrite !average_loss_outcome
      by (try assumption; eapply allocated_extends; eassumption).
    destruct (arguments_extends _ _ _ _ _ Hext Hall) as (-> & -> & ->).
    reflexivity.
Qed.

(** ** What the functions write *)

Lemma model_with_bias_extends x w b s :
  extends s (snd (model_with_bias x w b s)).
Proof.
  unfold model_with_bias.
  destruct (quantum_model_spec x w s) as (s1 & Hext & Hq).
  destruct (quantum_model_val _ _) as [q|e].
  - destruct Hq as (Hq & _). rewrite (bind_Ok _ _ _ _ _ Hq).
    eapply extends_trans; [exact Hext|apply extends_alloc_scalar].
  - now rewrite (bind_Raise _ _ _ _ _ Hq).
Qed.

(** C4, as the code has it: evaluating [quantum_model], [model_with_bias],
    [loss] or [average_loss] leaves every tensor that existed before the call
    as it was, in particular the arguments [w], [b] and [data], binds no
    global name and prints nothing; what these functions do write, besides
    the tensors they allocate, is the state of the device, which after
    [quantum_model(x, w)] is the state the circuit prepared. *)
Theorem functions_keep_tensors_and_write_device :
  (forall x w s, extends s (snd (quantum_model x w s))) /\
  (forall x w b s, extends s (snd (model_with_bias x w b s))) /\
  (forall a b s, extends s (snd (loss a b s)) /\
                 dev_state (snd (loss a b s)) = dev_state s) /\
  (forall w b data s,
     allocated s w b data ->
     extends s (snd (average_loss w b data s)) /\
     matrices (snd (average_loss w b data s)) w = matrices s w /\
     scalars (snd (average_loss w b data s)) b = scalars s b /\
     data_values (snd (average_loss w b data s)) data = data_values s data) /\
  (forall x w s psi,
     apply_gates [AngleEmbedding (vectors s x); BasicEntanglerLayers (matrices s w)]
                 ket00 = Ok psi ->
     dev_state (snd (quantum_model x w s)) = psi).
Proof.
  split; [|split; [|split; [|split]]].
  - intros x w s. destruct (quantum_model_spec x w s) as (s' & Hext & H).
    destruct (quantum_model_val _ _); [destruct H as (-> & _)|rewrite H];
      exact Hext.
  - apply model_with_bias_extends.
  - intros a b s. destruct (loss_spec a b s) as (l & s' & -> & Hext & _ & _ & Hd).
    split; assumption.
  - intros w b data s Hall.
    pose proof (average_loss_extends w b data s Hall) as Hext.
    split; [exact Hext|]. now apply arguments_extends.
  - intros x w s psi Hpsi.
    unfold quantum_model, execute, bind, lift, read_vector, read_matrix,
      set_dev_state, ret, new_scalar.
    rewrite Hpsi. destruct (expval_PauliZ 0 psi); reflexivity.
Qed.

(** ** The gradient functions and the update steps *)

Lemma np_scale_matrix_run r a s :
  np_scale_matrix r a s
  = (Ok (next s), alloc_matrix (mat_scale r (matrices s a)) s).
Proof. reflexivity. Qed.

Lemma np_sub_matrix_run a b s :
  np_sub_matrix a b s
  = (Ok (next s), alloc_matrix (mat_sub (matrices s a) (matrices s b)) s).
Proof. reflexivity. Qed.

Lemma np_scale_run r a s :
  np_scale r a s = (Ok (next s), alloc_scalar (r * scalars s a) s).
Proof. reflexivity. Qed.

Lemma np_sub_run a b s :
  np_sub a b s = (Ok (next s), alloc_scalar (scalars s a - scalars s b) s).
Proof. reflexivity. Qed.

Lemma gradient_fn_w_unfold w b data s :
  gradient_fn_w w b data s
  = bind (average_loss w b data)
      (fun _ =>
         bind (lift (qml_grad_argnum0 (objective (data_values s data))
                                      (matrices s w) (scalars s b)))
              new_matrix) s.
Proof. reflexivity. Qed.

Lemma gradient_fn_b_unfold w b data s :
  gradient_fn_b w b data s
  = bind (average_loss w b data)
      (fun _ =>
         bind (lift (qml_grad_argnum1 (objective (data_values s data))
                                      (matrices s w) (scalars s b)))
              new_scalar) s.
Proof. reflexivity. Qed.

Lemma gradient_fn_w_spec w b data s :
  allocated s w b data ->
  exists s', extends s s' /\
    match average_loss_val (matrices s w) (scalars s b) (data_values s data) with
    | Raise e => gradient_fn_w w b data s = (Raise e, s')
    | Ok _ =>
        match qml_grad_argnum0 (objective (data_values s data))
                               (matrices s w) (scalars s b) with
        | Raise e => gradient_fn_w w b data s = (Raise e, s')
        | Ok g =>
            gradient_fn_w w b data s = (Ok (next s'), alloc_matrix g s')
        end
    end.
Proof.
  intros Hall. rewrite gradient_fn_w_unfold.
  destruct (average_loss_spec w b data s Hall) as (s' & Hext & H).
  exists s'. split; [exact Hext|].
  destruct (average_loss_val _ _ _) as [cv|e].
  - destruct H as (v & H & _). rewrite (bind_Ok _ _ _ _ _ H).
    unfold bind, lift, new_matrix.
    destruct (qml_grad_argnum0 _ _ _); reflexivity.
  - now apply bind_Raise.
Qed.

Lemma gradient_fn_b_spec w b data s :
  allocated s w b data ->
  exists s', extends s s' /\
    match average_loss_val (matrices s w) (scalars s b) (data_values s data) with
    | Raise e => gradient_fn_b w b data s = (Raise e, s')
    | Ok _ =>
        match qml_grad_argnum1 (objective (data_values s data))
                               (matrices s w) (scalars s b) with
        | Raise e => gradient_fn_b w b data s = (Raise e, s')
        | Ok g =>
            gradient_fn_b w b data s = (Ok (next s'), alloc_scalar g s')
        end
    end.
Proof.
  intros Hall. rewrite gradient_fn_b_unfold.
  destruct (average_loss_spec w b data s Hall) as (s' & Hext & H).
  exists s'. split; [exact Hext|].
  destruct (average_loss_val _ _ _) as [cv|e].
  - destruct H as (v & H & _). rewrite (bind_Ok _ _ _ _ _ H).
    unfold bind, lift, new_scalar.
    destruct (qml_grad_argnum1 _ _ _); reflexivity.
  - now apply bind_Raise.
Qed.

Lemma alloc_matrix_facts m s :
  extends s (alloc_matrix m s) /\
  next (alloc_matrix m s) = S (next s) /\
  matrices (alloc_matrix m s) (next s) = m.
Proof.
  split; [apply extends_alloc_matrix|]. split; [reflexivity|]. apply upd_same.
Qed.

Lemma alloc_scalar_facts r s :
  extends s (alloc_scalar r s) /\
  next (alloc_scalar r s) = S (next s) /\
  scalars (alloc_scalar r s) (next s) = r.
Proof.
  split; [apply extends_alloc_scalar|]. split; [reflexivity|]. apply upd_same.
Qed.

(** ** Global names *)

Lemma global_Some name o s :
  globals s !! name = Some o -> global name s = (Ok o, s).
Proof. intros H. unfold global. now rewrite H. Qed.

Lemma global_None name s :
  globals s !! name = None -> global name s = (Raise (NameError name), s).
Proof. intros H. unfold global. now rewrite H. Qed.

Lemma global_matrix_Some name l s :
  globals s !! name = Some (OMatrix l) -> global_matrix name s = (Ok l, s).
Proof.
  intros H. unfold global_matrix. now rewrite (bind_Ok _ _ _ _ _ (global_Some _ _ _ H)).
Qed.

Lemma global_scalar_Some name l s :
  globals s !! name = Some (OScalar l) -> global_scalar name s = (Ok l, s).
Proof.
  intros H. unfold global_scalar. now rewrite (bind_Ok _ _ _ _ _ (global_Some _ _ _ H)).
Qed.

Lemma global_data_Some name d s :
  globals s !! name = Some (OData d) -> global_data name s = (Ok d, s).
Proof.
  intros H. unfold global_data. now rewrite (bind_Ok _ _ _ _ _ (global_Some _ _ _ H)).
Qed.

Lemma global_optimizer_Some name r s :
  globals s !! name = Some (OOptimizer r) -> global_optimizer name s = (Ok r, s).
Proof.
  intros H. unfold global_optimizer.
  now rewrite (bind_Ok _ _ _ _ _ (global_Some _ _ _ H)).
Qed.

Lemma average_loss_names_bound w b data s :
  is_Some (globals s !! "model_with_bias") ->
  is_Some (globals s !! "quantum_model") ->
  is_Some (globals s !! "loss") ->
  average_loss_names w b data s = (Ok tt, s).
Proof.
  intros [o1 H1] [o2 H2] [o3 H3]. destruct data; [reflexivity|].
  unfold average_loss_names.
  rewrite (bind_Ok _ _ _ _ _ (global_Some _ _ _ H1)).
  rewrite (bind_Ok _ _ _ _ _ (global_Some _ _ _ H2)).
  now rewrite H3.
Qed.

Lemma is_Some_insert (g : gmap string object) name o k :
  is_Some (g !! k) -> is_Some (<[name := o]> g !! k).
Proof.
  intros H. apply lookup_insert_is_Some.
  destruct (decide (name = k)); auto.
Qed.

(** Binding a name other than [w], [b] and [data] keeps the names of the
    training loops bound. *)
Lemma names_bound_insert s s' name o w b data :
  name <> "w" -> name <> "b" -> name <> "data" ->
  globals s' = <[name := o]> (globals s) ->
  names_bound s w b data -> names_bound s' w b data.
Proof.
  intros N1 N2 N3 Hg (Hw & Hb & Hd & H4 & H5 & H6 & H7 & H8 & H9).
  unfold names_bound. rewrite Hg.
  rewrite !lookup_insert_ne by congruence.
  repeat split; try assumption; now apply is_Some_insert.
Qed.

(** ** The tensors under a statement *)

Lemma extends_store s s' : extends s s' -> store_extends s s'.
Proof. intros (Hn & H0 & H1 & H2 & _). repeat split; assumption. Qed.

Lemma store_extends_trans s1 s2 s3 :
  store_extends s1 s2 -> store_extends s2 s3 -> store_extends s1 s3.
Proof.
  intros (Hn & H0 & H1 & H2) (Hn' & H0' & H1' & H2').
  unfold store_extends. repeat split.
  - lia.
  - intros l Hl. rewrite H0' by lia. now apply H0.
  - intros l Hl. rewrite H1' by lia. now apply H1.
  - intros l Hl. rewrite H2' by lia. now apply H2.
Qed.

Lemma allocated_store_extends s s' w b data :
  store_extends s s' -> allocated s w b data -> allocated s' w b data.
Proof.
  intros (Hn & _) (Hw & Hb & Hd). repeat split; try lia.
  eapply Forall_impl; [exact Hd|]. simpl. intros xy [Hx Hy]. lia.
Qed.

Lemma arguments_store_extends s s' w b data :
  store_extends s s' -> allocated s w b data ->
  matrices s' w = matrices s w /\ scalars s' b = scalars s b /\
  data_values s' data = data_values s data.
Proof.
  intros (_ & E0 & E1 & E2) (Hw & Hb & Hd).
  rewrite E0, E2 by assumption. repeat split.
  unfold data_values.
  induction Hd as [|xy data [Hx Hy] _ IH]; simpl; [reflexivity|].
  now rewrite IH, E0, E1.
Qed.

(** ** The statements of the hand-coded loop *)

Lemma assign_w_new_spec s w b data l gw :
  names_bound s w b data ->
  allocated s w b data ->
  average_loss_val (matrices s w) (scalars s b) (data_values s data) = Ok l ->
  qml_grad_argnum0 (objective (data_values s data)) (matrices s w) (scalars s b)
  = Ok gw ->
  exists w_new s',
    assign_w_new s = (Ok tt, s') /\
    store_extends s s' /\
    globals s' = <["w_new" := OMatrix w_new]> (globals s) /\
    stdout s' = stdout s /\
    (next s <= w_new < next s')%nat /\
    matrices s' w_new = mat_sub (matrices s w) (mat_scale 0.05 gw).
Proof.
  intros (Hw & Hb & Hd & [o4 H4] & _ & _ & H7 & H8 & H9) Hall Hl Hgw.
  unfold assign_w_new.
  rewrite (bind_Ok _ _ _ _ _ (global_matrix_Some _ _ _ Hw)).
  rewrite (bind_Ok _ _ _ _ _ (global_Some _ _ _ H4)).
  rewrite (bind_Ok _ _ _ _ _ (global_scalar_Some _ _ _ Hb)).
  rewrite (bind_Ok _ _ _ _ _ (global_data_Some _ _ _ Hd)).
  rewrite (bind_Ok _ _ _ _ _ (average_loss_names_bound _ _ _ _ H7 H8 H9)).
  destruct (gradient_fn_w_spec w b data s Hall) as (s1 & Hext1 & Hg).
  rewrite Hl, Hgw in Hg. rewrite (bind_Ok _ _ _ _ _ Hg). clear Hg.
  destruct (alloc_matrix_facts gw s1) as (Hext2 & Hn2 & Hv2).
  set (s2 := alloc_matrix gw s1) in *.
  rewrite (bind_Ok _ _ _ _ _ (np_scale_matrix_run _ _ _)).
  destruct (alloc_matrix_facts (mat_scale 0.05 (matrices s2 (next s1))) s2)
    as (Hext3 & Hn3 & Hv3).
  set (s3 := alloc_matrix _ s2) in *.
  rewrite (bind_Ok _ _ _ _ _ (np_sub_matrix_run _ _ _)).
  destruct (alloc_matrix_facts (mat_sub (matrices s3 w) (matrices s3 (next s2))) s3)
    as (Hext4 & Hn4 & Hv4).
  set (s4 := alloc_matrix _ s3) in *.
  assert (Hext03 : extends s s3).
  { eapply extends_trans; [exact Hext1|].
    eapply extends_trans; [exact Hext2|exact Hext3]. }
  assert (Hext04 : extends s s4)
    by (eapply extends_trans; [exact Hext03|exact Hext4]).
  assert (Hw3 : matrices s3 w = matrices s w).
  { destruct Hext03 as (_ & _ & _ & E & _). apply E, Hall. }
  rewrite Hw3, Hv3, Hv2 in Hv4.
  assert (Hn01 : (next s <= next s1)%nat) by apply Hext1.
  clearbody s4 s3 s2.
  exists (next s3). eexists. split; [reflexivity|].
  destruct Hext04 as (Hn & E0 & E1 & E2 & Eg & Eo).
  simpl. rewrite Eg. repeat split; try assumption; try lia.
Qed.

Lemma assign_b_new_spec s w b data l gb :
  names_bound s w b data ->
  allocated s w b data ->
  average_loss_val (matrices s w) (scalars s b) (data_values s data) = Ok l ->
  qml_grad_argnum1 (objective (data_values s data)) (matrices s w) (scalars s b)
  = Ok gb ->
  exists b_new s',
    assign_b_new s = (Ok tt, s') /\
    store_extends s s' /\
    globals s' = <["b_new" := OScalar b_new]> (globals s) /\
    stdout s' = stdout s /\
    (next s <= b_new < next s')%nat /\
    scalars s' b_new = scalars s b - 0.05 * gb.
Proof.
  intros (Hw & Hb & Hd & _ & [o5 H5] & _ & H7 & H8 & H9) Hall Hl Hgb.
  unfold assign_b_new.
  rewrite (bind_Ok _ _ _ _ _ (global_scalar_Some _ _ _ Hb)).
  rewrite (bind_Ok _ _ _ _ _ (global_Some _ _ _ H5)).
  rewrite (bind_Ok _ _ _ _ _ (global_matrix_Some _ _ _ Hw)).
  rewrite (bind_Ok _ _ _ _ _ (global_data_Some _ _ _ Hd)).
  rewrite (bind_Ok _ _ _ _ _ (average_loss_names_bound _ _ _ _ H7 H8 H9)).
  destruct (gradient_fn_b_spec w b data s Hall) as (s1 & Hext1 & Hg).
  rewrite Hl, Hgb in Hg. rewrite (bind_Ok _ _ _ _ _ Hg). clear Hg.
  destruct (alloc_scalar_facts gb s1) as (Hext2 & Hn2 & Hv2).
  set (s2 := alloc_scalar gb s1) in *.
  rewrite (bind_Ok _ _ _ _ _ (np_scale_run _ _ _)).
  destruct (alloc_scalar_facts (0.05 * scalars s2 (next s1)) s2)
    as (Hext3 & Hn3 & Hv3).
  set (s3 := alloc_scalar _ s2) in *.
  rewrite (bind_Ok _ _ _ _ _ (np_sub_run _ _ _)).
  destruct (alloc_scalar_facts (scalars s3 b - scalars s3 (next s2)) s3)
    as (Hext4 & Hn4 & Hv4).
  set (s4 := alloc_scalar _ s3) in *.
  assert (Hext03 : extends s s3).
  { eapply extends_trans; [exact Hext1|].
    eapply extends_trans; [exact Hext2|exact Hext3]. }
  assert (Hext04 : extends s s4)
    by (eapply extends_trans; [exact Hext03|exact Hext4]).
  assert (Hb3 : scalars s3 b = scalars s b).
  { destruct Hext03 as (_ & E & _). apply E, Hall. }
  rewrite Hb3, Hv3, Hv2 in Hv4.
  assert (Hn01 : (next s <= next s1)%nat) by apply Hext1.
  clearbody s4 s3 s2.
  exists (next s3). eexists. split; [reflexivity|].
  destruct Hext04 as (Hn & E0 & E1 & E2 & Eg & Eo).
  simpl. rewrite Eg. repeat split; try assumption; try lia.
Qed.

Lemma print_average_loss_spec s w_new b_new data l' :
  is_Some (globals s !! "average_loss") ->
  globals s !! "w_new" = Some (OMatrix w_new) ->
  globals s !! "b_new" = Some (OScalar b_new) ->
  globals s !! "data" = Some (OData data) ->
  is_Some (globals s !! "model_with_bias") ->
  is_Some (globals s !! "quantum_model") ->
  is_Some (globals s !! "loss") ->
  allocated s w_new b_new data ->
  average_loss_val (matrices s w_new) (scalars s b_new) (data_values s data)
  = Ok l' ->
  exists s',
    print_average_loss s = (Ok tt, s') /\
    store_extends s s' /\
    globals s' = globals s /\
    stdout s' = stdout s ++ [num_R l'].
Proof.
  intros [o H] Hw Hb Hd H7 H8 H9 Hall Hl. unfold print_average_loss.
  rewrite (bind_Ok _ _ _ _ _ (global_Some _ _ _ H)).
  rewrite (bind_Ok _ _ _ _ _ (global_matrix_Some _ _ _ Hw)).
  rewrite (bind_Ok _ _ _ _ _ (global_scalar_Some _ _ _ Hb)).
  rewrite (bind_Ok _ _ _ _ _ (global_data_Some _ _ _ Hd)).
  rewrite (bind_Ok _ _ _ _ _ (average_loss_names_bound _ _ _ _ H7 H8 H9)).
  destruct (average_loss_spec w_new b_new data s Hall) as (s1 & Hext & Hal).
  rewrite Hl in Hal. destruct Hal as (v & Hal & Hv & _).
  rewrite (bind_Ok _ _ _ _ _ Hal).
  eexists. split; [reflexivity|].
  destruct Hext as (Hn & E0 & E1 & E2 & Eg & Eo).
  simpl. rewrite Eo, Hv. repeat split; assumption.
Qed.

Lemma copy_spec x y o s :
  globals s !! y = Some o ->
  copy x y s = (Ok tt, with_globals (<[x := o]> (globals s)) s).
Proof.
  intros H. unfold copy. now rewrite (bind_Ok _ _ _ _ _ (global_Some _ _ _ H)).
Qed.

(** One pass through the body of the loop of cell 40. *)
Lemma cell_40_body_spec s w b data l gw gb l' :
  names_bound s w b data ->
  allocated s w b data ->
  average_loss_val (matrices s w) (scalars s b) (data_values s data) = Ok l ->
  qml_grad_argnum0 (objective (data_values s data)) (matrices s w) (scalars s b)
  = Ok gw ->
  qml_grad_argnum1 (objective (data_values s data)) (matrices s w) (scalars s b)
  = Ok gb ->
  average_loss_val (mat_sub (matrices s w) (mat_scale 0.05 gw))
                   (scalars s b - 0.05 * gb) (data_values s data) = Ok l' ->
  exists w_new b_new s',
    cell_40_body s = (Ok tt, s') /\
    globals s' !! "w" = Some (OMatrix w_new) /\
    matrices s' w_new = mat_sub (matrices s w) (mat_scale 0.05 gw) /\
    globals s' !! "b" = Some (OScalar b_new) /\
    scalars s' b_new = scalars s b - 0.05 * gb /\
    store_extends s s' /\
    (next s <= w_new < next s')%nat /\ (next s <= b_new < next s')%nat /\
    stdout s' = stdout s ++ [num_R l'] /\
    names_bound s' w_new b_new data /\
    allocated s' w_new b_new data.
Proof.
  intros Hnames Hall Hl Hgw Hgb Hl'. unfold cell_40_body.
  (* w_new = ... *)
  destruct (assign_w_new_spec s w b data l gw Hnames Hall Hl Hgw)
    as (w_new & s1 & Hrun1 & Hst1 & Hg1 & Ho1 & Hwn & Hwv).
  rewrite (bind_Ok _ _ _ _ _ Hrun1).
  pose proof (names_bound_insert s s1 "w_new" _ w b data
                ltac:(discriminate) ltac:(discriminate) ltac:(discriminate)
                Hg1 Hnames) as Hnames1.
  pose proof (allocated_store_extends _ _ _ _ _ Hst1 Hall) as Hall1.
  destruct (arguments_store_extends _ _ _ _ _ Hst1 Hall) as (Ew1 & Eb1 & Ed1).
  (* b_new = ... *)
  destruct (assign_b_new_spec s1 w b data l gb Hnames1 Hall1) as
    (b_new & s2 & Hrun2 & Hst2 & Hg2 & Ho2 & Hbn & Hbv).
  { now rewrite Ew1, Eb1, Ed1. }
  { now rewrite Ew1, Eb1, Ed1. }
  rewrite (bind_Ok _ _ _ _ _ Hrun2). rewrite Eb1 in Hbv.
  pose proof (names_bound_insert s1 s2 "b_new" _ w b data
                ltac:(discriminate) ltac:(discriminate) ltac:(discriminate)
                Hg2 Hnames1) as Hnames2.
  pose proof (store_extends_trans _ _ _ Hst1 Hst2) as Hst02.
  destruct (arguments_store_extends _ _ _ _ _ Hst02 Hall) as (Ew2 & Eb2 & Ed2).
  assert (Hwv2 : matrices s2 w_new = mat_sub (matrices s w) (mat_scale 0.05 gw)).
  { destruct Hst2 as (_ & _ & _ & E). rewrite E by lia. exact Hwv. }
  assert (Hn1 : (next s1 <= next s2)%nat) by apply Hst2.
  (* print(average_loss(w_new, b_new, data)) *)
  destruct Hnames2 as (Hw2 & Hb2 & Hd2 & H4 & H5 & H6 & H7 & H8 & H9).
  destruct (print_average_loss_spec s2 w_new b_new data l') as
    (s3 & Hrun3 & Hst3 & Hg3 & Ho3); try assumption.
  { rewrite Hg2, lookup_insert_ne by discriminate.
    rewrite Hg1. apply lookup_insert_eq. }
  { rewrite Hg2. apply lookup_insert_eq. }
  { destruct (allocated_store_extends _ _ _ _ _ Hst02 Hall) as (_ & _ & Hd').
    repeat split; [lia|lia|exact Hd']. }
  { now rewrite Hwv2, Hbv, Ed2. }
  rewrite (bind_Ok _ _ _ _ _ Hrun3).
  (* w = w_new; b = b_new *)
  assert (Hwn3 : globals s3 !! "w_new" = Some (OMatrix w_new)).
  { rewrite Hg3, Hg2, lookup_insert_ne by discriminate.
    rewrite Hg1. apply lookup_insert_eq. }
  assert (Hbn3 : globals s3 !! "b_new" = Some (OScalar b_new)).
  { rewrite Hg3, Hg2. apply lookup_insert_eq. }
  rewrite (bind_Ok _ _ _ _ _ (copy_spec _ _ _ _ Hwn3)).
  erewrite copy_spec
    by (simpl; rewrite lookup_insert_ne by discriminate; exact Hbn3).
  pose proof (store_extends_trans _ _ _ Hst02 Hst3) as Hst03.
  assert (Hn2 : (next s2 <= next s3)%nat) by apply Hst3.
  exists w_new, b_new. eexists. split; [reflexivity|].
  destruct (allocated_store_extends _ _ _ _ _ Hst03 Hall) as (_ & _ & Hd3).
  destruct Hst3 as (_ & E0 & _ & E2).
  unfold names_bound, allocated.
  simpl. rewrite Hg3. repeat split; try (apply Hst03); try lia.
  - rewrite lookup_insert_ne by discriminate. apply lookup_insert_eq.
  - rewrite E2 by lia. exact Hwv2.
  - apply lookup_insert_eq.
  - rewrite E0 by lia. exact Hbv.
  - rewrite Ho3, Ho2, Ho1. reflexivity.
  - rewrite lookup_insert_ne by discriminate. apply lookup_insert_eq.
  - apply lookup_insert_eq.
  - rewrite !lookup_insert_ne by discriminate. exact Hd2.
  - now do 2 apply is_Some_insert.
  - now do 2 apply is_Some_insert.
  - now do 2 apply is_Some_insert.
  - now do 2 apply is_Some_insert.
  - now do 2 apply is_Some_insert.
  - now do 2 apply is_Some_insert.
  - exact Hd3.
Qed.

Lemma new_data_spec sv : forall s,
  exists d s',
    new_data sv s = (Ok d, s') /\
    extends s s' /\
    Forall (fun xy => (fst xy < next s')%nat /\ (snd xy < next s')%nat) d /\
    data_values s' d = sv.
Proof.
  induction sv as [|xy sv IH]; intros s; simpl.
  - exists [], s. repeat split; [apply extends_refl|constructor].
  - unfold bind at 1, new_vector at 1; cbv beta iota.
    unfold bind at 1, new_scalar at 1; cbv beta iota.
    destruct (IH (alloc_scalar (snd xy) (alloc_vector (fst xy) s)))
      as (d & s' & Hrun & Hext & Hd & Hv).
    rewrite (bind_Ok _ _ _ _ _ Hrun). unfold ret.
    eexists _, s'. split; [reflexivity|].
    assert (Hn : (S (S (next s)) <= next s')%nat) by apply Hext.
    split; [|split].
    + eapply extends_trans; [apply extends_alloc_vector|].
      eapply extends_trans; [apply extends_alloc_scalar|exact Hext].
    + constructor; [simpl; lia|exact Hd].
    + unfold data_values in *. simpl. rewrite Hv.
      destruct Hext as (_ & E0 & E1 & _).
      rewrite E0, E1 by (simpl; lia). simpl.
      rewrite !upd_same. now destruct xy.
Qed.

(** The session in which the loop of cell 40 starts, when [np], [qml] and
    [quantum_model] are bound: the names of the loop are bound, [data] holds
    the samples, [w] the initial weights and [b] is 0. *)
Lemma cell_40_loop_entry rng s :
  is_Some (globals s !! "np") ->
  is_Some (globals s !! "qml") ->
  is_Some (globals s !! "quantum_model") ->
  exists s0 w b data,
    cell_40 rng s
    = bind (for_range 15 cell_40_body)
           (fun _ => printed_since (length (stdout s))) s0 /\
    names_bound s0 w b data /\
    allocated s0 w b data /\
    data_values s0 data = samples rng /\
    matrices s0 w = w_init rng /\
    scalars s0 b = 0 /\
    stdout s0 = stdout s.
Proof.
  intros [o1 Hnp] [o2 Hqml] Hqm. unfold cell_40.
  unfold bind at 1, stdout_length at 1; cbv beta iota.
  unfold bind at 1, assign at 1; cbv beta iota.
  erewrite bind_Ok
    by (apply global_Some; simpl; rewrite lookup_insert_ne by discriminate;
        exact Hnp).
  destruct (new_data_spec (samples rng)
              (with_globals (<["n_samples" := OInt 100]> (globals s)) s))
    as (data & s1 & Hrun & Hext & Hd & Hv).
  rewrite (bind_Ok _ _ _ _ _ Hrun).
  destruct Hext as (Hn & E0 & E1 & E2 & Eg & Eo). simpl in Eg, Eo.
  do 4 (unfold bind at 1, assign at 1; cbv beta iota).
  erewrite bind_Ok
    by (apply global_Some; simpl; rewrite Eg;
        rewrite !lookup_insert_ne by discriminate; exact Hqml).
  do 2 (unfold bind at 1, assign at 1; cbv beta iota).
  unfold bind at 1, new_matrix at 1; cbv beta iota.
  unfold bind at 1, assign at 1; cbv beta iota.
  unfold bind at 1, new_scalar at 1; cbv beta iota.
  unfold bind at 1, assign at 1; cbv beta iota.
  eexists _, (next s1), (S (next s1)), data. split; [reflexivity|].
  unfold names_bound, allocated. simpl. rewrite Eg.
  repeat split.
  - rewrite lookup_insert_ne by discriminate. apply lookup_insert_eq.
  - apply lookup_insert_eq.
  - rewrite !lookup_insert_ne by discriminate. apply lookup_insert_eq.
  - rewrite !lookup_insert_ne by discriminate. rewrite lookup_insert_eq. eauto.
  - rewrite !lookup_insert_ne by discriminate. rewrite lookup_insert_eq. eauto.
  - rewrite !lookup_insert_ne by discriminate. rewrite lookup_insert_eq. eauto.
  - rewrite !lookup_insert_ne by discriminate. rewrite lookup_insert_eq. eauto.
  - rewrite !lookup_insert_ne by discriminate. exact Hqm.
  - rewrite !lookup_insert_ne by discriminate. rewrite lookup_insert_eq. eauto.
  - lia.
  - lia.
  - eapply Forall_impl; [exact Hd|]. simpl. intros xy [Hx Hy]. lia.
  - rewrite <- Hv. unfold data_values. apply map_ext_in.
    intros xy Hin. rewrite Forall_forall in Hd.
    destruct (Hd xy) as [Hx Hy].
    { now apply list_elem_of_In. }
    f_equal. apply upd_other. unfold loc in *. simpl. lia.
  - apply upd_same.
  - apply upd_same.
  - exact Eo.
Qed.

(** C1: one pass through the body of the hand-coded loop, from a session in
    which the names of cell 40 are bound.  When the library returns the loss
    and the two gradients at the old pair [(w, b)], and the loss at the new
    pair for [print], the pass ends with [w] bound to a new tensor of value
    [w - 0.05 * grad_w] and [b] to a new tensor of value [b - 0.05 * grad_b],
    both gradients being those at the old pair: the second statement still
    reads the old [w], and the old tensors keep their values. *)
Theorem training_pass_simultaneous_update s w b data l gw gb l' :
  names_bound s w b data ->
  allocated s w b data ->
  average_loss_val (matrices s w) (scalars s b) (data_values s data) = Ok l ->
  qml_grad_argnum0 (objective (data_values s data)) (matrices s w) (scalars s b)
  = Ok gw ->
  qml_grad_argnum1 (objective (data_values s data)) (matrices s w) (scalars s b)
  = Ok gb ->
  average_loss_val (mat_sub (matrices s w) (mat_scale 0.05 gw))
                   (scalars s b - 0.05 * gb) (data_values s data) = Ok l' ->
  exists w_new b_new s',
    cell_40_body s = (Ok tt, s') /\
    globals s' !! "w" = Some (OMatrix w_new) /\
    matrices s' w_new = mat_sub (matrices s w) (mat_scale 0.05 gw) /\
    globals s' !! "b" = Some (OScalar b_new) /\
    scalars s' b_new = scalars s b - 0.05 * gb /\
    matrices s' w = matrices s w /\ scalars s' b = scalars s b /\
    stdout s' = stdout s ++ [num_R l'].
Proof.
  intros Hnames Hall Hl Hgw Hgb Hl'.
  destruct (cell_40_body_spec s w b data l gw gb l' Hnames Hall Hl Hgw Hgb Hl')
    as (w_new & b_new & s' & Hrun & Hw & Hwv & Hb & Hbv & Hst & _ & _ & Ho & _).
  destruct (arguments_store_extends _ _ _ _ _ Hst Hall) as (Ew & Eb & _).
  exists w_new, b_new, s'. repeat split; assumption.
Qed.

(** ** The optimizer *)

Lemma optimizer_step_unfold stepsize data w b s :
  optimizer_step stepsize data w b s
  = bind (average_loss w b data)
      (fun cst =>
         do g0 <- lift (qml_grad_argnum0 (objective (data_values s data))
                                         (matrices s w) (scalars s b)) ;
         do g1 <- lift (qml_grad_argnum1 (objective (data_values s data))
                                         (matrices s w) (scalars s b)) ;
         do gw <- new_matrix g0 ;
         do gb <- new_scalar g1 ;
         do sgw <- np_scale_matrix stepsize gw ;
         do w' <- np_sub_matrix w sgw ;
         do sgb <- np_scale stepsize gb ;
         do b' <- np_sub b sgb ;
         ret ((w', b'), cst)) s.
Proof. reflexivity. Qed.

Lemma optimizer_step_spec stepsize data w b s l gw gb :
  allocated s w b data ->
  average_loss_val (matrices s w) (scalars s b) (data_values s data) = Ok l ->
  qml_grad_argnum0 (objective (data_values s data)) (matrices s w) (scalars s b)
  = Ok gw ->
  qml_grad_argnum1 (objective (data_values s data)) (matrices s w) (scalars s b)
  = Ok gb ->
  exists w' b' cst s',
    optimizer_step stepsize data w b s = (Ok ((w', b'), cst), s') /\
    matrices s' w' = mat_sub (matrices s w) (mat_scale stepsize gw) /\
    scalars s' b' = scalars s b - stepsize * gb /\
    value_of s' cst = num_R l /\
    extends s s' /\
    (next s <= w' < next s')%nat /\ (next s <= b' < next s')%nat.
Proof.
  intros Hall Hl Hgw Hgb. rewrite optimizer_step_unfold.
  destruct (average_loss_spec w b data s Hall) as (s1 & Hext1 & Hal).
  rewrite Hl in Hal. destruct Hal as (cst & Hal & Hcst & Hstable).
  rewrite (bind_Ok _ _ _ _ _ Hal). rewrite Hgw, Hgb.
  unfold bind at 1, lift at 1; cbv beta iota.
  unfold bind at 1, lift at 1; cbv beta iota.
  unfold bind at 1, new_matrix at 1; cbv beta iota.
  destruct (alloc_matrix_facts gw s1) as (Hext2 & Hn2 & Hv2).
  set (s2 := alloc_matrix gw s1) in *.
  unfold bind at 1, new_scalar at 1; cbv beta iota.
  destruct (alloc_scalar_facts gb s2) as (Hext3 & Hn3 & Hv3).
  set (s3 := alloc_scalar gb s2) in *.
  rewrite (bind_Ok _ _ _ _ _ (np_scale_matrix_run _ _ _)).
  destruct (alloc_matrix_facts (mat_scale stepsize (matrices s3 (next s1))) s3)
    as (Hext4 & Hn4 & Hv4).
  set (s4 := alloc_matrix _ s3) in *.
  rewrite (bind_Ok _ _ _ _ _ (np_sub_matrix_run _ _ _)).
  destruct (alloc_matrix_facts (mat_sub (matrices s4 w) (matrices s4 (next s3))) s4)
    as (Hext5 & Hn5 & Hv5).
  set (s5 := alloc_matrix _ s4) in *.
  rewrite (bind_Ok _ _ _ _ _ (np_scale_run _ _ _)).
  destruct (alloc_scalar_facts (stepsize * scalars s5 (next s2)) s5)
    as (Hext6 & Hn6 & Hv6).
  set (s6 := alloc_scalar _ s5) in *.
  rewrite (bind_Ok _ _ _ _ _ (np_sub_run _ _ _)).
  destruct (alloc_scalar_facts (scalars s6 b - scalars s6 (next s5)) s6)
    as (Hext7 & Hn7 & Hv7).
  set (s7 := alloc_scalar _ s6) in *.
  assert (Hn01 : (next s <= next s1)%nat) by apply Hext1.
  assert (Hext13 : extends s1 s3)
    by (eapply extends_trans; [exact Hext2|exact Hext3]).
  assert (Hext14 : extends s1 s4)
    by (eapply extends_trans; [exact Hext13|exact Hext4]).
  assert (Hext15 : extends s1 s5)
    by (eapply extends_trans; [exact Hext14|exact Hext5]).
  assert (Hext16 : extends s1 s6)
    by (eapply extends_trans; [exact Hext15|exact Hext6]).
  assert (Hext17 : extends s1 s7)
    by (eapply extends_trans; [exact Hext16|exact Hext7]).
  assert (Hext07 : extends s s7)
    by (eapply extends_trans; [exact Hext1|exact Hext17]).
  assert (Hg3 : matrices s3 (next s1) = gw).
  { destruct Hext3 as (_ & _ & _ & E & _). rewrite E by lia. exact Hv2. }
  assert (Hw4 : matrices s4 w = matrices s w).
  { assert (E : extends s s4) by (eapply extends_trans; [exact Hext1|exact Hext14]).
    destruct E as (_ & _ & _ & E & _). apply E, Hall. }
  rewrite Hw4, Hv4, Hg3 in Hv5.
  assert (Hgb5 : scalars s5 (next s2) = gb).
  { assert (E : extends s3 s5) by (eapply extends_trans; [exact Hext4|exact Hext5]).
    destruct E as (_ & E & _). rewrite E by lia. exact Hv3. }
  assert (Hb6 : scalars s6 b = scalars s b).
  { assert (E : extends s s6) by (eapply extends_trans; [exact Hext1|exact Hext16]).
    destruct E as (_ & E & _). apply E, Hall. }
  rewrite Hb6, Hv6, Hgb5 in Hv7.
  exists (next s4), (next s6), cst, s7. unfold ret.
  split; [reflexivity|]. split; [|split; [|split; [|split; [|split]]]].
  - assert (E : extends s5 s7) by (eapply extends_trans; [exact Hext6|exact Hext7]).
    destruct E as (_ & _ & _ & E & _). rewrite E by lia. exact Hv5.
  - exact Hv7.
  - rewrite (Hstable s7 Hext17). exact Hcst.
  - exact Hext07.
  - lia.
  - lia.
Qed.

Lemma value_of_with_globals g s v : value_of (with_globals g s) v = value_of s v.
Proof. destruct v; reflexivity. Qed.

(** One pass through the body of the loop of cell 42. *)
Lemma cell_42_body_spec s stepsize w b data l gw gb :
  globals s !! "opt" = Some (OOptimizer stepsize) ->
  names_bound s w b data ->
  allocated s w b data ->
  average_loss_val (matrices s w) (scalars s b) (data_values s data) = Ok l ->
  qml_grad_argnum0 (objective (data_values s data)) (matrices s w) (scalars s b)
  = Ok gw ->
  qml_grad_argnum1 (objective (data_values s data)) (matrices s w) (scalars s b)
  = Ok gb ->
  exists w' b' s',
    cell_42_body s = (Ok tt, s') /\
    globals s' !! "w" = Some (OMatrix w') /\
    matrices s' w' = mat_sub (matrices s w) (mat_scale stepsize gw) /\
    globals s' !! "b" = Some (OScalar b') /\
    scalars s' b' = scalars s b - stepsize * gb /\
    store_extends s s' /\
    stdout s' = stdout s ++ [num_R l] /\
    globals s' !! "opt" = Some (OOptimizer stepsize) /\
    names_bound s' w' b' data /\
    allocated s' w' b' data.
Proof.
  intros Hopt (Hw & Hb & Hd & H4 & H5 & H6 & H7 & H8 & H9) Hall Hl Hgw Hgb.
  pose proof H6 as [o6 H6'].
  unfold cell_42_body.
  rewrite (bind_Ok _ _ _ _ _ (global_optimizer_Some _ _ _ Hopt)).
  rewrite (bind_Ok _ _ _ _ _ (global_matrix_Some _ _ _ Hw)).
  rewrite (bind_Ok _ _ _ _ _ (global_scalar_Some _ _ _ Hb)).
  rewrite (bind_Ok _ _ _ _ _ (global_Some _ _ _ H6')).
  rewrite (bind_Ok _ _ _ _ _ (global_data_Some _ _ _ Hd)).
  rewrite (bind_Ok _ _ _ _ _ (average_loss_names_bound _ _ _ _ H7 H8 H9)).
  destruct (optimizer_step_spec stepsize data w b s l gw gb Hall Hl Hgw Hgb)
    as (w' & b' & cst & s' & Hstep & Hw' & Hb' & Hcst & Hext & Hwn & Hbn).
  rewrite (bind_Ok _ _ _ _ _ Hstep).
  exists w', b'. eexists. split; [reflexivity|].
  pose proof (extends_store _ _ Hext) as Hst.
  destruct (allocated_store_extends _ _ _ _ _ Hst Hall) as (_ & _ & Hd').
  destruct Hext as (_ & _ & _ & _ & Eg & Eo).
  unfold names_bound, allocated.
  simpl. rewrite Eo, Eg. repeat split; try assumption; try (apply Hst); try lia.
  - rewrite lookup_insert_ne by discriminate. apply lookup_insert_eq.
  - apply lookup_insert_eq.
  - now rewrite !value_of_with_globals, Hcst.
  - now rewrite !lookup_insert_ne by discriminate.
  - rewrite lookup_insert_ne by discriminate. apply lookup_insert_eq.
  - apply lookup_insert_eq.
  - now rewrite !lookup_insert_ne by discriminate.
  - now do 2 apply is_Some_insert.
  - now do 2 apply is_Some_insert.
  - now do 2 apply is_Some_insert.
  - now do 2 apply is_Some_insert.
  - now do 2 apply is_Some_insert.
  - now do 2 apply is_Some_insert.
Qed.

(** C2: the hand-coded update is the optimizer's.  From one session, with
    the library returning the loss and the gradients, a pass through the
    body of the hand-coded loop and a pass through the body of the optimizer
    loop, which calls [qml.GradientDescentOptimizer(0.05).step_and_cost] on
    the same [average_loss], leave [w] bound to tensors of equal value and
    [b] bound to tensors of equal value. *)
Theorem hand_coded_pass_is_optimizer_pass s w b data l gw gb l' :
  globals s !! "opt" = Some (OOptimizer 0.05) ->
  names_bound s w b data ->
  allocated s w b data ->
  average_loss_val (matrices s w) (scalars s b) (data_values s data) = Ok l ->
  qml_grad_argnum0 (objective (data_values s data)) (matrices s w) (scalars s b)
  = Ok gw ->
  qml_grad_argnum1 (objective (data_values s data)) (matrices s w) (scalars s b)
  = Ok gb ->
  average_loss_val (mat_sub (matrices s w) (mat_scale 0.05 gw))
                   (scalars s b - 0.05 * gb) (data_values s data) = Ok l' ->
  exists w1 b1 s1 w2 b2 s2,
    cell_40_body s = (Ok tt, s1) /\
    cell_42_body s = (Ok tt, s2) /\
    globals s1 !! "w" = Some (OMatrix w1) /\
    globals s2 !! "w" = Some (OMatrix w2) /\
    matrices s2 w2 = matrices s1 w1 /\
    globals s1 !! "b" = Some (OScalar b1) /\
    globals s2 !! "b" = Some (OScalar b2) /\
    scalars s2 b2 = scalars s1 b1.
Proof.
  intros Hopt Hnames Hall Hl Hgw Hgb Hl'.
  destruct (cell_40_body_spec s w b data l gw gb l' Hnames Hall Hl Hgw Hgb Hl')
    as (w1 & b1 & s1 & Hrun1 & Hw1 & Hwv1 & Hb1 & Hbv1 & _).
  destruct (cell_42_body_spec s 0.05 w b data l gw gb Hopt Hnames Hall Hl Hgw Hgb)
    as (w2 & b2 & s2 & Hrun2 & Hw2 & Hwv2 & Hb2 & Hbv2 & _).
  exists w1, b1, s1, w2, b2, s2.
  repeat split; try assumption; congruence.
Qed.

(** ** Exceptions *)

Lemma bind_fst_Raise {A B} (m : M A) (k : A -> M B) s e :
  fst (m s) = Raise e -> fst (bind m k s) = Raise e.
Proof.
  intros H. unfold bind. destruct (m s) as [[a|e'] s']; simpl in H.
  - discriminate.
  - injection H as ->. reflexivity.
Qed.

Lemma bind_assoc {A B C} (m : M A) (k : A -> M B) (k' : B -> M C) s :
  bind (bind m k) k' s = bind m (fun a => bind (k a) k') s.
Proof. unfold bind. destruct (m s) as [[a|e] s']; reflexivity. Qed.

Lemma bind_ext {A B} (m : M A) (k k' : A -> M B) s :
  (forall a s', k a s' = k' a s') -> bind m k s = bind m k' s.
Proof.
  intros H. unfold bind. destruct (m s) as [[a|e] s']; [apply H|reflexivity].
Qed.

Lemma for_each_app {A B} (xs ys : list A) (body : B -> A -> M B) : forall acc s,
  for_each (xs ++ ys) acc body s
  = bind (for_each xs acc body) (fun acc' => for_each ys acc' body) s.
Proof.
  induction xs as [|x xs IH]; intros acc s; simpl.
  - reflexivity.
  - rewrite bind_assoc. apply bind_ext. intros acc' s'. apply IH.
Qed.

Lemma for_range_raises body : forall n k s sk e,
  (k < n)%nat ->
  for_range k body s = (Ok tt, sk) ->
  fst (body sk) = Raise e ->
  fst (for_range n body s) = Raise e.
Proof.
  induction n as [|n IH]; intros k s sk e Hk Hrun Hbody; [lia|].
  destruct k as [|k]; simpl in *.
  - injection Hrun as <-. now apply bind_fst_Raise.
  - unfold bind in *. destruct (body s) as [[[]|e'] s']; [|discriminate].
    apply (IH k s' sk e); [lia|assumption|assumption].
Qed.

(** ** The cells and the session *)

(** [U] applied to |00>: the first column of [U]. *)
Lemma U_ket00 :
  map (fun row => dot row ket00) U = [(0, 0); (s_, 0); (s_, 0); (0, 0)].
Proof.
  unfold U, dot, ket00, cadd, cscale. simpl.
  repeat (f_equal; try ring).
Qed.

(** C6, as the code has it: the cells run one after the other in one session
    and a cell shows what the session left by the earlier cells makes it
    show.  [dev.state] raises [NameError] without a device and otherwise
    shows the state the latest circuit left: |00> after the empty circuit,
    [U]|00> after the circuit applying [U].  The optimizer cell raises
    [NameError] when [qml] or [b] is unbound, and with its names bound a pass
    of its loop prints the loss at the session's [w] and [b] and rebinds them
    to the updated tensors.  The import cell shows the same in every
    session. *)
Theorem cells_read_the_session :
  (forall s,
     globals s !! "dev" = None ->
     run_cell CellDevState s = (Raise (NameError "dev"), s)) /\
  (forall s o,
     globals s !! "dev" = Some o ->
     run_cell CellDevState s = (Ok (DState (dev_state s)), s)) /\
  shown [Cell2; Cell5; Cell10] CellDevState = Ok (DState ket00) /\
  shown [Cell2; Cell5; Cell10; Cell14] CellDevState
  = Ok (DState [(0, 0); (s_, 0); (s_, 0); (0, 0)]) /\
  (forall s,
     globals s !! "qml" = None ->
     run_cell Cell42 s = (Raise (NameError "qml"), s)) /\
  (forall s o w,
     globals s !! "qml" = Some o ->
     globals s !! "w" = Some (OMatrix w) ->
     globals s !! "b" = None ->
     fst (run_cell Cell42 s) = Raise (NameError "b")) /\
  (forall s w b data l gw gb,
     globals s !! "opt" = Some (OOptimizer 0.05) ->
     names_bound s w b data ->
     allocated s w b data ->
     average_loss_val (matrices s w) (scalars s b) (data_values s data) = Ok l ->
     qml_grad_argnum0 (objective (data_values s data)) (matrices s w)
                      (scalars s b) = Ok gw ->
     qml_grad_argnum1 (objective (data_values s data)) (matrices s w)
                      (scalars s b) = Ok gb ->
     exists w' b' s',
       cell_42_body s = (Ok tt, s') /\
       stdout s' = stdout s ++ [num_R l] /\
       globals s' !! "w" = Some (OMatrix w') /\
       matrices s' w' = mat_sub (matrices s w) (mat_scale 0.05 gw) /\
       globals s' !! "b" = Some (OScalar b') /\
       scalars s' b' = scalars s b - 0.05 * gb) /\
  independent Cell2.
Proof.
  repeat apply conj.
  - intros s H. simpl. unfold cell_dev_state.
    now rewrite (bind_Raise _ _ _ _ _ (global_None _ _ H)).
  - intros s o H. simpl. unfold cell_dev_state.
    now rewrite (bind_Ok _ _ _ _ _ (global_Some _ _ _ H)).
  - reflexivity.
  - rewrite <- U_ket00. reflexivity.
  - intros s H. simpl. unfold cell_42.
    unfold bind at 1, stdout_length at 1; cbv beta iota.
    now rewrite (bind_Raise _ _ _ _ _ (global_None _ _ H)).
  - intros s o w Hq Hw Hb. simpl. unfold cell_42.
    unfold bind at 1, stdout_length at 1; cbv beta iota.
    rewrite (bind_Ok _ _ _ _ _ (global_Some _ _ _ Hq)).
    unfold bind at 1, assign at 1; cbv beta iota.
    apply bind_fst_Raise. simpl for_range. apply bind_fst_Raise.
    unfold cell_42_body.
    erewrite bind_Ok
      by (apply global_optimizer_Some; simpl; apply lookup_insert_eq).
    erewrite bind_Ok
      by (apply global_matrix_Some; simpl;
          rewrite lookup_insert_ne by discriminate; exact Hw).
    apply bind_fst_Raise. unfold global_scalar. apply bind_fst_Raise.
    unfold global. simpl. rewrite lookup_insert_ne by discriminate.
    now rewrite Hb.
  - intros s w b data l gw gb Hopt Hnames Hall Hl Hgw Hgb.
    destruct (cell_42_body_spec s 0.05 w b data l gw gb Hopt Hnames Hall Hl Hgw Hgb)
      as (w' & b' & s' & Hrun & Hw & Hwv & Hb & Hbv & _ & Ho & _).
    exists w', b', s'. repeat split; assumption.
  - intros e1 e2. reflexivity.
Qed.

(** * Further properties *)

(** ** The average loss in closed form *)

Lemma sum_list_app l1 l2 : sum_list (l1 ++ l2) = sum_list l1 + sum_list l2.
Proof. unfold sum_list. induction l1; simpl; lra. Qed.





Lemma for_each_accumulate_val_sum wv bv dv : forall cv,
  Forall (evaluates wv) dv ->
  exists cv', for_each_val dv cv (accumulate_val wv bv) = Ok cv' /\
    num_R cv' = num_R cv + sum_list (map (squared_residual wv bv) dv).
Proof.
  induction dv as [|xy dv IH]; intros cv Hd; simpl.
  - eexists; split; [reflexivity|]. unfold sum_list. simpl. lra.
  - inversion Hd as [|? ? [q Hq] Hd']; subst.
    unfold accumulate_val at 1, squared_residual at 1, model_with_bias_val.
    rewrite Hq. simpl.
    destruct (IH (iadd_val cv (loss_val (q + bv) (snd xy))) Hd') as (cv' & -> & Hv).
    eexists; split; [reflexivity|]. rewrite Hv. unfold sum_list. simpl. lra.
Qed.

(** On non-empty data on which the model evaluates, the value is a tensor:
    the sum of the squared residuals over the number of samples. *)
Lemma average_loss_val_mean wv bv dv :
  dv <> [] -> Forall (evaluates wv) dv ->
  average_loss_val wv bv dv
  = Ok (NTensor (sum_list (map (squared_residual wv bv) dv) / INR (length dv))).
Proof.
  intros Hne Hd. unfold average_loss_val.
  destruct (for_each_accumulate_val_sum wv bv dv (NInt 0) Hd) as (cv & Hcv & Hv).
  rewrite Hcv. simpl.
  destruct (for_each_accumulate_val_nonneg wv bv dv (NInt 0) cv) as [_ Hten].
  - simpl. lra.
  - exact Hcv.
  - destruct (Hten Hne) as [r ->]. simpl in *. do 3 f_equal. lra.
Qed.

Lemma squared_residuals_zip wv bv dv qs :
  Forall2 (fun xy q => quantum_model_val (fst xy) wv = Ok q) dv qs ->
  map (squared_residual wv bv) dv
  = zip_with loss_val (map (fun q => q + bv) qs) (map snd dv).
Proof.
  induction 1 as [|xy q dv qs Hq _ IH]; simpl; [reflexivity|].
  rewrite IH. f_equal. unfold squared_residual, model_with_bias_val.
  now rewrite Hq.
Qed.

Lemma Forall2_evaluates wv dv qs :
  Forall2 (fun xy q => quantum_model_val (fst xy) wv = Ok q) dv qs ->
  Forall (evaluates wv) dv.
Proof.
  induction 1 as [|xy q dv qs Hq _ IH]; constructor; [now exists q|exact IH].
Qed.

Lemma Forall2_data_values (P : vector * R -> R -> Prop) s data qs :
  Forall2 (fun xy q => P (vectors s (fst xy), scalars s (snd xy)) q) data qs ->
  Forall2 P (data_values s data) qs.
Proof. unfold data_values. induction 1; simpl; constructor; assumption. Qed.

Lemma data_values_nonempty s data : data <> [] -> data_values s data <> [].
Proof. destruct data; [congruence|discriminate]. Qed.

Lemma data_values_length s data : length (data_values s data) = length data.
Proof. apply length_map. Qed.

Lemma data_values_targets s data :
  map snd (data_values s data) = map (fun xy => scalars s (snd xy)) data.
Proof. unfold data_values. rewrite map_map. reflexivity. Qed.

(** X1: on non-empty data, when the library evaluates the model on every
    sample, with outputs [qs], [average_loss(w, b, data)] returns the mean of
    the squared residuals of the predictions [q + b] against the targets. *)
Theorem average_loss_is_mean_squared_error w b data s qs :
  data <> [] ->
  allocated s w b data ->
  Forall2 (fun xy q =>
             quantum_model_val (vectors s (fst xy)) (matrices s w) = Ok q)
          data qs ->
  exists v s',
    average_loss w b data s = (Ok v, s') /\
    value_of s' v
    = mean_squared_error (map (fun q => q + scalars s b) qs)
                         (map (fun xy => scalars s (snd xy)) data).
Proof.
  intros Hne Hall Hq.
  pose proof (Forall2_data_values
                (fun xy q => quantum_model_val (fst xy) (matrices s w) = Ok q)
                s data qs Hq) as Hq'.
  destruct (average_loss_spec w b data s Hall) as (s' & _ & Hs).
  rewrite (average_loss_val_mean _ _ _ (data_values_nonempty s data Hne)
             (Forall2_evaluates _ _ _ Hq')) in Hs.
  destruct Hs as (v & Hv & Hval & _).
  exists v, s'. split; [exact Hv|]. rewrite Hval. simpl.
  unfold mean_squared_error.
  rewrite (squared_residuals_zip _ _ _ _ Hq'), data_values_targets,
    data_values_length, length_map.
  reflexivity.
Qed.

(** ** Which exceptions the average loss raises *)

Lemma for_each_accumulate_val_raises wv bv dv e : forall cv,
  for_each_val dv cv (accumulate_val wv bv) = Raise e <->
  exists dv1 xy dv2,
    dv = dv1 ++ xy :: dv2 /\ Forall (evaluates wv) dv1 /\
    quantum_model_val (fst xy) wv = Raise e.
Proof.
  induction dv as [|xy dv IH]; intros cv; simpl.
  - split; [discriminate|]. intros (dv1 & xy & dv2 & H & _).
    destruct dv1; discriminate.
  - unfold accumulate_val at 1, model_with_bias_val.
    destruct (quantum_model_val (fst xy) wv) as [q|e'] eqn:Hq; simpl.
    + rewrite IH. split.
      * intros (dv1 & xy' & dv2 & -> & Hd & He).
        exists (xy :: dv1), xy', dv2. repeat split; try assumption.
        constructor; [now exists q|assumption].
      * intros (dv1 & xy' & dv2 & H & Hd & He).
        destruct dv1 as [|xy1 dv1]; simpl in H; injection H as -> ->.
        -- congruence.
        -- inversion Hd; subst. now exists dv1, xy', dv2.
    + split.
      * intros [= ->]. exists [], xy, dv. repeat split; [constructor|assumption].
      * intros (dv1 & xy' & dv2 & H & Hd & He).
        destruct dv1 as [|xy1 dv1]; simpl in H; injection H as -> ->.
        -- congruence.
        -- inversion Hd as [|? ? [q Hq'] ?]; subst. congruence.
Qed.

Lemma average_loss_val_raises wv bv dv e :
  dv <> [] ->
  average_loss_val wv bv dv = Raise e <->
  exists dv1 xy dv2,
    dv = dv1 ++ xy :: dv2 /\ Forall (evaluates wv) dv1 /\
    quantum_model_val (fst xy) wv = Raise e.
Proof.
  intros Hne. rewrite <- (for_each_accumulate_val_raises wv bv dv e (NInt 0)).
  unfold average_loss_val.
  destruct (for_each_val dv (NInt 0) (accumulate_val wv bv)) as [cv|e'] eqn:E;
    simpl; [|reflexivity].
  destruct (for_each_accumulate_val_nonneg wv bv dv (NInt 0) cv) as [_ Hten].
  - simpl. lra.
  - exact E.
  - destruct (Hten Hne) as [r ->]. simpl. split; discriminate.
Qed.

Lemma data_values_app s d1 d2 :
  data_values s (d1 ++ d2) = data_values s d1 ++ data_values s d2.
Proof. apply map_app. Qed.

Lemma data_values_split s data dv1 xyv dv2 :
  data_values s data = dv1 ++ xyv :: dv2 ->
  exists d1 xy d2,
    data = d1 ++ xy :: d2 /\ data_values s d1 = dv1 /\
    (vectors s (fst xy), scalars s (snd xy)) = xyv /\ data_values s d2 = dv2.
Proof.
  revert dv1. induction data as [|xy data IH]; intros dv1 H.
  - destruct dv1; discriminate.
  - destruct dv1 as [|xy1 dv1]; simpl in H; injection H as H1 H2.
    + exists [], xy, data. repeat split; assumption.
    + destruct (IH dv1 H2) as (d1 & xy' & d2 & -> & E1 & E2 & E3).
      exists (xy :: d1), xy', d2. simpl. rewrite E1, H1. repeat split; assumption.
Qed.

Lemma Forall_of_data_values (P : vector * R -> Prop) s data :
  Forall P (data_values s data) ->
  Forall (fun xy => P (vectors s (fst xy), scalars s (snd xy))) data.
Proof.
  unfold data_values. induction data; simpl; intros H; [constructor|].
  inversion H; subst. constructor; auto.
Qed.

(** X2: on non-empty data, [average_loss(w, b, data)] raises exactly when the
    library raises on a sample, and then it raises what the library raised on
    the first such sample; the division by [len(data)] never raises. *)
Theorem average_loss_raises_what_the_first_failing_sample_raises w b data s e :
  data <> [] ->
  allocated s w b data ->
  fst (average_loss w b data s) = Raise e <->
  exists data1 xy data2,
    data = data1 ++ xy :: data2 /\
    Forall (fun xy' => exists q,
              quantum_model_val (vectors s (fst xy')) (matrices s w) = Ok q)
           data1 /\
    quantum_model_val (vectors s (fst xy)) (matrices s w) = Raise e.
Proof.
  intros Hne Hall.
  destruct (average_loss_spec w b data s Hall) as (s' & _ & Hs).
  pose proof (average_loss_val_raises (matrices s w) (scalars s b)
                (data_values s data) e (data_values_nonempty s data Hne)) as Hv.
  split.
  - intros Hr.
    destruct (average_loss_val _ _ _) as [cv|e'].
    + destruct Hs as (v & Hrun & _). rewrite Hrun in Hr. discriminate.
    + rewrite Hs in Hr. simpl in Hr. injection Hr as ->.
      destruct (proj1 Hv eq_refl) as (dv1 & xyv & dv2 & Hsplit & Hd & He).
      destruct (data_values_split _ _ _ _ _ Hsplit)
        as (d1 & xy & d2 & -> & <- & <- & _).
      exists d1, xy, d2. split; [reflexivity|]. split; [|exact He].
      apply (Forall_of_data_values (evaluates (matrices s w))). exact Hd.
  - intros (d1 & xy & d2 & -> & Hd & He).
    assert (Hraise : average_loss_val (matrices s w) (scalars s b)
                       (data_values s (d1 ++ xy :: d2)) = Raise e).
    { apply Hv. exists (data_values s d1), (vectors s (fst xy), scalars s (snd xy)),
        (data_values s d2).
      split; [apply data_values_app|].
      split; [|exact He].
      apply (Forall_data_values (evaluates (matrices s w))). exact Hd. }
    rewrite Hraise in Hs. now rewrite Hs.
Qed.

(** ** The order of the samples *)



(** ** A perfect fit *)





(** ** The training loops are gradient descent *)

Lemma objective_Ok dv wv bv r :
  objective dv wv bv = Ok r ->
  exists l, average_loss_val wv bv dv = Ok l /\ r = num_R l.
Proof.
  unfold objective. destruct (average_loss_val wv bv dv) as [l|e]; simpl.
  - intros [= <-]. now exists l.
  - discriminate.
Qed.

Lemma descent_step_Ok stepsize dv wb wb' :
  descent_step stepsize dv wb = Ok wb' ->
  exists l gw gb,
    average_loss_val (fst wb) (snd wb) dv = Ok l /\
    qml_grad_argnum0 (objective dv) (fst wb) (snd wb) = Ok gw /\
    qml_grad_argnum1 (objective dv) (fst wb) (snd wb) = Ok gb /\
    wb' = (mat_sub (fst wb) (mat_scale stepsize gw), snd wb - stepsize * gb).
Proof.
  unfold descent_step. intros H.
  destruct (objective dv (fst wb) (snd wb)) as [r|e] eqn:Hr; [|discriminate].
  destruct (objective_Ok _ _ _ _ Hr) as (l & Hl & _). cbn [result_bind] in H.
  destruct (qml_grad_argnum0 _ _ _) as [gw|e]; [|discriminate].
  cbn [result_bind] in H.
  destruct (qml_grad_argnum1 _ _ _) as [gb|e]; [|discriminate].
  cbn [result_bind] in H. injection H as <-. now exists l, gw, gb.
Qed.

Lemma hand_coded_descent_S n dv wb wb' ls :
  hand_coded_descent (S n) dv wb = Ok (wb', ls) ->
  exists wb1 l1 ls1,
    descent_step 0.05 dv wb = Ok wb1 /\
    objective dv (fst wb1) (snd wb1) = Ok l1 /\
    hand_coded_descent n dv wb1 = Ok (wb', ls1) /\
    ls = l1 :: ls1.
Proof.
  cbn [hand_coded_descent]. intros H.
  destruct (descent_step 0.05 dv wb) as [wb1|e] eqn:E1; [|discriminate].
  cbn [result_bind] in H.
  destruct (objective dv (fst wb1) (snd wb1)) as [l1|e] eqn:E2; [|discriminate].
  cbn [result_bind] in H.
  destruct (hand_coded_descent n dv wb1) as [[wb2 ls1]|e] eqn:E3; [|discriminate].
  cbn [result_bind fst snd] in H. injection H as <- <-.
  now exists wb1, l1, ls1.
Qed.

Lemma optimizer_descent_S n stepsize dv wb wb' ls :
  optimizer_descent (S n) stepsize dv wb = Ok (wb', ls) ->
  exists l0 wb1 ls1,
    objective dv (fst wb) (snd wb) = Ok l0 /\
    descent_step stepsize dv wb = Ok wb1 /\
    optimizer_descent n stepsize dv wb1 = Ok (wb', ls1) /\
    ls = l0 :: ls1.
Proof.
  cbn [optimizer_descent]. intros H.
  destruct (objective dv (fst wb) (snd wb)) as [l0|e] eqn:E1; [|discriminate].
  cbn [result_bind] in H.
  destruct (descent_step stepsize dv wb) as [wb1|e] eqn:E2; [|discriminate].
  cbn [result_bind] in H.
  destruct (optimizer_descent n stepsize dv wb1) as [[wb2 ls1]|e] eqn:E3;
    [|discriminate].
  cbn [result_bind fst snd] in H. injection H as <- <-.
  now exists l0, wb1, ls1.
Qed.

(** [n] passes through the body of the loop of cell 40. *)
Lemma for_range_cell_40_body n : forall s w b data wb' ls,
  names_bound s w b data ->
  allocated s w b data ->
  hand_coded_descent n (data_values s data) (matrices s w, scalars s b)
  = Ok (wb', ls) ->
  exists w' b' s',
    for_range n cell_40_body s = (Ok tt, s') /\
    names_bound s' w' b' data /\
    allocated s' w' b' data /\
    (matrices s' w', scalars s' b') = wb' /\
    data_values s' data = data_values s data /\
    stdout s' = stdout s ++ ls.
Proof.
  induction n as [|n IH]; intros s w b data wb' ls Hnames Hall H.
  - simpl in H. injection H as <- <-.
    exists w, b, s. rewrite app_nil_r.
    split; [reflexivity|]. split; [exact Hnames|]. split; [exact Hall|].
    repeat split.
  - destruct (hand_coded_descent_S _ _ _ _ _ H)
      as (wb1 & l1 & ls1 & Hstep & Hl1 & Hrest & ->).
    destruct (descent_step_Ok _ _ _ _ Hstep) as (l & gw & gb & Hl & Hgw & Hgb & ->).
    simpl in Hl, Hgw, Hgb, Hl1, Hrest.
    destruct (objective_Ok _ _ _ _ Hl1) as (l' & Hl' & ->).
    destruct (cell_40_body_spec s w b data l gw gb l' Hnames Hall Hl Hgw Hgb Hl')
      as (w1 & b1 & s1 & Hrun & _ & Hwv & _ & Hbv & Hst & _ & _ & Ho & Hnames1
          & Hall1).
    destruct (arguments_store_extends _ _ _ _ _ Hst Hall) as (_ & _ & Ed).
    rewrite <- Hwv, <- Hbv, <- Ed in Hrest.
    destruct (IH s1 w1 b1 data wb' ls1 Hnames1 Hall1 Hrest)
      as (w' & b' & s' & Hrun' & Hnames' & Hall' & Hv' & Ed' & Ho').
    exists w', b', s'. simpl for_range.
    rewrite (bind_Ok _ _ _ _ _ Hrun).
    split; [exact Hrun'|]. split; [exact Hnames'|]. split; [exact Hall'|].
    split; [exact Hv'|]. split; [congruence|].
    rewrite Ho', Ho, <- app_assoc. reflexivity.
Qed.

(** [n] passes through the body of the loop of cell 42. *)
Lemma for_range_cell_42_body n : forall s stepsize w b data wb' ls,
  globals s !! "opt" = Some (OOptimizer stepsize) ->
  names_bound s w b data ->
  allocated s w b data ->
  optimizer_descent n stepsize (data_values s data) (matrices s w, scalars s b)
  = Ok (wb', ls) ->
  exists w' b' s',
    for_range n cell_42_body s = (Ok tt, s') /\
    names_bound s' w' b' data /\
    allocated s' w' b' data /\
    (matrices s' w', scalars s' b') = wb' /\
    data_values s' data = data_values s data /\
    stdout s' = stdout s ++ ls.
Proof.
  induction n as [|n IH]; intros s stepsize w b data wb' ls Hopt Hnames Hall H.
  - simpl in H. injection H as <- <-.
    exists w, b, s. rewrite app_nil_r.
    split; [reflexivity|]. split; [exact Hnames|]. split; [exact Hall|].
    repeat split.
  - destruct (optimizer_descent_S _ _ _ _ _ _ H)
      as (l0 & wb1 & ls1 & Hl0 & Hstep & Hrest & ->).
    destruct (descent_step_Ok _ _ _ _ Hstep) as (l & gw & gb & Hl & Hgw & Hgb & ->).
    simpl in Hl, Hgw, Hgb, Hl0, Hrest.
    destruct (objective_Ok _ _ _ _ Hl0) as (l'' & Hl'' & ->).
    assert (l'' = l) by congruence. subst l''.
    destruct (cell_42_body_spec s stepsize w b data l gw gb Hopt Hnames Hall Hl
                Hgw Hgb)
      as (w1 & b1 & s1 & Hrun & _ & Hwv & _ & Hbv & Hst & Ho & Hopt1 & Hnames1
          & Hall1).
    destruct (arguments_store_extends _ _ _ _ _ Hst Hall) as (_ & _ & Ed).
    rewrite <- Hwv, <- Hbv, <- Ed in Hrest.
    destruct (IH s1 stepsize w1 b1 data wb' ls1 Hopt1 Hnames1 Hall1 Hrest)
      as (w' & b' & s' & Hrun' & Hnames' & Hall' & Hv' & Ed' & Ho').
    exists w', b', s'. simpl for_range.
    rewrite (bind_Ok _ _ _ _ _ Hrun).
    split; [exact Hrun'|]. split; [exact Hnames'|]. split; [exact Hall'|].
    split; [exact Hv'|]. split; [congruence|].
    rewrite Ho', Ho, <- app_assoc. reflexivity.
Qed.

(** X5: the hand-coded loop is gradient descent.  From a session in which
    the names of cell 40 are bound, when [n] steps of gradient descent on the
    objective with step size 0.05 go through in the library, [n] passes of
    the loop complete, leave [w] and [b] bound to tensors holding the last
    pair, and print the losses at the pairs after each step, in order. *)
Theorem hand_coded_loop_is_gradient_descent n s w b data wv' bv' ls :
  names_bound s w b data ->
  allocated s w b data ->
  hand_coded_descent n (data_values s data) (matrices s w, scalars s b)
  = Ok ((wv', bv'), ls) ->
  exists w' b' s',
    for_range n cell_40_body s = (Ok tt, s') /\
    globals s' !! "w" = Some (OMatrix w') /\ matrices s' w' = wv' /\
    globals s' !! "b" = Some (OScalar b') /\ scalars s' b' = bv' /\
    stdout s' = stdout s ++ ls /\ length ls = n.
Proof.
  intros Hnames Hall H.
  destruct (for_range_cell_40_body n s w b data _ _ Hnames Hall H)
    as (w' & b' & s' & Hrun & (Hw & Hb & _) & _ & Hv & _ & Ho).
  injection Hv as Hwv Hbv.
  exists w', b', s'. repeat split; try assumption.
  clear -H. revert H. generalize (matrices s w, scalars s b).
  revert ls. induction n as [|n IH]; intros ls wb H.
  - simpl in H. now injection H as _ <-.
  - destruct (hand_coded_descent_S _ _ _ _ _ H) as (wb1 & l1 & ls1 & _ & _ & Hr & ->).
    simpl. f_equal. eapply IH. exact Hr.
Qed.

(** X6: the optimizer loop is gradient descent.  With [opt] bound to an
    optimizer of step size [stepsize], when [n] steps go through in the
    library, [n] passes of the loop of cell 42 complete, leave [w] and [b]
    bound to tensors holding the last pair, and print the costs at the pairs
    before each step, in order. *)
Theorem optimizer_loop_is_gradient_descent n s stepsize w b data wv' bv' ls :
  globals s !! "opt" = Some (OOptimizer stepsize) ->
  names_bound s w b data ->
  allocated s w b data ->
  optimizer_descent n stepsize (data_values s data) (matrices s w, scalars s b)
  = Ok ((wv', bv'), ls) ->
  exists w' b' s',
    for_range n cell_42_body s = (Ok tt, s') /\
    globals s' !! "w" = Some (OMatrix w') /\ matrices s' w' = wv' /\
    globals s' !! "b" = Some (OScalar b') /\ scalars s' b' = bv' /\
    stdout s' = stdout s ++ ls /\ length ls = n.
Proof.
  intros Hopt Hnames Hall H.
  destruct (for_range_cell_42_body n s stepsize w b data _ _ Hopt Hnames Hall H)
    as (w' & b' & s' & Hrun & (Hw & Hb & _) & _ & Hv & _ & Ho).
  injection Hv as Hwv Hbv.
  exists w', b', s'. repeat split; try assumption.
  clear -H. revert H. generalize (matrices s w, scalars s b).
  revert ls. induction n as [|n IH]; intros ls wb H.
  - simpl in H. now injection H as _ <-.
  - destruct (optimizer_descent_S _ _ _ _ _ _ H)
      as (l0 & wb1 & ls1 & _ & _ & Hr & ->).
    simpl. f_equal. eapply IH. exact Hr.
Qed.

(** *** The two loops against each other *)

Lemma last_cons_default {A} (l : list A) : forall a d,
  List.last (a :: l) d = List.last l a.
Proof.
  induction l as [|a' l IH]; intros a d; [reflexivity|].
  change (List.last (a :: a' :: l) d) with (List.last (a' :: l) d).
  rewrite !IH. reflexivity.
Qed.

(** The optimizer loop reaches the pair the hand-coded loop reaches; it
    prints the cost at the starting pair and then what the hand-coded loop
    prints, short of its last line. *)
Lemma optimizer_descent_of_hand_coded n dv : forall wb wb' ls l0,
  hand_coded_descent n dv wb = Ok (wb', ls) ->
  objective dv (fst wb) (snd wb) = Ok l0 ->
  optimizer_descent n 0.05 dv wb = Ok (wb', List.removelast (l0 :: ls)).
Proof.
  induction n as [|n IH]; intros wb wb' ls l0 H Hl0.
  - simpl in H. injection H as <- <-. reflexivity.
  - destruct (hand_coded_descent_S _ _ _ _ _ H)
      as (wb1 & l1 & ls1 & Hstep & Hl1 & Hrest & ->).
    simpl optimizer_descent. rewrite Hl0, Hstep. simpl.
    rewrite (IH wb1 wb' ls1 l1 Hrest Hl1). reflexivity.
Qed.

(** The last loss the hand-coded loop prints is the loss at the pair it
    ends with. *)
Lemma hand_coded_descent_last n dv : forall wb wb' ls l0,
  hand_coded_descent n dv wb = Ok (wb', ls) ->
  objective dv (fst wb) (snd wb) = Ok l0 ->
  objective dv (fst wb') (snd wb') = Ok (List.last ls l0).
Proof.
  induction n as [|n IH]; intros wb wb' ls l0 H Hl0.
  - simpl in H. injection H as <- <-. exact Hl0.
  - destruct (hand_coded_descent_S _ _ _ _ _ H)
      as (wb1 & l1 & ls1 & Hstep & Hl1 & Hrest & ->).
    rewrite last_cons_default. exact (IH wb1 wb' ls1 l1 Hrest Hl1).
Qed.

Lemma hand_coded_descent_forward n dv wb wb' ls :
  hand_coded_descent (S n) dv wb = Ok (wb', ls) ->
  exists l0, objective dv (fst wb) (snd wb) = Ok l0.
Proof.
  intros H.
  destruct (hand_coded_descent_S _ _ _ _ _ H) as (wb1 & _ & _ & Hstep & _).
  unfold descent_step in Hstep.
  destruct (objective dv (fst wb) (snd wb)) as [l0|e]; [now exists l0|discriminate].
Qed.

(** X7: the two training loops compute the same pairs.  From one session,
    with [opt] of step size 0.05, when [n + 1] passes of the hand-coded loop
    go through, so do [n + 1] passes of the optimizer loop, and they end with
    [w] and [b] bound to tensors of equal values; the optimizer loop prints
    the cost at the starting pair followed by what the hand-coded loop
    prints, short of its last line. *)
Theorem training_loops_reach_the_same_pair n s w b data wb' ls :
  globals s !! "opt" = Some (OOptimizer 0.05) ->
  names_bound s w b data ->
  allocated s w b data ->
  hand_coded_descent (S n) (data_values s data) (matrices s w, scalars s b)
  = Ok (wb', ls) ->
  exists w1 b1 s1 w2 b2 s2 l0,
    for_range (S n) cell_40_body s = (Ok tt, s1) /\
    for_range (S n) cell_42_body s = (Ok tt, s2) /\
    globals s1 !! "w" = Some (OMatrix w1) /\
    globals s2 !! "w" = Some (OMatrix w2) /\
    matrices s2 w2 = matrices s1 w1 /\
    globals s1 !! "b" = Some (OScalar b1) /\
    globals s2 !! "b" = Some (OScalar b2) /\
    scalars s2 b2 = scalars s1 b1 /\
    objective (data_values s data) (matrices s w) (scalars s b) = Ok l0 /\
    stdout s1 = stdout s ++ ls /\
    stdout s2 = stdout s ++ List.removelast (l0 :: ls).
Proof.
  intros Hopt Hnames Hall H.
  destruct (hand_coded_descent_forward _ _ _ _ _ H) as [l0 Hl0].
  pose proof (optimizer_descent_of_hand_coded _ _ _ _ _ _ H Hl0) as H'.
  destruct (for_range_cell_40_body _ s w b data _ _ Hnames Hall H)
    as (w1 & b1 & s1 & Hrun1 & (Hw1 & Hb1 & _) & _ & Hv1 & _ & Ho1).
  destruct (for_range_cell_42_body _ s 0.05 w b data _ _ Hopt Hnames Hall H')
    as (w2 & b2 & s2 & Hrun2 & (Hw2 & Hb2 & _) & _ & Hv2 & _ & Ho2).
  exists w1, b1, s1, w2, b2, s2, l0.
  rewrite <- Hv1 in Hv2. injection Hv2 as Hwv Hbv.
  repeat split; assumption.
Qed.

(** ** What the functions and the statements leave as it was *)

Section Preserves.

Variable rel : state -> state -> Prop.
Hypothesis rel_refl : forall s, rel s s.
Hypothesis rel_trans : forall s1 s2 s3, rel s1 s2 -> rel s2 s3 -> rel s1 s3.

Lemma preserves_ret {A} (a : A) : preserves rel (ret a).
Proof. intros s. apply rel_refl. Qed.

Lemma preserves_raise {A} e : preserves rel (@raise A e).
Proof. intros s. apply rel_refl. Qed.

Lemma preserves_lift {A} (r : result A) : preserves rel (lift r).
Proof. intros s. apply rel_refl. Qed.

Lemma preserves_bind {A B} (m : M A) (k : A -> M B) :
  preserves rel m -> (forall a, preserves rel (k a)) -> preserves rel (bind m k).
Proof.
  intros Hm Hk s. unfold bind. specialize (Hm s).
  destruct (m s) as [[a|e] s1]; simpl in *.
  - eapply rel_trans; [exact Hm|apply Hk].
  - exact Hm.
Qed.

Lemma preserves_for_each {A B} (xs : list A) (body : B -> A -> M B) :
  (forall acc x, preserves rel (body acc x)) ->
  forall acc, preserves rel (for_each xs acc body).
Proof.
  intros Hb. induction xs as [|x xs IH]; intros acc; simpl.
  - apply preserves_ret.
  - apply preserves_bind; [apply Hb|intros acc'; apply IH].
Qed.

Lemma preserves_for_range n (body : M unit) :
  preserves rel body -> preserves rel (for_range n body).
Proof.
  intros Hb. induction n as [|n IH]; simpl.
  - apply preserves_ret.
  - apply preserves_bind; [exact Hb|intros _; exact IH].
Qed.

End Preserves.

Lemma preserves_weaken (rel1 rel2 : state -> state -> Prop) {A} (m : M A) :
  (forall s s', rel1 s s' -> rel2 s s') ->
  preserves rel1 m -> preserves rel2 m.
Proof. intros H Hm s. apply H, Hm. Qed.

Lemma quiet_refl s : quiet s s.
Proof. split; reflexivity. Qed.

Lemma quiet_trans s1 s2 s3 : quiet s1 s2 -> quiet s2 s3 -> quiet s1 s3.
Proof. intros [G1 O1] [G2 O2]. split; congruence. Qed.

Lemma binds_only_refl names s : binds_only names s s.
Proof. intros name _. reflexivity. Qed.

Lemma binds_only_trans names s1 s2 s3 :
  binds_only names s1 s2 -> binds_only names s2 s3 -> binds_only names s1 s3.
Proof. intros H1 H2 name Hn. rewrite (H2 name Hn). now apply H1. Qed.

Lemma binds_quietly_refl names s : binds_quietly names s s.
Proof. split; [apply binds_only_refl|reflexivity]. Qed.

Lemma binds_quietly_trans names s1 s2 s3 :
  binds_quietly names s1 s2 -> binds_quietly names s2 s3 ->
  binds_quietly names s1 s3.
Proof.
  intros [G1 O1] [G2 O2]. split; [|congruence].
  eapply binds_only_trans; eassumption.
Qed.

Lemma quiet_binds_quietly names s s' : quiet s s' -> binds_quietly names s s'.
Proof. intros [G O]. split; [|exact O]. intros name _. now rewrite G. Qed.

Lemma binds_quietly_binds_only names s s' :
  binds_quietly names s s' -> binds_only names s s'.
Proof. now intros [G _]. Qed.

Lemma binds_only_incl names names' s s' :
  incl names names' -> binds_only names s s' -> binds_only names' s s'.
Proof. intros Hi H name Hn. apply H. intros Hin. apply Hn, Hi, Hin. Qed.

(** Splitting a computation at its binds; [known] is for the calls and the
    primitives. *)
Ltac preserves_steps refl trans known :=
  repeat
    (cbv beta;
     lazymatch goal with
     | |- preserves _ (bind _ _) => apply (preserves_bind _ trans); [|intros ?]
     | |- preserves _ (ret _) => apply (preserves_ret _ refl)
     | |- preserves _ (raise _) => apply (preserves_raise _ refl)
     | |- preserves _ (lift _) => apply (preserves_lift _ refl)
     | |- preserves _ (for_each _ _ _) =>
         apply (preserves_for_each _ refl trans); intros ? ?
     | |- preserves _ (for_range _ _) =>
         apply (preserves_for_range _ refl trans)
     | |- preserves _ (match ?x with _ => _ end) => destruct x
     | |- preserves _ _ => known
     end).

(** A primitive other than [assign] and [print]. *)
Ltac quiet_prim :=
  lazymatch goal with
  | |- preserves _ (global _) =>
      let s := fresh "s" in
      intros s; unfold global; destruct (globals s !! _); split; reflexivity
  | |- preserves _ (read_scalar _) => intros ?; split; reflexivity
  | |- preserves _ (read_vector _) => intros ?; split; reflexivity
  | |- preserves _ (read_matrix _) => intros ?; split; reflexivity
  | |- preserves _ (read_data _) => intros ?; split; reflexivity
  | |- preserves _ (read_pyval _) => intros ?; split; reflexivity
  | |- preserves _ (new_scalar _) => intros ?; split; reflexivity
  | |- preserves _ (new_vector _) => intros ?; split; reflexivity
  | |- preserves _ (new_matrix _) => intros ?; split; reflexivity
  | |- preserves _ (write_scalar _ _) => intros ?; split; reflexivity
  | |- preserves _ (set_dev_state _) => intros ?; split; reflexivity
  | |- preserves _ stdout_length => intros ?; split; reflexivity
  | |- preserves _ (printed_since _) => intros ?; split; reflexivity
  end.

Ltac quiet_steps known :=
  preserves_steps quiet_refl quiet_trans ltac:(first [known | quiet_prim]).

Lemma average_loss_quiet w b data : preserves quiet (average_loss w b data).
Proof.
  unfold average_loss, accumulate, model_with_bias, quantum_model, execute,
    loss, iadd, truediv, np_add, np_sub, np_square.
  quiet_steps fail.
Qed.

Lemma gradient_fn_w_quiet w b data : preserves quiet (gradient_fn_w w b data).
Proof.
  unfold gradient_fn_w. quiet_steps ltac:(apply average_loss_quiet).
Qed.

Lemma gradient_fn_b_quiet w b data : preserves quiet (gradient_fn_b w b data).
Proof.
  unfold gradient_fn_b. quiet_steps ltac:(apply average_loss_quiet).
Qed.

Lemma optimizer_step_quiet stepsize data w b :
  preserves quiet (optimizer_step stepsize data w b).
Proof.
  unfold optimizer_step, step_and_cost, np_scale_matrix, np_sub_matrix,
    np_scale, np_sub.
  quiet_steps ltac:(apply average_loss_quiet).
Qed.

Lemma new_data_quiet sv : preserves quiet (new_data sv).
Proof.
  induction sv as [|xy sv IH]; simpl; quiet_steps ltac:(exact IH).
Qed.

Lemma quantum_model_quiet x w : preserves quiet (quantum_model x w).
Proof. unfold quantum_model, execute. quiet_steps fail. Qed.

Lemma model_with_bias_quiet x w b : preserves quiet (model_with_bias x w b).
Proof.
  unfold model_with_bias, np_add. quiet_steps ltac:(apply quantum_model_quiet).
Qed.

Lemma average_loss_names_quiet w b data :
  preserves quiet (average_loss_names w b data).
Proof.
  unfold average_loss_names. destruct data as [|xy data].
  - apply (preserves_ret _ quiet_refl).
  - apply (preserves_bind _ quiet_trans); [quiet_prim|intros _].
    apply (preserves_bind _ quiet_trans); [quiet_prim|intros _].
    intros s. destruct (globals s !! "loss"); [apply quiet_refl|].
    apply (preserves_bind _ quiet_trans);
      [apply model_with_bias_quiet|intros _; apply (preserves_raise _ quiet_refl)].
Qed.

Lemma average_loss_torch_quiet w data : preserves quiet (average_loss_torch w data).
Proof.
  unfold average_loss_torch, accumulate_torch, loss, iadd, truediv, np_sub,
    np_square.
  quiet_steps ltac:(apply quantum_model_quiet).
Qed.

Lemma average_loss_torch_names_quiet w data :
  preserves quiet (average_loss_torch_names w data).
Proof.
  unfold average_loss_torch_names. destruct data as [|xy data].
  - apply (preserves_ret _ quiet_refl).
  - apply (preserves_bind _ quiet_trans); [quiet_prim|intros _].
    intros s. destruct (globals s !! "loss"); [apply quiet_refl|].
    apply (preserves_bind _ quiet_trans);
      [apply quantum_model_quiet|intros _; apply (preserves_raise _ quiet_refl)].
Qed.

(** X8: the functions of the training cells are quiet.  Whatever their
    arguments and whether they return or raise, [quantum_model],
    [average_loss], the two gradient functions and the optimizer's step
    rebind no global name and print nothing. *)
Theorem training_functions_bind_and_print_nothing :
  (forall x w, preserves quiet (quantum_model x w)) /\
  (forall w b data, preserves quiet (average_loss w b data)) /\
  (forall w b data, preserves quiet (gradient_fn_w w b data)) /\
  (forall w b data, preserves quiet (gradient_fn_b w b data)) /\
  (forall stepsize data w b,
     preserves quiet (optimizer_step stepsize data w b)).
Proof.
  split; [|split; [|split; [|split]]].
  - apply quantum_model_quiet.
  - apply average_loss_quiet.
  - apply gradient_fn_w_quiet.
  - apply gradient_fn_b_quiet.
  - apply optimizer_step_quiet.
Qed.

(** *** The statements *)

Lemma assign_binds_quietly names name o :
  In name names -> preserves (binds_quietly names) (assign name o).
Proof.
  intros Hin s. split; [|reflexivity]. intros name' Hn. simpl.
  apply lookup_insert_ne. intros ->. contradiction.
Qed.

(** A call of a quiet function, or a quiet primitive, under a relation
    that [quiet] implies. *)
Ltac quiet_call rel weaken :=
  lazymatch goal with
  | |- preserves _ (assign _ _) => fail
  | |- preserves _ (print _) => fail
  | |- preserves _ (average_loss _ _ _) =>
      apply (preserves_weaken quiet rel _ weaken), average_loss_quiet
  | |- preserves _ (gradient_fn_w _ _ _) =>
      apply (preserves_weaken quiet rel _ weaken), gradient_fn_w_quiet
  | |- preserves _ (gradient_fn_b _ _ _) =>
      apply (preserves_weaken quiet rel _ weaken), gradient_fn_b_quiet
  | |- preserves _ (optimizer_step _ _ _ _) =>
      apply (preserves_weaken quiet rel _ weaken), optimizer_step_quiet
  | |- preserves _ (new_data _) =>
      apply (preserves_weaken quiet rel _ weaken), new_data_quiet
  | |- preserves _ (average_loss_names _ _ _) =>
      apply (preserves_weaken quiet rel _ weaken), average_loss_names_quiet
  | |- preserves _ _ =>
      apply (preserves_weaken quiet rel _ weaken); quiet_prim
  end.

Ltac binds_quietly_steps names :=
  preserves_steps (binds_quietly_refl names) (binds_quietly_trans names)
    ltac:(first [ quiet_call (binds_quietly names) (quiet_binds_quietly names)
                | apply assign_binds_quietly; simpl; tauto ]).

Lemma assign_w_new_binds : preserves (binds_quietly ["w_new"]) assign_w_new.
Proof.
  unfold assign_w_new, global_matrix, global_scalar, global_data,
    np_scale_matrix, np_sub_matrix.
  binds_quietly_steps ["w_new"].
Qed.

Lemma assign_b_new_binds : preserves (binds_quietly ["b_new"]) assign_b_new.
Proof.
  unfold assign_b_new, global_matrix, global_scalar, global_data,
    np_scale, np_sub.
  binds_quietly_steps ["b_new"].
Qed.

Lemma copy_binds x y : preserves (binds_quietly [x]) (copy x y).
Proof.
  unfold copy. binds_quietly_steps [x].
Qed.

Lemma assign_binds_only names name o :
  In name names -> preserves (binds_only names) (assign name o).
Proof.
  intros Hin s. apply binds_quietly_binds_only.
  now apply assign_binds_quietly.
Qed.

Lemma print_binds_only names v : preserves (binds_only names) (print v).
Proof. intros s name _. reflexivity. Qed.

Ltac binds_only_steps names :=
  preserves_steps (binds_only_refl names) (binds_only_trans names)
    ltac:(first [ quiet_call (binds_only names)
                    (fun s s' (H : quiet s s') =>
                       binds_quietly_binds_only names s s'
                         (quiet_binds_quietly names s s' H))
                | apply assign_binds_only; simpl; tauto
                | apply print_binds_only ]).

Lemma print_average_loss_binds : preserves (binds_only []) print_average_loss.
Proof.
  unfold print_average_loss, global_matrix, global_scalar, global_data.
  binds_only_steps (@nil string).
Qed.

Lemma cell_40_body_binds :
  preserves (binds_only ["w_new"; "b_new"; "w"; "b"]) cell_40_body.
Proof.
  unfold cell_40_body.
  preserves_steps (binds_only_refl ["w_new"; "b_new"; "w"; "b"])
                  (binds_only_trans ["w_new"; "b_new"; "w"; "b"])
    ltac:(idtac;
          lazymatch goal with
          | |- preserves _ assign_w_new =>
              apply (preserves_weaken (binds_quietly ["w_new"]));
              [|apply assign_w_new_binds]
          | |- preserves _ assign_b_new =>
              apply (preserves_weaken (binds_quietly ["b_new"]));
              [|apply assign_b_new_binds]
          | |- preserves _ print_average_loss =>
              apply (preserves_weaken (binds_only []));
              [|apply print_average_loss_binds]
          | |- preserves _ (copy "w" _) =>
              apply (preserves_weaken (binds_quietly ["w"])); [|apply copy_binds]
          | |- preserves _ (copy "b" _) =>
              apply (preserves_weaken (binds_quietly ["b"])); [|apply copy_binds]
          end).
  all: intros s s' H;
    first [ apply binds_quietly_binds_only in H | idtac ];
    revert H; apply binds_only_incl; intros x; simpl; tauto.
Qed.


Lemma cell_40_binds rng : preserves (binds_only cell_40_names) (cell_40 rng).
Proof.
  unfold cell_40.
  preserves_steps (binds_only_refl cell_40_names)
                  (binds_only_trans cell_40_names)
    ltac:(first
      [ lazymatch goal with
        | |- preserves _ cell_40_body =>
            apply (preserves_weaken (binds_only ["w_new"; "b_new"; "w"; "b"]));
            [|apply cell_40_body_binds];
            intros ? ?; apply binds_only_incl; intros x; unfold cell_40_names;
            simpl; tauto
        end
      | quiet_call (binds_only cell_40_names)
                    (fun s s' (H : quiet s s') =>
                       binds_quietly_binds_only cell_40_names s s'
                         (quiet_binds_quietly cell_40_names s s' H))
      | apply assign_binds_only; unfold cell_40_names; simpl; tauto ]).
Qed.


(** ** The training cells, run in order *)

Lemma skipn_app_length {A} (l k : list A) : skipn (length l) (l ++ k) = k.
Proof. induction l; simpl; auto. Qed.

Lemma hand_coded_descent_length n dv : forall wb wb' ls,
  hand_coded_descent n dv wb = Ok (wb', ls) -> length ls = n.
Proof.
  induction n as [|n IH]; intros wb wb' ls H.
  - simpl in H. now injection H as _ <-.
  - destruct (hand_coded_descent_S _ _ _ _ _ H) as (wb1 & l1 & ls1 & _ & _ & Hr & ->).
    simpl. f_equal. eapply IH. exact Hr.
Qed.

Lemma optimizer_descent_length n stepsize dv : forall wb wb' ls,
  optimizer_descent n stepsize dv wb = Ok (wb', ls) -> length ls = n.
Proof.
  induction n as [|n IH]; intros wb wb' ls H.
  - simpl in H. now injection H as _ <-.
  - destruct (optimizer_descent_S _ _ _ _ _ _ H)
      as (l0 & wb1 & ls1 & _ & _ & Hr & ->).
    simpl. f_equal. eapply IH. exact Hr.
Qed.

(** Cell 40 where [np], [qml] and [quantum_model] are bound. *)
Lemma cell_40_run rng s wb' ls :
  is_Some (globals s !! "np") ->
  is_Some (globals s !! "qml") ->
  is_Some (globals s !! "quantum_model") ->
  hand_coded_descent 15 (samples rng) (w_init rng, 0) = Ok (wb', ls) ->
  exists w' b' data s',
    cell_40 rng s = (Ok (DPrinted ls), s') /\
    names_bound s' w' b' data /\
    allocated s' w' b' data /\
    (matrices s' w', scalars s' b') = wb' /\
    data_values s' data = samples rng /\
    stdout s' = stdout s ++ ls.
Proof.
  intros Hnp Hqml Hqm H.
  destruct (cell_40_loop_entry rng s Hnp Hqml Hqm)
    as (s0 & w & b & data & Hcell & Hnames & Hall & Hd & Hw & Hb & Ho).
  rewrite <- Hd, <- Hw, <- Hb in H.
  destruct (for_range_cell_40_body 15 s0 w b data wb' ls Hnames Hall H)
    as (w' & b' & s' & Hrun & Hnames' & Hall' & Hv & Hd' & Ho').
  exists w', b', data, s'. rewrite Hcell, (bind_Ok _ _ _ _ _ Hrun).
  unfold printed_since. rewrite Ho', Ho, skipn_app_length.
  split; [reflexivity|]. split; [exact Hnames'|]. split; [exact Hall'|].
  split; [exact Hv|]. split; [congruence|reflexivity].
Qed.

(** Cell 42 where [qml] and the names of cell 40 are bound. *)
Lemma cell_42_run s w b data wb' ls :
  is_Some (globals s !! "qml") ->
  names_bound s w b data ->
  allocated s w b data ->
  optimizer_descent 15 0.05 (data_values s data) (matrices s w, scalars s b)
  = Ok (wb', ls) ->
  exists w' b' s',
    cell_42 s = (Ok (DPrinted ls), s') /\
    names_bound s' w' b' data /\
    allocated s' w' b' data /\
    (matrices s' w', scalars s' b') = wb' /\
    stdout s' = stdout s ++ ls.
Proof.
  intros [o Hqml] Hnames Hall H. unfold cell_42.
  unfold bind at 1, stdout_length at 1; cbv beta iota.
  rewrite (bind_Ok _ _ _ _ _ (global_Some _ _ _ Hqml)).
  unfold bind at 1, assign at 1; cbv beta iota.
  set (s1 := with_globals (<["opt" := OOptimizer 0.05]> (globals s)) s).
  assert (Hnames1 : names_bound s1 w b data).
  { apply (names_bound_insert s s1 "opt" (OOptimizer 0.05));
      try discriminate; [reflexivity|exact Hnames]. }
  destruct (for_range_cell_42_body 15 s1 0.05 w b data wb' ls)
    as (w' & b' & s' & Hrun & Hnames' & Hall' & Hv & _ & Ho');
    [apply lookup_insert_eq|exact Hnames1|exact Hall|exact H|].
  exists w', b', s'. rewrite (bind_Ok _ _ _ _ _ Hrun).
  unfold printed_since. rewrite Ho'. simpl stdout. rewrite skipn_app_length.
  split; [reflexivity|]. split; [exact Hnames'|]. split; [exact Hall'|].
  split; [exact Hv|reflexivity].
Qed.

(** The session in which cell 40 runs when the notebook is run in order has
    [np], [qml] and [quantum_model] bound, whatever the library made of the
    call that cell 32 shows. *)
Lemma cell_32_binds_quantum_model s :
  is_Some (globals s !! "qml") ->
  is_Some (globals s !! "dev") ->
  is_Some (globals (snd (cell_32 s)) !! "quantum_model").
Proof.
  intros [o1 Hqml] [o2 Hdev]. unfold cell_32, def_qnode.
  rewrite bind_assoc, (bind_Ok _ _ _ _ _ (global_Some _ _ _ Hqml)).
  rewrite bind_assoc, (bind_Ok _ _ _ _ _ (global_Some _ _ _ Hdev)).
  unfold bind at 1, assign at 1; cbv beta iota.
  match goal with
  | |- is_Some (globals (snd (?m ?s1)) !! _) =>
      assert (Hm : preserves (binds_only ["x"; "w"]) m)
  end.
  { unfold quantum_model, execute. binds_only_steps ["x"; "w"]. }
  rewrite Hm by (simpl; intros [H|[H|[]]]; discriminate).
  simpl. rewrite lookup_insert_eq. eauto.
Qed.

Lemma cell_32_binds : preserves (binds_only ["quantum_model"; "x"; "w"]) cell_32.
Proof.
  unfold cell_32, def_qnode, quantum_model, execute.
  binds_only_steps ["quantum_model"; "x"; "w"].
Qed.

Lemma notebook_prelude :
  let p := run_cells [Cell2; Cell5; Cell32] fresh in
  is_Some (globals p !! "np") /\ is_Some (globals p !! "qml") /\
  is_Some (globals p !! "quantum_model").
Proof.
  intros p. subst p.
  pose (p2 := snd (cell_5 (snd (cell_2 fresh)))).
  change (run_cells [Cell2; Cell5; Cell32] fresh) with (snd (cell_32 p2)).
  assert (Hnp : globals p2 !! "np" = Some OModule) by reflexivity.
  assert (Hqml : globals p2 !! "qml" = Some OModule) by reflexivity.
  assert (Hdev : globals p2 !! "dev" = Some ODevice) by reflexivity.
  clearbody p2. repeat split.
  - rewrite (cell_32_binds p2) by (simpl; intros [H|[H|[H|[]]]]; discriminate).
    rewrite Hnp. eauto.
  - rewrite (cell_32_binds p2) by (simpl; intros [H|[H|[H|[]]]]; discriminate).
    rewrite Hqml. eauto.
  - apply cell_32_binds_quantum_model; [rewrite Hqml|rewrite Hdev]; eauto.
Qed.

(** X10: the training cells when the notebook is run in order (the
    imports, the device, the quantum model, then cells 40 and 42).  When the
    library takes 30 steps of gradient descent with step size 0.05 from the
    initial weights and bias 0 on the samples, cell 40 shows the 15 losses
    after steps 1 to 15 and cell 42 shows the 15 costs before steps 16 to 30:
    the optimizer continues from the pair the hand-coded loop ended with, so
    the first line of cell 42 repeats the last line of cell 40. *)
Theorem training_cells_in_notebook_order rng wb15 ls40 wb30 ls42 :
  hand_coded_descent 15 (samples rng) (w_init rng, 0) = Ok (wb15, ls40) ->
  optimizer_descent 15 0.05 (samples rng) wb15 = Ok (wb30, ls42) ->
  shown [Cell2; Cell5; Cell32] (Cell40 rng) = Ok (DPrinted ls40) /\
  shown [Cell2; Cell5; Cell32; Cell40 rng] Cell42 = Ok (DPrinted ls42) /\
  length ls40 = 15%nat /\ length ls42 = 15%nat /\
  List.hd 0 ls42 = List.last ls40 0.
Proof.
  intros H40 H42.
  destruct notebook_prelude as (Hnp & Hqml & Hqm).
  set (p := run_cells [Cell2; Cell5; Cell32] fresh) in *.
  destruct (cell_40_run rng p wb15 ls40 Hnp Hqml Hqm H40)
    as (w' & b' & data & s' & Hrun & Hnames & Hall & Hv & Hd & _).
  assert (Hqml' : is_Some (globals s' !! "qml")).
  { pose proof (cell_40_binds rng p "qml") as Hb. rewrite Hrun in Hb.
    simpl snd in Hb. rewrite Hb; [exact Hqml|].
    unfold cell_40_names. simpl.
    intros [H|[H|[H|[H|[H|[H|[H|[H|[H|[H|[H|[]]]]]]]]]]]]; discriminate. }
  rewrite <- Hv, <- Hd in H42.
  destruct (cell_42_run s' w' b' data wb30 ls42 Hqml' Hnames Hall H42)
    as (w'' & b'' & s'' & Hrun' & _).
  assert (E40 : shown [Cell2; Cell5; Cell32] (Cell40 rng) = Ok (DPrinted ls40)).
  { unfold shown. fold p. simpl run_cell. now rewrite Hrun. }
  assert (E42 : shown [Cell2; Cell5; Cell32; Cell40 rng] Cell42
                = Ok (DPrinted ls42)).
  { unfold shown.
    change (run_cells [Cell2; Cell5; Cell32; Cell40 rng] fresh)
      with (snd (cell_40 rng p)).
    rewrite Hrun. simpl run_cell. simpl snd. now rewrite Hrun'. }
  split; [exact E40|]. split; [exact E42|].
  split; [exact (hand_coded_descent_length _ _ _ _ _ H40)|].
  split; [exact (optimizer_descent_length _ _ _ _ _ _ H42)|].
  rewrite Hv, Hd in H42.
  destruct (hand_coded_descent_forward _ _ _ _ _ H40) as [l0 Hl0].
  pose proof (hand_coded_descent_last _ _ _ _ _ _ H40 Hl0) as Hlast.
  destruct (optimizer_descent_S _ _ _ _ _ _ H42) as (l & _ & ls1 & Hl & _ & _ & ->).
  destruct (hand_coded_descent_S _ _ _ _ _ H40) as (_ & l1 & ls' & _ & _ & _ & ->).
  rewrite last_cons_default in Hlast. rewrite last_cons_default. simpl.
  congruence.
Qed.

(** ** A line per pass *)

Lemma bind_Ok_inv {A B} (m : M A) (k : A -> M B) s b s' :
  bind m k s = (Ok b, s') ->
  exists a s1, m s = (Ok a, s1) /\ k a s1 = (Ok b, s').
Proof.
  unfold bind. destruct (m s) as [[a|e] s1]; intros H.
  - now exists a, s1.
  - discriminate.
Qed.


Lemma preserves_run (rel : state -> state -> Prop) {A} (m : M A) s r s' :
  preserves rel m -> m s = (r, s') -> rel s s'.
Proof. intros Hm H. specialize (Hm s). now rewrite H in Hm. Qed.

(** The quiet parts of the statements. *)
Ltac quiet_solve :=
  unfold global_matrix, global_scalar, global_data, global_optimizer,
    np_scale_matrix, np_sub_matrix, np_scale, np_sub;
  quiet_steps
    ltac:(idtac;
          lazymatch goal with
          | |- preserves _ (average_loss _ _ _) => apply average_loss_quiet
          | |- preserves _ (gradient_fn_w _ _ _) => apply gradient_fn_w_quiet
          | |- preserves _ (gradient_fn_b _ _ _) => apply gradient_fn_b_quiet
          | |- preserves _ (optimizer_step _ _ _ _) =>
              apply optimizer_step_quiet
          | |- preserves _ (new_data _) => apply new_data_quiet
          | |- preserves _ (average_loss_names _ _ _) =>
              apply average_loss_names_quiet
          end).

(** [H : bind m k s = (Ok b, s')] for a quiet [m]: on to [k]. *)
Ltac ok_step H :=
  let a := fresh "a" in
  let s1 := fresh "s" in
  let Hm := fresh "Hm" in
  apply bind_Ok_inv in H; destruct H as (a & s1 & Hm & H);
  apply (preserves_run quiet) in Hm; [|quiet_solve]; cbv beta in H.

Ltac quiet_chain :=
  repeat match goal with
         | Hq : quiet _ _ |- _ => destruct Hq as [? ?]
         | Hq : binds_quietly _ _ _ |- _ => destruct Hq as [_ ?]
         end.

Lemma print_average_loss_Ok s s' :
  print_average_loss s = (Ok tt, s') ->
  globals s' = globals s /\ exists v, stdout s' = stdout s ++ [v].
Proof.
  unfold print_average_loss. intros H.
  do 7 ok_step H.
  unfold print in H. injection H as <-. quiet_chain. simpl. split.
  - congruence.
  - eexists. f_equal. congruence.
Qed.

Lemma cell_40_body_Ok s s' :
  cell_40_body s = (Ok tt, s') -> exists v, stdout s' = stdout s ++ [v].
Proof.
  unfold cell_40_body. intros H.
  apply bind_Ok_inv in H. destruct H as ([] & s1 & H1 & H).
  apply (preserves_run _ _ _ _ _ assign_w_new_binds) in H1.
  apply bind_Ok_inv in H. destruct H as ([] & s2 & H2 & H).
  apply (preserves_run _ _ _ _ _ assign_b_new_binds) in H2.
  apply bind_Ok_inv in H. destruct H as ([] & s3 & H3 & H).
  apply print_average_loss_Ok in H3. destruct H3 as (_ & v & H3).
  apply bind_Ok_inv in H. destruct H as ([] & s4 & H4 & H).
  apply (preserves_run _ _ _ _ _ (copy_binds _ _)) in H4.
  apply (preserves_run _ _ _ _ _ (copy_binds _ _)) in H.
  quiet_chain. exists v. congruence.
Qed.

Lemma cell_42_body_Ok s s' :
  cell_42_body s = (Ok tt, s') -> exists v, stdout s' = stdout s ++ [v].
Proof.
  unfold cell_42_body. intros H.
  do 7 ok_step H.
  unfold bind, assign, read_pyval, print in H. injection H as <-.
  quiet_chain. simpl. eexists. f_equal. congruence.
Qed.

Lemma for_range_prints (body : M unit) :
  (forall s s', body s = (Ok tt, s') -> exists v, stdout s' = stdout s ++ [v]) ->
  forall n s s',
    for_range n body s = (Ok tt, s') ->
    exists out, stdout s' = stdout s ++ out /\ length out = n.
Proof.
  intros Hb. induction n as [|n IH]; intros s s' H; simpl in H.
  - injection H as <-. exists []. now rewrite app_nil_r.
  - apply bind_Ok_inv in H. destruct H as ([] & s1 & H1 & H).
    destruct (Hb _ _ H1) as [v Hv]. destruct (IH _ _ H) as (out & Ho & Hl).
    exists (v :: out). split; [|simpl; congruence].
    rewrite Ho, Hv, <- app_assoc. reflexivity.
Qed.

(** [H : bind m k s = (Ok b, s')] for a statement [m] of cell 40 before its
    loop: on to [k]. *)
Ltac ok_step_40 H :=
  let a := fresh "a" in
  let s1 := fresh "s" in
  let Hm := fresh "Hm" in
  apply bind_Ok_inv in H; destruct H as (a & s1 & Hm & H);
  apply (preserves_run (binds_quietly cell_40_names)) in Hm;
  [|unfold cell_40_names;
    lazymatch goal with
    | |- preserves _ (assign _ _) => apply assign_binds_quietly; simpl; tauto
    | |- preserves _ _ =>
        apply (preserves_weaken quiet); [apply quiet_binds_quietly|];
        quiet_solve
    end];
  cbv beta in H.

(** X11: a line per pass.  A pass of either training loop that completes
    has printed exactly one value, [n] passes that complete have printed
    [n], and what cell 40 or cell 42 shows when it completes is 15 printed
    values. *)
Theorem training_cells_print_a_line_per_pass :
  (forall n s s',
     for_range n cell_40_body s = (Ok tt, s') ->
     exists out, stdout s' = stdout s ++ out /\ length out = n) /\
  (forall n s s',
     for_range n cell_42_body s = (Ok tt, s') ->
     exists out, stdout s' = stdout s ++ out /\ length out = n) /\
  (forall rng s d s',
     cell_40 rng s = (Ok d, s') ->
     exists out, d = DPrinted out /\ length out = 15%nat) /\
  (forall s d s',
     cell_42 s = (Ok d, s') ->
     exists out, d = DPrinted out /\ length out = 15%nat).
Proof.
  split; [exact (for_range_prints _ cell_40_body_Ok)|].
  split; [exact (for_range_prints _ cell_42_body_Ok)|].
  split.
  - intros rng s d s' H. unfold cell_40 in H.
    unfold bind at 1, stdout_length at 1 in H; cbv beta iota in H.
    do 14 ok_step_40 H.
    apply bind_Ok_inv in H. destruct H as ([] & s15 & Hloop & H).
    destruct (for_range_prints _ cell_40_body_Ok _ _ _ Hloop) as (out & Ho & Hl).
    unfold printed_since in H. injection H as <- <-.
    exists out. split; [|exact Hl]. f_equal. quiet_chain.
    replace (stdout s) with (stdout s13) by congruence.
    rewrite Ho. apply skipn_app_length.
  - intros s d s' H. unfold cell_42 in H.
    unfold bind at 1, stdout_length at 1 in H; cbv beta iota in H.
    ok_step H.
    unfold bind at 1, assign at 1 in H; cbv beta iota in H.
    apply bind_Ok_inv in H. destruct H as ([] & s2 & Hloop & H).
    destruct (for_range_prints _ cell_42_body_Ok _ _ _ Hloop) as (out & Ho & Hl).
    unfold printed_since in H. injection H as <- <-.
    exists out. split; [|exact Hl]. f_equal. quiet_chain.
    simpl in Ho. replace (stdout s) with (stdout s0) by congruence.
    rewrite Ho. apply skipn_app_length.
Qed.

(** ** A pass that raises *)








(** ** A stationary point *)

Lemma mat_sub_zeros r m : mat_sub m (mat_scale r (zeros_like m)) = m.
Proof.
  unfold mat_sub, mat_scale, zeros_like.
  induction m as [|row m IH]; simpl; [reflexivity|].
  rewrite IH. f_equal.
  clear. induction row as [|x row IH]; simpl; [reflexivity|].
  rewrite IH. f_equal. ring.
Qed.

Lemma descent_step_stationary stepsize dv wv bv l :
  objective dv wv bv = Ok l ->
  qml_grad_argnum0 (objective dv) wv bv = Ok (zeros_like wv) ->
  qml_grad_argnum1 (objective dv) wv bv = Ok 0 ->
  descent_step stepsize dv (wv, bv) = Ok (wv, bv).
Proof.
  intros Hl Hgw Hgb. unfold descent_step. simpl fst. simpl snd.
  rewrite Hl, Hgw, Hgb. simpl. rewrite mat_sub_zeros.
  do 2 f_equal. ring.
Qed.

Lemma hand_coded_descent_stationary n dv wv bv l :
  objective dv wv bv = Ok l ->
  qml_grad_argnum0 (objective dv) wv bv = Ok (zeros_like wv) ->
  qml_grad_argnum1 (objective dv) wv bv = Ok 0 ->
  hand_coded_descent n dv (wv, bv) = Ok ((wv, bv), List.repeat l n).
Proof.
  intros Hl Hgw Hgb. induction n as [|n IH]; [reflexivity|].
  cbn [hand_coded_descent].
  rewrite (descent_step_stationary _ _ _ _ _ Hl Hgw Hgb). cbn [result_bind fst snd].
  rewrite Hl. cbn [result_bind]. rewrite IH. reflexivity.
Qed.

(** X13: training from a stationary point stays there.  When both
    gradients the library returns at the pair [(w, b)] vanish, any number of
    passes of the hand-coded loop complete and leave [w] and [b] bound to
    tensors of the values they had, and every pass prints the loss at that
    pair. *)
Theorem training_stays_at_a_stationary_point n s w b data l :
  names_bound s w b data ->
  allocated s w b data ->
  objective (data_values s data) (matrices s w) (scalars s b) = Ok l ->
  qml_grad_argnum0 (objective (data_values s data)) (matrices s w) (scalars s b)
  = Ok (zeros_like (matrices s w)) ->
  qml_grad_argnum1 (objective (data_values s data)) (matrices s w) (scalars s b)
  = Ok 0 ->
  exists w' b' s',
    for_range n cell_40_body s = (Ok tt, s') /\
    globals s' !! "w" = Some (OMatrix w') /\
    matrices s' w' = matrices s w /\
    globals s' !! "b" = Some (OScalar b') /\
    scalars s' b' = scalars s b /\
    stdout s' = stdout s ++ List.repeat l n.
Proof.
  intros Hnames Hall Hl Hgw Hgb.
  pose proof (hand_coded_descent_stationary n _ _ _ _ Hl Hgw Hgb) as H.
  destruct (for_range_cell_40_body n s w b data _ _ Hnames Hall H)
    as (w' & b' & s' & Hrun & (Hw & Hb & _) & _ & Hv & _ & Ho).
  injection Hv as Hwv Hbv.
  exists w', b', s'. repeat split; assumption.
Qed.

(** ** What cell 40 needs *)

Lemma new_data_length sv s :
  forall d s', new_data sv s = (Ok d, s') -> length d = length sv.
Proof.
  revert s. induction sv as [|xy sv IH]; intros s d s' H; simpl in H.
  - injection H as <- _. reflexivity.
  - unfold bind at 1, new_vector at 1 in H; cbv beta iota in H.
    unfold bind at 1, new_scalar at 1 in H; cbv beta iota in H.
    apply bind_Ok_inv in H. destruct H as (d' & s1 & H1 & H).
    injection H as <- _. simpl. f_equal. eapply IH. exact H1.
Qed.

(** The session in which the loop of cell 40 starts, when [np] and [qml]
    are bound. *)
Lemma cell_40_enters rng s :
  is_Some (globals s !! "np") ->
  is_Some (globals s !! "qml") ->
  exists s0 w b data,
    cell_40 rng s
    = bind (for_range 15 cell_40_body)
           (fun _ => printed_since (length (stdout s))) s0 /\
    globals s0
    = <["b" := OScalar b]>
        (<["w" := OMatrix w]>
           (<["gradient_fn_b" := OFunction]>
              (<["gradient_fn_w" := OFunction]>
                 (<["average_loss" := OFunction]>
                    (<["loss" := OFunction]>
                       (<["model_with_bias" := OFunction]>
                          (<["data" := OData data]>
                             (<["n_samples" := OInt 100]> (globals s))))))))) /\
    length data = 100%nat /\
    stdout s0 = stdout s.
Proof.
  intros [o1 Hnp] [o2 Hqml]. unfold cell_40.
  unfold bind at 1, stdout_length at 1; cbv beta iota.
  unfold bind at 1, assign at 1; cbv beta iota.
  erewrite bind_Ok
    by (apply global_Some; simpl; rewrite lookup_insert_ne by discriminate;
        exact Hnp).
  destruct (new_data_spec (samples rng)
              (with_globals (<["n_samples" := OInt 100]> (globals s)) s))
    as (data & s1 & Hrun & Hext & _ & _).
  rewrite (bind_Ok _ _ _ _ _ Hrun).
  pose proof (new_data_length _ _ _ _ Hrun) as Hlen.
  destruct Hext as (_ & _ & _ & _ & Eg & Eo). simpl in Eg, Eo.
  do 4 (unfold bind at 1, assign at 1; cbv beta iota).
  erewrite bind_Ok
    by (apply global_Some; simpl; rewrite Eg;
        rewrite !lookup_insert_ne by discriminate; exact Hqml).
  do 2 (unfold bind at 1, assign at 1; cbv beta iota).
  unfold bind at 1, new_matrix at 1; cbv beta iota.
  unfold bind at 1, assign at 1; cbv beta iota.
  unfold bind at 1, new_scalar at 1; cbv beta iota.
  unfold bind at 1, assign at 1; cbv beta iota.
  eexists _, (next s1), (S (next s1)), data. split; [reflexivity|].
  simpl. rewrite Eg. split; [reflexivity|]. split; [|exact Eo].
  rewrite Hlen. unfold samples. now rewrite length_map, length_seq.
Qed.

(** X14: what cell 40 needs from the cells before it.  Without [np] it
    stops at its first array, without [qml] at [qml.grad]; and in a session
    that has both but no [quantum_model] (cell 32 was not run), the
    definitions of [model_with_bias] and of the gradient functions go
    through and the first pass of the loop raises [NameError] for
    [quantum_model], with nothing printed. *)
Theorem cell_40_needs_np_qml_and_quantum_model rng s :
  (globals s !! "np" = None ->
   fst (cell_40 rng s) = Raise (NameError "np")) /\
  (is_Some (globals s !! "np") ->
   globals s !! "qml" = None ->
   fst (cell_40 rng s) = Raise (NameError "qml")) /\
  (is_Some (globals s !! "np") ->
   is_Some (globals s !! "qml") ->
   globals s !! "quantum_model" = None ->
   fst (cell_40 rng s) = Raise (NameError "quantum_model") /\
   stdout (snd (cell_40 rng s)) = stdout s /\
   is_Some (globals (snd (cell_40 rng s)) !! "model_with_bias") /\
   is_Some (globals (snd (cell_40 rng s)) !! "gradient_fn_w")).
Proof.
  split; [|split].
  - intros Hnp. unfold cell_40.
    unfold bind at 1, stdout_length at 1; cbv beta iota.
    unfold bind at 1, assign at 1; cbv beta iota.
    apply bind_fst_Raise. unfold global. simpl.
    rewrite lookup_insert_ne by discriminate. now rewrite Hnp.
  - intros [o1 Hnp] Hqml. unfold cell_40.
    unfold bind at 1, stdout_length at 1; cbv beta iota.
    unfold bind at 1, assign at 1; cbv beta iota.
    erewrite bind_Ok
      by (apply global_Some; simpl; rewrite lookup_insert_ne by discriminate;
          exact Hnp).
    destruct (new_data_spec (samples rng)
                (with_globals (<["n_samples" := OInt 100]> (globals s)) s))
      as (data & s1 & Hrun & Hext & _ & _).
    rewrite (bind_Ok _ _ _ _ _ Hrun).
    destruct Hext as (_ & _ & _ & _ & Eg & _). simpl in Eg.
    do 4 (unfold bind at 1, assign at 1; cbv beta iota).
    apply bind_fst_Raise. unfold global. simpl. rewrite Eg.
    rewrite !lookup_insert_ne by discriminate. now rewrite Hqml.
  - intros Hnp Hqml Hqm.
    destruct (cell_40_enters rng s Hnp Hqml)
      as (s0 & w & b & data & Hcell & Hg & Hlen & Ho).
    assert (Hnames : average_loss_names w b data s0
                     = (Raise (NameError "quantum_model"), s0)).
    { destruct data as [|xy data]; [discriminate|].
      unfold average_loss_names.
      erewrite bind_Ok
        by (apply global_Some; rewrite Hg;
            rewrite !lookup_insert_ne by discriminate; apply lookup_insert_eq).
      apply bind_Raise, global_None. rewrite Hg.
      rewrite !lookup_insert_ne by discriminate. exact Hqm. }
    assert (Hbody : cell_40_body s0 = (Raise (NameError "quantum_model"), s0)).
    { unfold cell_40_body. apply bind_Raise. unfold assign_w_new.
      erewrite bind_Ok
        by (apply global_matrix_Some; rewrite Hg;
            rewrite !lookup_insert_ne by discriminate; apply lookup_insert_eq).
      erewrite bind_Ok
        by (apply global_Some; rewrite Hg;
            rewrite !lookup_insert_ne by discriminate; apply lookup_insert_eq).
      erewrite bind_Ok
        by (apply global_scalar_Some; rewrite Hg; apply lookup_insert_eq).
      erewrite bind_Ok
        by (apply global_data_Some; rewrite Hg;
            rewrite !lookup_insert_ne by discriminate; apply lookup_insert_eq).
      apply bind_Raise. exact Hnames. }
    rewrite Hcell. simpl for_range.
    rewrite (bind_Raise _ _ _ _ _ (bind_Raise _ _ _ _ _ Hbody)).
    simpl. rewrite Hg. split; [reflexivity|]. split; [exact Ho|].
    split; rewrite !lookup_insert_ne by discriminate;
      rewrite lookup_insert_eq; eauto.
Qed.

(** ** The circuits of cells 10 and 14 *)

Lemma s_squared : s_ * s_ = / 2.
Proof.
  unfold s_. assert (H : sqrt 2 * sqrt 2 = 2) by (apply sqrt_sqrt; lra).
  assert (Hn : sqrt 2 <> 0) by (intros E; rewrite E in H; lra).
  field_simplify_eq; [lra|exact Hn].
Qed.


Lemma def_qnode_run name s :
  is_Some (globals s !! "qml") ->
  is_Some (globals s !! "dev") ->
  def_qnode name s = (Ok tt, with_globals (<[name := OFunction]> (globals s)) s).
Proof.
  intros [o1 Hqml] [o2 Hdev]. unfold def_qnode.
  rewrite (bind_Ok _ _ _ _ _ (global_Some _ _ _ Hqml)).
  now rewrite (bind_Ok _ _ _ _ _ (global_Some _ _ _ Hdev)).
Qed.

Lemma cell_10_run s :
  is_Some (globals s !! "qml") ->
  is_Some (globals s !! "dev") ->
  exists s', cell_10 s = (Ok (DVector [1; 0; 0; 0]), s') /\
             dev_state s' = ket00.
Proof.
  intros Hqml Hdev. unfold cell_10.
  rewrite (bind_Ok _ _ _ _ _ (def_qnode_run "circuit" s Hqml Hdev)).
  unfold circuit_10, execute, bind, lift, set_dev_state, ret, new_vector,
    read_vector.
  simpl. rewrite upd_same. eexists. split.
  - apply f_equal2; [|reflexivity]. do 2 f_equal.
    unfold probs, ket00. simpl. repeat (f_equal; try ring).
  - reflexivity.
Qed.

Lemma cell_14_run s :
  is_Some (globals s !! "np") ->
  is_Some (globals s !! "qml") ->
  is_Some (globals s !! "dev") ->
  exists s', cell_14 s = (Ok (DVector [0; / 2; / 2; 0]), s') /\
             dev_state s' = [(0, 0); (s_, 0); (s_, 0); (0, 0)].
Proof.
  intros [o Hnp] Hqml Hdev. unfold cell_14, cell_14_defs.
  rewrite !bind_assoc.
  rewrite (bind_Ok _ _ _ _ _ (global_Some _ _ _ Hnp)).
  rewrite bind_assoc. unfold bind at 1, assign at 1; cbv beta iota.
  rewrite bind_assoc. unfold bind at 1, new_matrix at 1; cbv beta iota.
  rewrite bind_assoc. unfold bind at 1, assign at 1; cbv beta iota.
  erewrite bind_Ok
    by (apply def_qnode_run; simpl; now do 2 apply is_Some_insert).
  unfold circuit_14.
  rewrite !bind_assoc.
  erewrite bind_Ok
    by (apply global_matrix_Some; simpl;
        rewrite lookup_insert_ne by discriminate; apply lookup_insert_eq).
  unfold execute, bind, lift, set_dev_state, ret, new_vector, read_vector,
    read_matrix.
  simpl. rewrite !upd_same.
  change ([dot [0; - s_; 0; s_] ket00; dot [s_; 0; - s_; 0] ket00;
           dot [s_; 0; s_; 0] ket00; dot [0; - s_; 0; - s_] ket00])
    with (map (fun row => dot row ket00) U).
  rewrite U_ket00. eexists. split.
  - apply f_equal2; [|reflexivity]. do 2 f_equal.
    unfold probs. simpl. f_equal; [ring|].
    f_equal; [rewrite <- s_squared; ring|].
    f_equal; [rewrite <- s_squared; ring|].
    f_equal. ring.
  - reflexivity.
Qed.

(** X16: the circuit cells show the same in every session that has their
    names.  Evaluating a quantum node resets the device, so whatever state
    an earlier circuit left, cell 10 shows the probabilities of |00> and
    leaves the device in |00>, and cell 14 shows the probabilities of
    [U]|00> and leaves the device in [U]|00>. *)
Theorem circuit_cells_do_not_depend_on_the_device_state :
  (forall s,
     is_Some (globals s !! "qml") ->
     is_Some (globals s !! "dev") ->
     fst (cell_10 s) = Ok (DVector [1; 0; 0; 0]) /\
     dev_state (snd (cell_10 s)) = ket00) /\
  (forall s,
     is_Some (globals s !! "np") ->
     is_Some (globals s !! "qml") ->
     is_Some (globals s !! "dev") ->
     fst (cell_14 s) = Ok (DVector [0; / 2; / 2; 0]) /\
     dev_state (snd (cell_14 s)) = [(0, 0); (s_, 0); (s_, 0); (0, 0)]).
Proof.
  split.
  - intros s Hqml Hdev.
    destruct (cell_10_run s Hqml Hdev) as (s' & -> & Hd). now split.
  - intros s Hnp Hqml Hdev.
    destruct (cell_14_run s Hnp Hqml Hdev) as (s' & -> & Hd). now split.
Qed.

(** ** The device after the average loss *)

Lemma for_each_accumulate_extends w b data s c s' :
  allocated s w b data ->
  for_each data (PInt 0) (accumulate w b) s = (Ok c, s') ->
  extends s s'.
Proof.
  intros Hall H.
  destruct (for_each_accumulate_spec w b data s s (PInt 0) (NInt 0) Hall
              (extends_refl s) eq_refl) as (s1 & Hext & Hf).
  destruct (for_each_val _ _ _) as [cv|e].
  - destruct Hf as (c' & Hf & _). rewrite H in Hf. now injection Hf as _ ->.
  - rewrite H in Hf. discriminate.
Qed.

(** X17: what [dev.state] shows after the average loss.  When
    [average_loss(w, b, data)] returns, the device is in the state the
    circuit of [quantum_model] prepared for the last sample of [data]. *)
Theorem average_loss_leaves_the_state_of_the_last_sample w b data x y s v s' :
  allocated s w b (data ++ [(x, y)]) ->
  average_loss w b (data ++ [(x, y)]) s = (Ok v, s') ->
  apply_gates [AngleEmbedding (vectors s x); BasicEntanglerLayers (matrices s w)]
              ket00
  = Ok (dev_state s').
Proof.
  intros (Hw & Hb & Hd) H. unfold average_loss in H.
  apply bind_Ok_inv in H. destruct H as (c & s1 & Hf & Ht).
  rewrite for_each_app in Hf.
  apply bind_Ok_inv in Hf. destruct Hf as (c0 & s0 & Hf0 & Hlast).
  simpl in Hlast.
  apply bind_Ok_inv in Hlast. destruct Hlast as (c1 & s1' & Hacc & Hret).
  unfold ret in Hret. injection Hret as -> ->.
  apply Forall_app in Hd. destruct Hd as [Hd Hxy].
  inversion Hxy as [|? ? [Hx Hy] _]; subst. simpl in Hx, Hy.
  assert (Hext : extends s s0).
  { apply (for_each_accumulate_extends w b data s c0 s0); [|exact Hf0].
    repeat split; assumption. }
  destruct Hext as (_ & _ & E1 & E2 & _).
  rewrite <- (E1 x Hx), <- (E2 w Hw).
  unfold accumulate, model_with_bias, quantum_model, execute in Hacc.
  unfold bind, lift, read_vector, read_matrix, set_dev_state, ret in Hacc.
  cbv beta iota in Hacc.
  destruct (apply_gates _ ket00) as [psi|e]; [|discriminate].
  cbv beta iota in Hacc.
  destruct (expval_PauliZ 0 psi) as [q|e]; [|discriminate].
  unfold loss, np_add, np_sub, np_square, bind, new_scalar, read_scalar in Hacc.
  cbv beta iota in Hacc.
  destruct c0 as [z|r|l]; simpl in Hacc; injection Hacc as <- <-;
    simpl in Ht; injection Ht as _ <-; reflexivity.
Qed.

(** ** The loss of the PyTorch cell *)

Lemma accumulate_torch_spec w x y s0 s c cv :
  (w < next s0)%nat -> (x < next s0)%nat -> (y < next s0)%nat ->
  extends s0 s -> acc_rel s0 s c cv ->
  exists s', extends s0 s' /\
    match accumulate_val (matrices s0 w) 0 cv (vectors s0 x, scalars s0 y) with
    | Raise e => accumulate_torch w c (x, y) s = (Raise e, s')
    | Ok cv' =>
        exists c', accumulate_torch w c (x, y) s = (Ok c', s') /\
                   acc_rel s0 s' c' cv'
    end.
Proof.
  intros Hw Hx Hy Hext Hrel.
  unfold accumulate_val, model_with_bias_val, accumulate_torch. simpl.
  destruct (quantum_model_spec x w s) as (s1 & Hext1 & Hq).
  assert (Hext01 : extends s0 s1)
    by (eapply extends_trans; [exact Hext|exact Hext1]).
  pose proof Hext as (Hn & H0 & H1 & H2 & Hg & Ho).
  rewrite (H1 x Hx), (H2 w Hw) in Hq.
  destruct (quantum_model_val _ _) as [q|e]; simpl.
  - destruct Hq as (Hq & Hn1 & Hqv).
    rewrite (bind_Ok _ _ _ _ _ Hq).
    destruct (loss_spec (next s) y s1) as (ll & s2 & Hls & Hext2 & Hll & Hl & _).
    rewrite (bind_Ok _ _ _ _ _ Hls).
    assert (Hext02 : extends s0 s2)
      by (eapply extends_trans; [exact Hext01|exact Hext2]).
    assert (Hrel2 : acc_rel s0 s2 c cv).
    { destruct c as [z|r|l], cv as [z'|r'|r']; simpl in *; auto.
      destruct Hrel as [Hl' Hv]. split.
      - destruct Hext1, Hext2; lia.
      - destruct Hext2 as (_ & E2 & _), Hext1 as (Hn1' & E1 & _).
        rewrite E2 by lia. rewrite E1 by lia. exact Hv. }
    destruct (iadd_spec s0 s2 c cv ll Hext02 Hrel2)
      as (c3 & s3 & Hi & Hext3 & _ & Hrel3 & _).
    assert (Hy1 : scalars s1 y = scalars s0 y).
    { destruct Hext01 as (_ & E1 & _). now apply E1. }
    rewrite Hl, Hqv, Hy1 in Hrel3. rewrite Rplus_0_r.
    eauto.
  - exists s1. split; [exact Hext01|]. now apply bind_Raise.
Qed.

Lemma for_each_accumulate_torch_spec w data : forall s0 s c cv,
  (w < next s0)%nat ->
  Forall (fun xy => (fst xy < next s0)%nat /\ (snd xy < next s0)%nat) data ->
  extends s0 s -> acc_rel s0 s c cv ->
  exists s', extends s0 s' /\
    match for_each_val (data_values s0 data) cv
                       (accumulate_val (matrices s0 w) 0) with
    | Raise e => for_each data c (accumulate_torch w) s = (Raise e, s')
    | Ok cv' =>
        exists c', for_each data c (accumulate_torch w) s = (Ok c', s') /\
                   acc_rel s0 s' c' cv'
    end.
Proof.
  induction data as [|[x y] data IH]; intros s0 s c cv Hw Hd Hext Hrel.
  - simpl. unfold ret. eauto.
  - inversion Hd as [|? ? [Hx Hy] Hd']; subst. simpl in Hx, Hy. simpl.
    destruct (accumulate_torch_spec w x y s0 s c cv Hw Hx Hy Hext Hrel)
      as (s1 & Hext1 & Ha).
    destruct (accumulate_val _ _ cv _) as [cv1|e]; simpl.
    + destruct Ha as (c1 & Ha & Hrel1).
      rewrite (bind_Ok _ _ _ _ _ Ha).
      apply IH; assumption.
    + exists s1. split; [exact Hext1|]. now apply bind_Raise.
Qed.

Lemma average_loss_torch_outcome w data s :
  (w < next s)%nat ->
  Forall (fun xy => (fst xy < next s)%nat /\ (snd xy < next s)%nat) data ->
  outcome value_of (average_loss_torch w data s)
  = objective (data_values s data) (matrices s w) 0.
Proof.
  intros Hw Hd. unfold objective, average_loss_val, average_loss_torch, outcome.
  destruct (for_each_accumulate_torch_spec w data s s (PInt 0) (NInt 0) Hw Hd
              (extends_refl s) eq_refl) as (s1 & Hext & Hf).
  destruct (for_each_val _ _ _) as [cv|e]; simpl.
  - destruct Hf as (c & Hf & Hrel).
    rewrite (bind_Ok _ _ _ _ _ Hf).
    rewrite data_values_length. unfold loc in *.
    destruct c as [z|r|l], cv as [z'|r'|r']; simpl in Hrel; try contradiction.
    + subst z'. simpl. destruct (length data); reflexivity.
    + subst r'. simpl. destruct (length data); reflexivity.
    + destruct Hrel as [Hl Hv]. simpl. rewrite upd_same, Hv. reflexivity.
  - now rewrite (bind_Raise _ _ _ _ _ Hf).
Qed.

(** X18: the loss of the PyTorch cell is the loss of cell 40 without the
    bias.  On the same weights and data, [average_loss(w, data)] of cell 44
    comes to what [average_loss(w, b, data)] of cell 40 comes to with
    [b = 0]: the same value, or the same exception; on empty data both raise
    the division by zero. *)
Theorem torch_average_loss_is_average_loss_without_bias w b data s :
  allocated s w b data ->
  scalars s b = 0 ->
  outcome value_of (average_loss_torch w data s)
  = outcome value_of (average_loss w b data s).
Proof.
  intros Hall Hb0.
  rewrite (average_loss_outcome w b data s Hall), Hb0.
  destruct Hall as (Hw & _ & Hd).
  now apply average_loss_torch_outcome.
Qed.

(** ** The training cells as a whole *)

(** X19: what cell 40 shows depends on its draws only.  In every session in
    which [np], [qml] and [quantum_model] are bound, whatever else the
    session holds, cell 40 trains from its own initial weights and bias 0 on
    its own samples: when 15 steps of gradient descent go through in the
    library it shows the 15 losses after each step and leaves [w] and [b]
    bound to the last pair. *)
Theorem cell_40_trains_from_its_own_start rng s wv' bv' ls :
  is_Some (globals s !! "np") ->
  is_Some (globals s !! "qml") ->
  is_Some (globals s !! "quantum_model") ->
  hand_coded_descent 15 (samples rng) (w_init rng, 0) = Ok ((wv', bv'), ls) ->
  exists w' b' s',
    cell_40 rng s = (Ok (DPrinted ls), s') /\
    length ls = 15%nat /\
    globals s' !! "w" = Some (OMatrix w') /\ matrices s' w' = wv' /\
    globals s' !! "b" = Some (OScalar b') /\ scalars s' b' = bv' /\
    stdout s' = stdout s ++ ls.
Proof.
  intros Hnp Hqml Hqm H.
  destruct (cell_40_run rng s _ ls Hnp Hqml Hqm H)
    as (w' & b' & data & s' & Hrun & (Hw & Hb & _) & _ & Hv & _ & Ho).
  injection Hv as Hwv Hbv.
  exists w', b', s'.
  split; [exact Hrun|]. split; [exact (hand_coded_descent_length _ _ _ _ _ H)|].
  repeat split; assumption.
Qed.

(** X20: cell 42 continues from the session.  With [qml] and the names of
    cell 40 bound, cell 42 binds [opt] and takes 15 steps with step size 0.05
    from the pair the session's [w] and [b] hold: when they go through in
    the library it shows the 15 costs before each step and leaves [w] and
    [b] bound to the last pair. *)
Theorem cell_42_continues_from_the_session s w b data wv' bv' ls :
  is_Some (globals s !! "qml") ->
  names_bound s w b data ->
  allocated s w b data ->
  optimizer_descent 15 0.05 (data_values s data) (matrices s w, scalars s b)
  = Ok ((wv', bv'), ls) ->
  exists w' b' s',
    cell_42 s = (Ok (DPrinted ls), s') /\
    length ls = 15%nat /\
    globals s' !! "w" = Some (OMatrix w') /\ matrices s' w' = wv' /\
    globals s' !! "b" = Some (OScalar b') /\ scalars s' b' = bv' /\
    stdout s' = stdout s ++ ls.
Proof.
  intros Hqml Hnames Hall H.
  destruct (cell_42_run s w b data _ ls Hqml Hnames Hall H)
    as (w' & b' & s' & Hrun & (Hw & Hb & _) & _ & Hv & Ho).
  injection Hv as Hwv Hbv.
  exists w', b', s'.
  split; [exact Hrun|].
  split; [exact (optimizer_descent_length _ _ _ _ _ _ H)|].
  repeat split; assumption.
Qed.

(** ** The loss as a function of the bias *)




(** ** Exceptions, statement by statement *)

Lemma objective_Raise dv wv bv e :
  objective dv wv bv = Raise e <-> average_loss_val wv bv dv = Raise e.
Proof.
  unfold objective. destruct (average_loss_val wv bv dv) as [l|e']; simpl.
  - split; discriminate.
  - split; intros [= ->]; reflexivity.
Qed.

Lemma descent_step_Raise stepsize dv wb e :
  descent_step stepsize dv wb = Raise e ->
  average_loss_val (fst wb) (snd wb) dv = Raise e \/
  (exists l, average_loss_val (fst wb) (snd wb) dv = Ok l /\
     (qml_grad_argnum0 (objective dv) (fst wb) (snd wb) = Raise e \/
      exists gw, qml_grad_argnum0 (objective dv) (fst wb) (snd wb) = Ok gw /\
                 qml_grad_argnum1 (objective dv) (fst wb) (snd wb) = Raise e)).
Proof.
  unfold descent_step. intros H.
  destruct (objective dv (fst wb) (snd wb)) as [r|e'] eqn:Hobj;
    cbn [result_bind] in H.
  - destruct (objective_Ok _ _ _ _ Hobj) as (l & Hl & _).
    right. exists l. split; [exact Hl|].
    destruct (qml_grad_argnum0 _ _ _) as [gw|e'] eqn:Hgw; cbn [result_bind] in H.
    + right. exists gw. split; [reflexivity|].
      destruct (qml_grad_argnum1 _ _ _) as [gb|e']; cbn [result_bind] in H;
        [discriminate|].
      injection H as ->. reflexivity.
    + left. injection H as ->. reflexivity.
  - left. injection H as ->. now apply objective_Raise.
Qed.

Lemma average_loss_raises w b data s e :
  allocated s w b data ->
  average_loss_val (matrices s w) (scalars s b) (data_values s data) = Raise e ->
  fst (average_loss w b data s) = Raise e.
Proof.
  intros Hall H. destruct (average_loss_spec w b data s Hall) as (s' & _ & Hs).
  rewrite H in Hs. now rewrite Hs.
Qed.

Lemma gradient_fn_w_raises w b data s e :
  allocated s w b data ->
  average_loss_val (matrices s w) (scalars s b) (data_values s data) = Raise e \/
  (exists l,
     average_loss_val (matrices s w) (scalars s b) (data_values s data) = Ok l /\
     qml_grad_argnum0 (objective (data_values s data)) (matrices s w)
                      (scalars s b) = Raise e) ->
  fst (gradient_fn_w w b data s) = Raise e.
Proof.
  intros Hall H. destruct (gradient_fn_w_spec w b data s Hall) as (s' & _ & Hs).
  destruct H as [H|(l & Hl & Hg)].
  - rewrite H in Hs. now rewrite Hs.
  - rewrite Hl, Hg in Hs. now rewrite Hs.
Qed.

Lemma gradient_fn_b_raises w b data s e :
  allocated s w b data ->
  average_loss_val (matrices s w) (scalars s b) (data_values s data) = Raise e \/
  (exists l,
     average_loss_val (matrices s w) (scalars s b) (data_values s data) = Ok l /\
     qml_grad_argnum1 (objective (data_values s data)) (matrices s w)
                      (scalars s b) = Raise e) ->
  fst (gradient_fn_b w b data s) = Raise e.
Proof.
  intros Hall H. destruct (gradient_fn_b_spec w b data s Hall) as (s' & _ & Hs).
  destruct H as [H|(l & Hl & Hg)].
  - rewrite H in Hs. now rewrite Hs.
  - rewrite Hl, Hg in Hs. now rewrite Hs.
Qed.

Lemma optimizer_step_raises stepsize data w b s e :
  allocated s w b data ->
  descent_step stepsize (data_values s data) (matrices s w, scalars s b)
  = Raise e ->
  fst (optimizer_step stepsize data w b s) = Raise e.
Proof.
  intros Hall H. rewrite optimizer_step_unfold.
  destruct (average_loss_spec w b data s Hall) as (s1 & _ & Hal).
  apply descent_step_Raise in H. simpl fst in H. simpl snd in H.
  destruct H as [H|(l & Hl & H)].
  - rewrite H in Hal. now rewrite (bind_Raise _ _ _ _ _ Hal).
  - rewrite Hl in Hal. destruct Hal as (cst & Hal & _).
    rewrite (bind_Ok _ _ _ _ _ Hal).
    destruct H as [Hgw|(gw & Hgw & Hgb)].
    + rewrite Hgw. reflexivity.
    + rewrite Hgw, Hgb. reflexivity.
Qed.

(** *** The statements of the hand-coded loop *)

Lemma assign_w_new_raises s w b data e :
  names_bound s w b data ->
  fst (gradient_fn_w w b data s) = Raise e ->
  fst (assign_w_new s) = Raise e.
Proof.
  intros (Hw & Hb & Hd & [o4 H4] & _ & _ & H7 & H8 & H9) H.
  unfold assign_w_new.
  rewrite (bind_Ok _ _ _ _ _ (global_matrix_Some _ _ _ Hw)).
  rewrite (bind_Ok _ _ _ _ _ (global_Some _ _ _ H4)).
  rewrite (bind_Ok _ _ _ _ _ (global_scalar_Some _ _ _ Hb)).
  rewrite (bind_Ok _ _ _ _ _ (global_data_Some _ _ _ Hd)).
  rewrite (bind_Ok _ _ _ _ _ (average_loss_names_bound _ _ _ _ H7 H8 H9)).
  now apply bind_fst_Raise.
Qed.

Lemma assign_b_new_raises s w b data e :
  names_bound s w b data ->
  fst (gradient_fn_b w b data s) = Raise e ->
  fst (assign_b_new s) = Raise e.
Proof.
  intros (Hw & Hb & Hd & _ & [o5 H5] & _ & H7 & H8 & H9) H.
  unfold assign_b_new.
  rewrite (bind_Ok _ _ _ _ _ (global_scalar_Some _ _ _ Hb)).
  rewrite (bind_Ok _ _ _ _ _ (global_Some _ _ _ H5)).
  rewrite (bind_Ok _ _ _ _ _ (global_matrix_Some _ _ _ Hw)).
  rewrite (bind_Ok _ _ _ _ _ (global_data_Some _ _ _ Hd)).
  rewrite (bind_Ok _ _ _ _ _ (average_loss_names_bound _ _ _ _ H7 H8 H9)).
  now apply bind_fst_Raise.
Qed.

Lemma print_average_loss_raises s w_new b_new data e :
  is_Some (globals s !! "average_loss") ->
  globals s !! "w_new" = Some (OMatrix w_new) ->
  globals s !! "b_new" = Some (OScalar b_new) ->
  globals s !! "data" = Some (OData data) ->
  is_Some (globals s !! "model_with_bias") ->
  is_Some (globals s !! "quantum_model") ->
  is_Some (globals s !! "loss") ->
  fst (average_loss w_new b_new data s) = Raise e ->
  fst (print_average_loss s) = Raise e.
Proof.
  intros [o H] Hw Hb Hd H7 H8 H9 Hr. unfold print_average_loss.
  rewrite (bind_Ok _ _ _ _ _ (global_Some _ _ _ H)).
  rewrite (bind_Ok _ _ _ _ _ (global_matrix_Some _ _ _ Hw)).
  rewrite (bind_Ok _ _ _ _ _ (global_scalar_Some _ _ _ Hb)).
  rewrite (bind_Ok _ _ _ _ _ (global_data_Some _ _ _ Hd)).
  rewrite (bind_Ok _ _ _ _ _ (average_loss_names_bound _ _ _ _ H7 H8 H9)).
  now apply bind_fst_Raise.
Qed.

(** The first statement raises: the forward pass or [qml.grad] for [w]. *)
Lemma cell_40_body_raises_w s w b data e :
  names_bound s w b data ->
  allocated s w b data ->
  average_loss_val (matrices s w) (scalars s b) (data_values s data) = Raise e \/
  (exists l,
     average_loss_val (matrices s w) (scalars s b) (data_values s data) = Ok l /\
     qml_grad_argnum0 (objective (data_values s data)) (matrices s w)
                      (scalars s b) = Raise e) ->
  fst (cell_40_body s) = Raise e.
Proof.
  intros Hnames Hall H. unfold cell_40_body. apply bind_fst_Raise.
  apply (assign_w_new_raises s w b data e Hnames).
  now apply gradient_fn_w_raises.
Qed.

(** The second statement raises: [qml.grad] for [b]. *)
Lemma cell_40_body_raises_b s w b data l gw e :
  names_bound s w b data ->
  allocated s w b data ->
  average_loss_val (matrices s w) (scalars s b) (data_values s data) = Ok l ->
  qml_grad_argnum0 (objective (data_values s data)) (matrices s w) (scalars s b)
  = Ok gw ->
  qml_grad_argnum1 (objective (data_values s data)) (matrices s w) (scalars s b)
  = Raise e ->
  fst (cell_40_body s) = Raise e.
Proof.
  intros Hnames Hall Hl Hgw Hgb. unfold cell_40_body.
  destruct (assign_w_new_spec s w b data l gw Hnames Hall Hl Hgw)
    as (w_new & s1 & Hrun1 & Hst1 & Hg1 & _).
  rewrite (bind_Ok _ _ _ _ _ Hrun1). apply bind_fst_Raise.
  pose proof (names_bound_insert s s1 "w_new" _ w b data
                ltac:(discriminate) ltac:(discriminate) ltac:(discriminate)
                Hg1 Hnames) as Hnames1.
  pose proof (allocated_store_extends _ _ _ _ _ Hst1 Hall) as Hall1.
  destruct (arguments_store_extends _ _ _ _ _ Hst1 Hall) as (Ew1 & Eb1 & Ed1).
  apply (assign_b_new_raises s1 w b data e Hnames1).
  apply (gradient_fn_b_raises w b data s1 e Hall1).
  right. exists l. rewrite Ew1, Eb1, Ed1. now split.
Qed.

(** The third statement raises: the loss at the new pair, for [print]. *)
Lemma cell_40_body_raises_print s w b data l gw gb e :
  names_bound s w b data ->
  allocated s w b data ->
  average_loss_val (matrices s w) (scalars s b) (data_values s data) = Ok l ->
  qml_grad_argnum0 (objective (data_values s data)) (matrices s w) (scalars s b)
  = Ok gw ->
  qml_grad_argnum1 (objective (data_values s data)) (matrices s w) (scalars s b)
  = Ok gb ->
  average_loss_val (mat_sub (matrices s w) (mat_scale 0.05 gw))
                   (scalars s b - 0.05 * gb) (data_values s data) = Raise e ->
  fst (cell_40_body s) = Raise e.
Proof.
  intros Hnames Hall Hl Hgw Hgb Hl'. unfold cell_40_body.
  destruct (assign_w_new_spec s w b data l gw Hnames Hall Hl Hgw)
    as (w_new & s1 & Hrun1 & Hst1 & Hg1 & Ho1 & Hwn & Hwv).
  rewrite (bind_Ok _ _ _ _ _ Hrun1).
  pose proof (names_bound_insert s s1 "w_new" _ w b data
                ltac:(discriminate) ltac:(discriminate) ltac:(discriminate)
                Hg1 Hnames) as Hnames1.
  pose proof (allocated_store_extends _ _ _ _ _ Hst1 Hall) as Hall1.
  destruct (arguments_store_extends _ _ _ _ _ Hst1 Hall) as (Ew1 & Eb1 & Ed1).
  destruct (assign_b_new_spec s1 w b data l gb Hnames1 Hall1) as
    (b_new & s2 & Hrun2 & Hst2 & Hg2 & Ho2 & Hbn & Hbv).
  { now rewrite Ew1, Eb1, Ed1. }
  { now rewrite Ew1, Eb1, Ed1. }
  rewrite (bind_Ok _ _ _ _ _ Hrun2). rewrite Eb1 in Hbv.
  pose proof (names_bound_insert s1 s2 "b_new" _ w b data
                ltac:(discriminate) ltac:(discriminate) ltac:(discriminate)
                Hg2 Hnames1) as Hnames2.
  pose proof (store_extends_trans _ _ _ Hst1 Hst2) as Hst02.
  destruct (arguments_store_extends _ _ _ _ _ Hst02 Hall) as (Ew2 & Eb2 & Ed2).
  assert (Hwv2 : matrices s2 w_new = mat_sub (matrices s w) (mat_scale 0.05 gw)).
  { destruct Hst2 as (_ & _ & _ & E). rewrite E by lia. exact Hwv. }
  assert (Hn1 : (next s1 <= next s2)%nat) by apply Hst2.
  destruct Hnames2 as (Hw2 & Hb2 & Hd2 & H4 & H5 & H6 & H7 & H8 & H9).
  apply bind_fst_Raise.
  apply (print_average_loss_raises s2 w_new b_new data e); try assumption.
  { rewrite Hg2, lookup_insert_ne by discriminate.
    rewrite Hg1. apply lookup_insert_eq. }
  { rewrite Hg2. apply lookup_insert_eq. }
  apply average_loss_raises.
  { destruct (allocated_store_extends _ _ _ _ _ Hst02 Hall) as (_ & _ & Hd').
    repeat split; [lia|lia|exact Hd']. }
  now rewrite Hwv2, Hbv, Ed2.
Qed.

(** A sample on which the library raises stops the first statement before
    [loss] is looked up: the names read up to there are enough. *)
Lemma cell_40_body_raises_first_sample s w b xy data e :
  globals s !! "w" = Some (OMatrix w) ->
  is_Some (globals s !! "gradient_fn_w") ->
  globals s !! "b" = Some (OScalar b) ->
  globals s !! "data" = Some (OData (xy :: data)) ->
  is_Some (globals s !! "model_with_bias") ->
  is_Some (globals s !! "quantum_model") ->
  quantum_model_val (vectors s (fst xy)) (matrices s w) = Raise e ->
  fst (cell_40_body s) = Raise e.
Proof.
  intros Hw [o4 H4] Hb Hd [o7 H7] [o8 H8] Hq.
  assert (Hm : fst (model_with_bias (fst xy) w b s) = Raise e).
  { unfold model_with_bias. apply bind_fst_Raise.
    destruct (quantum_model_spec (fst xy) w s) as (s' & _ & Hs).
    rewrite Hq in Hs. now rewrite Hs. }
  unfold cell_40_body. apply bind_fst_Raise. unfold assign_w_new.
  rewrite (bind_Ok _ _ _ _ _ (global_matrix_Some _ _ _ Hw)).
  rewrite (bind_Ok _ _ _ _ _ (global_Some _ _ _ H4)).
  rewrite (bind_Ok _ _ _ _ _ (global_scalar_Some _ _ _ Hb)).
  rewrite (bind_Ok _ _ _ _ _ (global_data_Some _ _ _ Hd)).
  unfold average_loss_names.
  rewrite !bind_assoc.
  rewrite (bind_Ok _ _ _ _ _ (global_Some _ _ _ H7)).
  rewrite bind_assoc.
  rewrite (bind_Ok _ _ _ _ _ (global_Some _ _ _ H8)).
  unfold bind at 1. destruct (globals s !! "loss") as [o9|].
  - apply bind_fst_Raise. rewrite gradient_fn_w_unfold.
    apply bind_fst_Raise. unfold average_loss. apply bind_fst_Raise.
    simpl. apply bind_fst_Raise. unfold accumulate. now apply bind_fst_Raise.
  - pose proof (bind_fst_Raise (model_with_bias (fst xy) w b)
                  (fun _ => @raise unit (NameError "loss")) s e Hm) as Hr.
    destruct (bind (model_with_bias (fst xy) w b) _ s) as [r s'].
    simpl in Hr. now rewrite Hr.
Qed.

(** *** The passes and the loops *)

Lemma cell_40_body_raises s w b data e :
  names_bound s w b data ->
  allocated s w b data ->
  descent_step 0.05 (data_values s data) (matrices s w, scalars s b) = Raise e \/
  (exists wb1,
     descent_step 0.05 (data_values s data) (matrices s w, scalars s b) = Ok wb1 /\
     objective (data_values s data) (fst wb1) (snd wb1) = Raise e) ->
  fst (cell_40_body s) = Raise e.
Proof.
  intros Hnames Hall [H|(wb1 & Hstep & Hobj)].
  - apply descent_step_Raise in H. simpl fst in H. simpl snd in H.
    destruct H as [H|(l & Hl & [Hgw|(gw & Hgw & Hgb)])].
    + apply (cell_40_body_raises_w s w b data e Hnames Hall). now left.
    + apply (cell_40_body_raises_w s w b data e Hnames Hall). right. now exists l.
    + exact (cell_40_body_raises_b s w b data l gw e Hnames Hall Hl Hgw Hgb).
  - destruct (descent_step_Ok _ _ _ _ Hstep) as (l & gw & gb & Hl & Hgw & Hgb & ->).
    simpl in Hl, Hgw, Hgb, Hobj. apply objective_Raise in Hobj.
    exact (cell_40_body_raises_print s w b data l gw gb e Hnames Hall Hl Hgw Hgb
             Hobj).
Qed.

Lemma for_range_cell_40_body_raises n : forall s w b data e,
  names_bound s w b data ->
  allocated s w b data ->
  hand_coded_descent n (data_values s data) (matrices s w, scalars s b)
  = Raise e ->
  fst (for_range n cell_40_body s) = Raise e.
Proof.
  induction n as [|n IH]; intros s w b data e Hnames Hall H; [discriminate|].
  cbn [hand_coded_descent] in H. simpl for_range.
  destruct (descent_step 0.05 (data_values s data) (matrices s w, scalars s b))
    as [wb1|e1] eqn:Hstep; cbn [result_bind] in H.
  - destruct (objective (data_values s data) (fst wb1) (snd wb1)) as [l1|e1]
      eqn:Hobj; cbn [result_bind] in H.
    + destruct (descent_step_Ok _ _ _ _ Hstep)
        as (l & gw & gb & Hl & Hgw & Hgb & ->).
      simpl in Hl, Hgw, Hgb, Hobj, H.
      destruct (objective_Ok _ _ _ _ Hobj) as (l' & Hl' & ->).
      destruct (cell_40_body_spec s w b data l gw gb l' Hnames Hall Hl Hgw Hgb
                  Hl')
        as (w1 & b1 & s1 & Hrun & _ & Hwv & _ & Hbv & Hst & _ & _ & _ & Hnames1
            & Hall1).
      destruct (arguments_store_extends _ _ _ _ _ Hst Hall) as (_ & _ & Ed).
      rewrite (bind_Ok _ _ _ _ _ Hrun).
      apply (IH s1 w1 b1 data e Hnames1 Hall1).
      rewrite Hwv, Hbv, Ed.
      destruct (hand_coded_descent n _ _) as [r|e2]; [discriminate|exact H].
    + injection H as ->. apply bind_fst_Raise.
      apply (cell_40_body_raises s w b data e Hnames Hall).
      right. now exists wb1.
  - injection H as ->. apply bind_fst_Raise.
    apply (cell_40_body_raises s w b data e Hnames Hall). now left.
Qed.

Lemma cell_42_body_raises s stepsize w b data e :
  globals s !! "opt" = Some (OOptimizer stepsize) ->
  names_bound s w b data ->
  allocated s w b data ->
  descent_step stepsize (data_values s data) (matrices s w, scalars s b)
  = Raise e ->
  fst (cell_42_body s) = Raise e.
Proof.
  intros Hopt (Hw & Hb & Hd & _ & _ & [o6 H6] & H7 & H8 & H9) Hall H.
  unfold cell_42_body.
  rewrite (bind_Ok _ _ _ _ _ (global_optimizer_Some _ _ _ Hopt)).
  rewrite (bind_Ok _ _ _ _ _ (global_matrix_Some _ _ _ Hw)).
  rewrite (bind_Ok _ _ _ _ _ (global_scalar_Some _ _ _ Hb)).
  rewrite (bind_Ok _ _ _ _ _ (global_Some _ _ _ H6)).
  rewrite (bind_Ok _ _ _ _ _ (global_data_Some _ _ _ Hd)).
  rewrite (bind_Ok _ _ _ _ _ (average_loss_names_bound _ _ _ _ H7 H8 H9)).
  apply bind_fst_Raise. now apply optimizer_step_raises.
Qed.

Lemma for_range_cell_42_body_raises n : forall s stepsize w b data e,
  globals s !! "opt" = Some (OOptimizer stepsize) ->
  names_bound s w b data ->
  allocated s w b data ->
  optimizer_descent n stepsize (data_values s data) (matrices s w, scalars s b)
  = Raise e ->
  fst (for_range n cell_42_body s) = Raise e.
Proof.
  induction n as [|n IH]; intros s stepsize w b data e Hopt Hnames Hall H;
    [discriminate|].
  cbn [optimizer_descent] in H. simpl for_range.
  destruct (objective (data_values s data) (fst (matrices s w, scalars s b))
              (snd (matrices s w, scalars s b))) as [l0|e0] eqn:Hobj;
    cbn [result_bind] in H.
  - destruct (descent_step stepsize (data_values s data)
                (matrices s w, scalars s b)) as [wb1|e1] eqn:Hstep;
      cbn [result_bind] in H.
    + destruct (descent_step_Ok _ _ _ _ Hstep)
        as (l & gw & gb & Hl & Hgw & Hgb & ->).
      simpl in Hl, Hgw, Hgb, H.
      destruct (cell_42_body_spec s stepsize w b data l gw gb Hopt Hnames Hall
                  Hl Hgw Hgb)
        as (w1 & b1 & s1 & Hrun & _ & Hwv & _ & Hbv & Hst & _ & Hopt1 & Hnames1
            & Hall1).
      destruct (arguments_store_extends _ _ _ _ _ Hst Hall) as (_ & _ & Ed).
      rewrite (bind_Ok _ _ _ _ _ Hrun).
      apply (IH s1 stepsize w1 b1 data e Hopt1 Hnames1 Hall1).
      rewrite Hwv, Hbv, Ed.
      destruct (optimizer_descent n _ _ _) as [r|e2]; [discriminate|exact H].
    + injection H as ->. apply bind_fst_Raise.
      exact (cell_42_body_raises s stepsize w b data e Hopt Hnames Hall Hstep).
  - injection H as ->. apply bind_fst_Raise.
    apply (cell_42_body_raises s stepsize w b data e Hopt Hnames Hall).
    unfold descent_step. now rewrite Hobj.
Qed.

(** *** The functions of cell 44 *)

Lemma average_loss_torch_names_bound w data s :
  is_Some (globals s !! "quantum_model") ->
  is_Some (globals s !! "loss") ->
  average_loss_torch_names w data s = (Ok tt, s).
Proof.
  intros [o1 H1] [o2 H2]. destruct data; [reflexivity|].
  unfold average_loss_torch_names.
  rewrite (bind_Ok _ _ _ _ _ (global_Some _ _ _ H1)).
  now rewrite H2.
Qed.

Lemma closure_from_average_loss s s1 w data :
  is_Some (globals s !! "opt") ->
  zero_grad s = (Ok tt, s1) ->
  torch_names_bound s1 w data ->
  closure s
  = bind (average_loss_torch w data)
         (fun l => do _ <- backward l ; ret l) s1.
Proof.
  intros [o Hopt] Hz (Hw & Hd & [o3 H3] & H4 & H5). unfold closure.
  rewrite (bind_Ok _ _ _ _ _ (global_Some _ _ _ Hopt)).
  rewrite (bind_Ok _ _ _ _ _ Hz).
  rewrite (bind_Ok _ _ _ _ _ (global_Some _ _ _ H3)).
  rewrite (bind_Ok _ _ _ _ _ (global_matrix_Some _ _ _ Hw)).
  rewrite (bind_Ok _ _ _ _ _ (global_data_Some _ _ _ Hd)).
  now rewrite (bind_Ok _ _ _ _ _ (average_loss_torch_names_bound _ _ _ H4 H5)).
Qed.

Lemma cell_44_body_from_average_loss s l0 s1 w data :
  is_Some (globals s !! "opt") ->
  is_Some (globals s !! "closure") ->
  opt_step closure s = (Ok l0, s1) ->
  torch_names_bound s1 w data ->
  cell_44_body s
  = bind (average_loss_torch w data)
         (fun l => do v <- read_pyval l ; print v) s1.
Proof.
  intros [o Hopt] [o' Hcl] Hstep (Hw & Hd & [o3 H3] & H4 & H5).
  unfold cell_44_body.
  rewrite (bind_Ok _ _ _ _ _ (global_Some _ _ _ Hopt)).
  rewrite (bind_Ok _ _ _ _ _ (global_Some _ _ _ Hcl)).
  rewrite (bind_Ok _ _ _ _ _ Hstep).
  rewrite (bind_Ok _ _ _ _ _ (global_Some _ _ _ H3)).
  rewrite (bind_Ok _ _ _ _ _ (global_matrix_Some _ _ _ Hw)).
  rewrite (bind_Ok _ _ _ _ _ (global_data_Some _ _ _ Hd)).
  now rewrite (bind_Ok _ _ _ _ _ (average_loss_torch_names_bound _ _ _ H4 H5)).
Qed.

Lemma average_loss_torch_raises w data1 xy data2 s e :
  (w < next s)%nat ->
  Forall (fun xy' => (fst xy' < next s)%nat /\ (snd xy' < next s)%nat)
         (data1 ++ xy :: data2) ->
  Forall (fun xy' => exists q,
            quantum_model_val (vectors s (fst xy')) (matrices s w) = Ok q)
         data1 ->
  quantum_model_val (vectors s (fst xy)) (matrices s w) = Raise e ->
  fst (average_loss_torch w (data1 ++ xy :: data2) s) = Raise e.
Proof.
  intros Hw Hd Hok Hq.
  pose proof (average_loss_torch_outcome w (data1 ++ xy :: data2) s Hw Hd) as Ho.
  assert (Hr : objective (data_values s (data1 ++ xy :: data2)) (matrices s w) 0
               = Raise e).
  { apply objective_Raise, average_loss_val_raises.
    - destruct data1; discriminate.
    - exists (data_values s data1), (vectors s (fst xy), scalars s (snd xy)),
        (data_values s data2).
      split; [apply data_values_app|]. split; [|exact Hq].
      apply (Forall_data_values (evaluates (matrices s w))). exact Hok. }
  rewrite Hr in Ho. unfold outcome in Ho.
  destruct (fst (average_loss_torch w (data1 ++ xy :: data2) s)); congruence.
Qed.

(** *** The cells *)

Lemma cell_40_raises rng s e :
  is_Some (globals s !! "np") ->
  is_Some (globals s !! "qml") ->
  is_Some (globals s !! "quantum_model") ->
  hand_coded_descent 15 (samples rng) (w_init rng, 0) = Raise e ->
  fst (cell_40 rng s) = Raise e.
Proof.
  intros Hnp Hqml Hqm H.
  destruct (cell_40_loop_entry rng s Hnp Hqml Hqm)
    as (s0 & w & b & data & Hcell & Hnames & Hall & Hd & Hw & Hb & _).
  rewrite Hcell. apply bind_fst_Raise.
  apply (for_range_cell_40_body_raises 15 s0 w b data e Hnames Hall).
  now rewrite Hd, Hw, Hb.
Qed.

Lemma cell_42_raises s w b data e :
  is_Some (globals s !! "qml") ->
  names_bound s w b data ->
  allocated s w b data ->
  optimizer_descent 15 0.05 (data_values s data) (matrices s w, scalars s b)
  = Raise e ->
  fst (cell_42 s) = Raise e.
Proof.
  intros [o Hqml] Hnames Hall H. unfold cell_42.
  unfold bind at 1, stdout_length at 1; cbv beta iota.
  rewrite (bind_Ok _ _ _ _ _ (global_Some _ _ _ Hqml)).
  unfold bind at 1, assign at 1; cbv beta iota.
  apply bind_fst_Raise.
  set (s1 := with_globals (<["opt" := OOptimizer 0.05]> (globals s)) s).
  apply (for_range_cell_42_body_raises 15 s1 0.05 w b data e);
    [apply lookup_insert_eq| |exact Hall|exact H].
  apply (names_bound_insert s s1 "opt" (OOptimizer 0.05));
    try discriminate; [reflexivity|exact Hnames].
Qed.

Lemma descent_step_raises stepsize dv wv bv e :
  average_loss_val wv bv dv = Raise e \/
  (exists l, average_loss_val wv bv dv = Ok l /\
     (qml_grad_argnum0 (objective dv) wv bv = Raise e \/
      exists gw, qml_grad_argnum0 (objective dv) wv bv = Ok gw /\
                 qml_grad_argnum1 (objective dv) wv bv = Raise e)) ->
  descent_step stepsize dv (wv, bv) = Raise e.
Proof.
  unfold descent_step. simpl fst. simpl snd.
  intros [H|(l & Hl & [Hgw|(gw & Hgw & Hgb)])].
  - apply objective_Raise in H. now rewrite H.
  - unfold objective at 1. rewrite Hl. simpl. now rewrite Hgw.
  - unfold objective at 1. rewrite Hl. simpl. rewrite Hgw. simpl. now rewrite Hgb.
Qed.

(** C3: an exception raised by a call into the library comes out of every
    function of the notebook unchanged; nothing catches or replaces it.
    - [quantum_model] raises what the templates or the measurement raise,
      [model_with_bias] what [quantum_model] raises, and [loss] calls
      nothing that raises.
    - [average_loss] raises what the model raises on the first sample on
      which it does.
    - The gradient functions and the optimizer's step raise what the forward
      pass of [average_loss] raises, and otherwise what [qml.grad] raises
      for either argument.
    - A pass of the hand-coded loop raises what any of its three statements
      meets: the loss or the gradient in [w] at the old pair, the gradient in
      [b], the loss at the new pair for [print]; an exception of the model
      on the first sample comes out even where [loss] is not bound.  A pass
      of the optimizer loop raises what the loss or either gradient raises.
    - [n] passes of a loop raise what the first failing call of the library
      raises, in whichever pass it is, and so do cells 40 and 42.
    - In cell 44, [average_loss] raises what the model raises on the first
      failing sample; [closure] raises what [opt.zero_grad()], [average_loss]
      or [loss.backward()] raises; the loop body raises what
      [opt.step(closure)] or [average_loss] raises. *)
Theorem library_errors_propagate :
  (forall x w s e,
     quantum_model_val (vectors s x) (matrices s w) = Raise e ->
     fst (quantum_model x w s) = Raise e) /\
  (forall x w b s e,
     fst (quantum_model x w s) = Raise e ->
     fst (model_with_bias x w b s) = Raise e) /\
  (forall a b s, exists l, fst (loss a b s) = Ok l) /\
  (forall w b data1 xy data2 s c s1 e,
     for_each data1 (PInt 0) (accumulate w b) s = (Ok c, s1) ->
     fst (model_with_bias (fst xy) w b s1) = Raise e ->
     fst (average_loss w b (data1 ++ xy :: data2) s) = Raise e) /\
  (forall w b data1 xy data2 s e,
     allocated s w b (data1 ++ xy :: data2) ->
     Forall (fun xy' => exists q,
               quantum_model_val (vectors s (fst xy')) (matrices s w) = Ok q)
            data1 ->
     quantum_model_val (vectors s (fst xy)) (matrices s w) = Raise e ->
     fst (average_loss w b (data1 ++ xy :: data2) s) = Raise e) /\
  (forall stepsize w b data s e,
     fst (average_loss w b data s) = Raise e ->
     fst (gradient_fn_w w b data s) = Raise e /\
     fst (gradient_fn_b w b data s) = Raise e /\
     fst (optimizer_step stepsize data w b s) = Raise e) /\
  (forall stepsize w b data s v s1 e,
     average_loss w b data s = (Ok v, s1) ->
     (qml_grad_argnum0 (objective (data_values s data)) (matrices s w)
                       (scalars s b) = Raise e ->
      fst (gradient_fn_w w b data s) = Raise e /\
      fst (optimizer_step stepsize data w b s) = Raise e) /\
     (qml_grad_argnum1 (objective (data_values s data)) (matrices s w)
                       (scalars s b) = Raise e ->
      fst (gradient_fn_b w b data s) = Raise e /\
      forall gw,
        qml_grad_argnum0 (objective (data_values s data)) (matrices s w)
                         (scalars s b) = Ok gw ->
        fst (optimizer_step stepsize data w b s) = Raise e)) /\
  (forall s w b data e,
     names_bound s w b data ->
     allocated s w b data ->
     (average_loss_val (matrices s w) (scalars s b) (data_values s data)
      = Raise e ->
      fst (cell_40_body s) = Raise e) /\
     (forall l,
        average_loss_val (matrices s w) (scalars s b) (data_values s data)
        = Ok l ->
        qml_grad_argnum0 (objective (data_values s data)) (matrices s w)
                         (scalars s b) = Raise e ->
        fst (cell_40_body s) = Raise e) /\
     (forall l gw,
        average_loss_val (matrices s w) (scalars s b) (data_values s data)
        = Ok l ->
        qml_grad_argnum0 (objective (data_values s data)) (matrices s w)
                         (scalars s b) = Ok gw ->
        qml_grad_argnum1 (objective (data_values s data)) (matrices s w)
                         (scalars s b) = Raise e ->
        fst (cell_40_body s) = Raise e) /\
     (forall l gw gb,
        average_loss_val (matrices s w) (scalars s b) (data_values s data)
        = Ok l ->
        qml_grad_argnum0 (objective (data_values s data)) (matrices s w)
                         (scalars s b) = Ok gw ->
        qml_grad_argnum1 (objective (data_values s data)) (matrices s w)
                         (scalars s b) = Ok gb ->
        average_loss_val (mat_sub (matrices s w) (mat_scale 0.05 gw))
                         (scalars s b - 0.05 * gb) (data_values s data)
        = Raise e ->
        fst (cell_40_body s) = Raise e)) /\
  (forall s w b xy data e,
     globals s !! "w" = Some (OMatrix w) ->
     is_Some (globals s !! "gradient_fn_w") ->
     globals s !! "b" = Some (OScalar b) ->
     globals s !! "data" = Some (OData (xy :: data)) ->
     is_Some (globals s !! "model_with_bias") ->
     is_Some (globals s !! "quantum_model") ->
     quantum_model_val (vectors s (fst xy)) (matrices s w) = Raise e ->
     fst (cell_40_body s) = Raise e) /\
  (forall s stepsize w b data e,
     globals s !! "opt" = Some (OOptimizer stepsize) ->
     names_bound s w b data ->
     allocated s w b data ->
     (average_loss_val (matrices s w) (scalars s b) (data_values s data)
      = Raise e ->
      fst (cell_42_body s) = Raise e) /\
     (forall l,
        average_loss_val (matrices s w) (scalars s b) (data_values s data)
        = Ok l ->
        qml_grad_argnum0 (objective (data_values s data)) (matrices s w)
                         (scalars s b) = Raise e ->
        fst (cell_42_body s) = Raise e) /\
     (forall l gw,
        average_loss_val (matrices s w) (scalars s b) (data_values s data)
        = Ok l ->
        qml_grad_argnum0 (objective (data_values s data)) (matrices s w)
                         (scalars s b) = Ok gw ->
        qml_grad_argnum1 (objective (data_values s data)) (matrices s w)
                         (scalars s b) = Raise e ->
        fst (cell_42_body s) = Raise e)) /\
  (forall n s w b data e,
     names_bound s w b data ->
     allocated s w b data ->
     hand_coded_descent n (data_values s data) (matrices s w, scalars s b)
     = Raise e ->
     fst (for_range n cell_40_body s) = Raise e) /\
  (forall n s stepsize w b data e,
     globals s !! "opt" = Some (OOptimizer stepsize) ->
     names_bound s w b data ->
     allocated s w b data ->
     optimizer_descent n stepsize (data_values s data)
                       (matrices s w, scalars s b) = Raise e ->
     fst (for_range n cell_42_body s) = Raise e) /\
  (forall body n k s sk e,
     (k < n)%nat ->
     for_range k body s = (Ok tt, sk) ->
     fst (body sk) = Raise e ->
     fst (for_range n body s) = Raise e) /\
  (forall rng s e,
     is_Some (globals s !! "np") ->
     is_Some (globals s !! "qml") ->
     is_Some (globals s !! "quantum_model") ->
     hand_coded_descent 15 (samples rng) (w_init rng, 0) = Raise e ->
     fst (cell_40 rng s) = Raise e) /\
  (forall s w b data e,
     is_Some (globals s !! "qml") ->
     names_bound s w b data ->
     allocated s w b data ->
     optimizer_descent 15 0.05 (data_values s data) (matrices s w, scalars s b)
     = Raise e ->
     fst (cell_42 s) = Raise e) /\
  (forall w data1 xy data2 s e,
     (w < next s)%nat ->
     Forall (fun xy' => (fst xy' < next s)%nat /\ (snd xy' < next s)%nat)
            (data1 ++ xy :: data2) ->
     Forall (fun xy' => exists q,
               quantum_model_val (vectors s (fst xy')) (matrices s w) = Ok q)
            data1 ->
     quantum_model_val (vectors s (fst xy)) (matrices s w) = Raise e ->
     fst (average_loss_torch w (data1 ++ xy :: data2) s) = Raise e) /\
  (forall s e,
     is_Some (globals s !! "opt") ->
     fst (zero_grad s) = Raise e ->
     fst (closure s) = Raise e) /\
  (forall s s1 w data e,
     is_Some (globals s !! "opt") ->
     zero_grad s = (Ok tt, s1) ->
     torch_names_bound s1 w data ->
     (fst (average_loss_torch w data s1) = Raise e ->
      fst (closure s) = Raise e) /\
     (forall l s2,
        average_loss_torch w data s1 = (Ok l, s2) ->
        fst (backward l s2) = Raise e ->
        fst (closure s) = Raise e)) /\
  (forall s e,
     is_Some (globals s !! "opt") ->
     is_Some (globals s !! "closure") ->
     fst (opt_step closure s) = Raise e ->
     fst (cell_44_body s) = Raise e) /\
  (forall s l0 s1 w data e,
     is_Some (globals s !! "opt") ->
     is_Some (globals s !! "closure") ->
     opt_step closure s = (Ok l0, s1) ->
     torch_names_bound s1 w data ->
     fst (average_loss_torch w data s1) = Raise e ->
     fst (cell_44_body s) = Raise e).
Proof.
  repeat apply conj.
  - intros x w s e H. destruct (quantum_model_spec x w s) as (s' & _ & Hq).
    rewrite H in Hq. now rewrite Hq.
  - intros x w b s e H. unfold model_with_bias. now apply bind_fst_Raise.
  - intros a b s. destruct (loss_spec a b s) as (l & s' & -> & _). eauto.
  - intros w b data1 xy data2 s c s1 e Hpre Hm. unfold average_loss.
    apply bind_fst_Raise. rewrite for_each_app, (bind_Ok _ _ _ _ _ Hpre).
    simpl. apply bind_fst_Raise. unfold accumulate.
    now apply bind_fst_Raise.
  - intros w b data1 xy data2 s e Hall Hok Hq.
    apply (average_loss_raises _ _ _ _ _ Hall).
    apply average_loss_val_raises; [destruct data1; discriminate|].
    exists (data_values s data1), (vectors s (fst xy), scalars s (snd xy)),
      (data_values s data2).
    split; [apply data_values_app|]. split; [|exact Hq].
    apply (Forall_data_values (evaluates (matrices s w))). exact Hok.
  - intros stepsize w b data s e H.
    rewrite gradient_fn_w_unfold, gradient_fn_b_unfold, optimizer_step_unfold.
    repeat split; now apply bind_fst_Raise.
  - intros stepsize w b data s v s1 e H.
    rewrite gradient_fn_w_unfold, gradient_fn_b_unfold, optimizer_step_unfold.
    rewrite !(bind_Ok _ _ _ _ _ H).
    split; intros Hg; rewrite Hg.
    + split; reflexivity.
    + split; [reflexivity|]. intros gw ->. reflexivity.
  - intros s w b data e Hnames Hall. repeat apply conj.
    + intros H. apply (cell_40_body_raises_w s w b data e Hnames Hall).
      now left.
    + intros l Hl Hg. apply (cell_40_body_raises_w s w b data e Hnames Hall).
      right. now exists l.
    + intros l gw. apply cell_40_body_raises_b; assumption.
    + intros l gw gb. apply cell_40_body_raises_print; assumption.
  - exact cell_40_body_raises_first_sample.
  - intros s stepsize w b data e Hopt Hnames Hall. repeat apply conj.
    + intros H. apply (cell_42_body_raises s stepsize w b data e Hopt Hnames Hall).
      apply descent_step_raises. now left.
    + intros l Hl Hg.
      apply (cell_42_body_raises s stepsize w b data e Hopt Hnames Hall).
      apply descent_step_raises. right. exists l. split; [exact Hl|now left].
    + intros l gw Hl Hgw Hgb.
      apply (cell_42_body_raises s stepsize w b data e Hopt Hnames Hall).
      apply descent_step_raises. right. exists l. split; [exact Hl|].
      right. now exists gw.
  - intros n. apply for_range_cell_40_body_raises.
  - intros n. apply for_range_cell_42_body_raises.
  - intros body. apply for_range_raises.
  - exact cell_40_raises.
  - exact cell_42_raises.
  - exact average_loss_torch_raises.
  - intros s e [o Hopt] H. unfold closure.
    rewrite (bind_Ok _ _ _ _ _ (global_Some _ _ _ Hopt)).
    now apply bind_fst_Raise.
  - intros s s1 w data e Hopt Hz Hnames.
    rewrite (closure_from_average_loss s s1 w data Hopt Hz Hnames). split.
    + intros H. now apply bind_fst_Raise.
    + intros l s2 Hl Hb. rewrite (bind_Ok _ _ _ _ _ Hl).
      now apply bind_fst_Raise.
  - intros s e [o Hopt] [o' Hcl] H. unfold cell_44_body.
    rewrite (bind_Ok _ _ _ _ _ (global_Some _ _ _ Hopt)).
    rewrite (bind_Ok _ _ _ _ _ (global_Some _ _ _ Hcl)).
    now apply bind_fst_Raise.
  - intros s l0 s1 w data e Hopt Hcl Hstep Hnames H.
    rewrite (cell_44_body_from_average_loss s l0 s1 w data Hopt Hcl Hstep
               Hnames).
    now apply bind_fst_Raise.
Qed.

End Notebook.

(** * The properties at concrete inputs

    The theorems of the section, applied to [TrivialLibrary] and its
    sessions, and the inputs at which two statements about the notebook
    fail. *)

Import TrivialLibrary.

Lemma session_allocated : allocated session w0 b0 data0.
Proof.
  unfold allocated, data0, w0, b0, x0, y0. simpl.
  split; [lia|split; [lia|]].
  constructor; [simpl; lia|constructor].
Defined.

Lemma session'_allocated : allocated session' w0 b0 data0.
Proof.
  unfold allocated, data0, w0, b0, x0, y0. simpl.
  split; [lia|split; [lia|]].
  constructor; [simpl; lia|constructor].
Defined.

Lemma model_with_bias_is_quantum_model_plus_b_witness :
  (b0 < next session)%nat /\
  match quantum_model AngleEmbedding BasicEntanglerLayers expval_PauliZ x0 w0 session with
  | (Raise e, s1) =>
      model_with_bias AngleEmbedding BasicEntanglerLayers expval_PauliZ x0 w0 b0 session
      = (Raise e, s1)
  | (Ok q, s1) =>
      exists l s',
        model_with_bias AngleEmbedding BasicEntanglerLayers expval_PauliZ x0 w0 b0 session
        = (Ok l, s') /\
        scalars s' l = scalars s1 q + scalars session b0 /\
        (scalars session b0 = 0 -> scalars s' l = scalars s1 q)
  end.
Proof.
  assert (Hb : (b0 < next session)%nat) by (unfold b0; simpl; lia).
  split; [exact Hb|].
  exact (model_with_bias_is_quantum_model_plus_b
           AngleEmbedding BasicEntanglerLayers expval_PauliZ x0 w0 b0 session Hb).
Defined.

Lemma loss_nonneg_sym_average_loss_nonneg_witness :
  exists v s',
    average_loss AngleEmbedding BasicEntanglerLayers expval_PauliZ w0 b0 data0
                 session = (Ok v, s') /\
    0 <= value_of s' v.
Proof.
  apply (proj2 (loss_nonneg_sym_average_loss_nonneg
                  AngleEmbedding BasicEntanglerLayers expval_PauliZ)).
  - discriminate.
  - exact session_allocated.
  - constructor; [|constructor]. exists 1. reflexivity.
Defined.

Lemma evaluation_deterministic_witness :
  outcome value_of
    (average_loss AngleEmbedding BasicEntanglerLayers expval_PauliZ w0 b0
                  data0 session)
  = outcome value_of
      (average_loss AngleEmbedding BasicEntanglerLayers expval_PauliZ w0 b0
                    data0 session').
Proof.
  apply (proj1 (proj2 (evaluation_deterministic
                         AngleEmbedding BasicEntanglerLayers expval_PauliZ))).
  - exact session_allocated.
  - exact session'_allocated.
  - reflexivity.
  - reflexivity.
  - reflexivity.
Defined.

Lemma functions_keep_tensors_and_write_device_witness :
  extends session
    (snd (average_loss AngleEmbedding BasicEntanglerLayers expval_PauliZ w0 b0
                       data0 session)) /\
  dev_state (snd (quantum_model AngleEmbedding BasicEntanglerLayers expval_PauliZ
                                x0 w0 session)) = ket00.
Proof.
  pose proof (functions_keep_tensors_and_write_device
                AngleEmbedding BasicEntanglerLayers expval_PauliZ)
    as (_ & _ & _ & Hframe & Hdev).
  split.
  - apply (Hframe w0 b0 data0 session session_allocated).
  - apply (Hdev x0 w0 session ket00). reflexivity.
Defined.

Lemma session_bound_names : names_bound session_bound w0 b0 data0.
Proof.
  unfold names_bound. repeat split; try reflexivity; eexists; reflexivity.
Defined.

Lemma session_bound_allocated : allocated session_bound w0 b0 data0.
Proof. exact session_allocated. Defined.

Lemma training_pass_simultaneous_update_witness :
  names_bound session_bound w0 b0 data0 /\
  allocated session_bound w0 b0 data0 /\
  exists w_new b_new s',
    cell_40_body AngleEmbedding BasicEntanglerLayers expval_PauliZ
                 qml_grad_argnum0 qml_grad_argnum1 session_bound
    = (Ok tt, s') /\
    globals s' !! "w" = Some (OMatrix w_new) /\
    matrices s' w_new = mat_sub [[0; 0]] (mat_scale 0.05 [[0; 0]]) /\
    globals s' !! "b" = Some (OScalar b_new) /\
    matrices s' w0 = [[0; 0]] /\ scalars s' b0 = 0.
Proof.
  split; [exact session_bound_names|]. split; [exact session_bound_allocated|].
  edestruct (training_pass_simultaneous_update
               AngleEmbedding BasicEntanglerLayers expval_PauliZ
               qml_grad_argnum0 qml_grad_argnum1 session_bound w0 b0 data0)
    as (w_new & b_new & s' & Hrun & Hw & Hwv & Hb & _ & Hw0 & Hb0 & _).
  - exact session_bound_names.
  - exact session_bound_allocated.
  - reflexivity.
  - reflexivity.
  - reflexivity.
  - reflexivity.
  - exists w_new, b_new, s'. repeat split; assumption.
Defined.

Lemma hand_coded_pass_is_optimizer_pass_witness :
  globals session_bound !! "opt" = Some (OOptimizer 0.05) /\
  exists w1 b1 s1 w2 b2 s2,
    cell_40_body AngleEmbedding BasicEntanglerLayers expval_PauliZ
                 qml_grad_argnum0 qml_grad_argnum1 session_bound
    = (Ok tt, s1) /\
    cell_42_body AngleEmbedding BasicEntanglerLayers expval_PauliZ
                 qml_grad_argnum0 qml_grad_argnum1 session_bound
    = (Ok tt, s2) /\
    globals s1 !! "w" = Some (OMatrix w1) /\
    globals s2 !! "w" = Some (OMatrix w2) /\
    matrices s2 w2 = matrices s1 w1 /\
    globals s1 !! "b" = Some (OScalar b1) /\
    globals s2 !! "b" = Some (OScalar b2) /\
    scalars s2 b2 = scalars s1 b1.
Proof.
  split; [reflexivity|].
  eapply (hand_coded_pass_is_optimizer_pass
            AngleEmbedding BasicEntanglerLayers expval_PauliZ
            qml_grad_argnum0 qml_grad_argnum1 session_bound w0 b0 data0).
  - reflexivity.
  - exact session_bound_names.
  - exact session_bound_allocated.
  - reflexivity.
  - reflexivity.
  - reflexivity.
  - reflexivity.
Defined.

Lemma cells_read_the_session_witness :
  globals fresh !! "dev" = None /\
  run_cell AngleEmbedding BasicEntanglerLayers expval_PauliZ
           qml_grad_argnum0 qml_grad_argnum1 CellDevState fresh
  = (Raise (NameError "dev"), fresh) /\
  run_cell AngleEmbedding BasicEntanglerLayers expval_PauliZ
           qml_grad_argnum0 qml_grad_argnum1 Cell42 fresh
  = (Raise (NameError "qml"), fresh).
Proof.
  pose proof (cells_read_the_session
                AngleEmbedding BasicEntanglerLayers expval_PauliZ
                qml_grad_argnum0 qml_grad_argnum1)
    as (Hdev & _ & _ & _ & Hqml & _).
  split; [reflexivity|]. split.
  - apply Hdev. reflexivity.
  - apply Hqml. reflexivity.
Defined.

(** ** Where the notebook differs from what is said of it *)

Lemma session_with_U_dev_state : dev_state session_with_U = ket00.
Proof. reflexivity. Qed.

(** C4 fails for the quantum nodes: [circuit()] of cell 14, evaluated with
    the device in |00>, leaves the device in [U]|00>, which [dev.state]
    shows afterwards. *)
Lemma circuit_14_writes_device_state : ~ writes_no_state circuit_14.
Proof.
  intros H.
  destruct (H session_with_U) as [_ Hdev].
  rewrite session_with_U_dev_state in Hdev.
  change (map (fun row => dot row ket00) U = ket00) in Hdev.
  rewrite U_ket00 in Hdev. unfold ket00 in Hdev.
  injection Hdev as H0 _. lra.
Qed.

(** C6 fails for [dev.state] and for the optimizer cell.  After the empty
    circuit [dev.state] shows |00>, after the circuit applying [U] it shows
    [U]|00>; the optimizer cell stops at [qml] in a fresh kernel and at [w]
    once the imports have run. *)
Lemma dev_state_and_optimizer_cells_not_independent :
  ~ independent AngleEmbedding BasicEntanglerLayers expval_PauliZ
                qml_grad_argnum0 qml_grad_argnum1 CellDevState /\
  ~ independent AngleEmbedding BasicEntanglerLayers expval_PauliZ
                qml_grad_argnum0 qml_grad_argnum1 Cell42.
Proof.
  split; intros H.
  - specialize (H [Cell2; Cell5; Cell10] [Cell2; Cell5; Cell10; Cell14]).
    change (Ok (DState ket00)
            = Ok (DState (map (fun row => dot row ket00) U))) in H.
    rewrite U_ket00 in H. unfold ket00 in H.
    injection H as H0 _. lra.
  - specialize (H [] [Cell2]).
    change (@Raise display (NameError "qml") = Raise (NameError "w")) in H.
    discriminate.
Qed.

(** The library errors at concrete inputs: a sample of three features in
    second place, a [qml.grad] that raises for the bias, a template that
    rejects the updated weights. *)
Lemma session3_allocated : allocated session3_bound w0 b0 data3.
Proof.
  unfold allocated, data3, w0, b0, x0, y0, x3. simpl.
  split; [lia|split; [lia|]].
  constructor; [simpl; lia|constructor; [simpl; lia|constructor]].
Defined.

Lemma session3_names : names_bound session3_bound w0 b0 data3.
Proof.
  unfold names_bound. repeat split; try reflexivity; eexists; reflexivity.
Defined.

Lemma session3_torch_names : torch_names_bound session3_bound w0 data3.
Proof.
  unfold torch_names_bound. repeat split; try reflexivity; eexists; reflexivity.
Defined.

Lemma fragile_loss_at_start :
  exists l,
    average_loss_val AngleEmbedding FragileLayers expval_PauliZ
      (matrices session_bound w0) (scalars session_bound b0)
      (data_values session_bound data0) = Ok l.
Proof.
  unfold average_loss_val, data_values, data0. simpl.
  unfold accumulate_val, model_with_bias_val, quantum_model_val. simpl.
  unfold FragileLayers. destruct (Req_dec_T 0 0) as [_|N]; [|contradiction].
  simpl. eexists. reflexivity.
Qed.

Lemma fragile_loss_after_a_step :
  average_loss_val AngleEmbedding FragileLayers expval_PauliZ
    (mat_sub (matrices session_bound w0) (mat_scale 0.05 [[1; 1]]))
    (scalars session_bound b0 - 0.05 * 0)
    (data_values session_bound data0) = Raise weights_rejected.
Proof.
  unfold average_loss_val, data_values, data0. simpl.
  unfold accumulate_val, model_with_bias_val, quantum_model_val. simpl.
  unfold FragileLayers. destruct (Req_dec_T (0 - 0.05 * 1) 0) as [E|_]; [lra|].
  reflexivity.
Qed.

Lemma library_errors_propagate_witness :
  fst (quantum_model AngleEmbedding BasicEntanglerLayers expval_PauliZ x3 w0
                     session3)
  = Raise (too_many_features 3) /\
  fst (model_with_bias AngleEmbedding BasicEntanglerLayers expval_PauliZ x3 w0 b0
                       session3)
  = Raise (too_many_features 3) /\
  fst (average_loss AngleEmbedding BasicEntanglerLayers expval_PauliZ w0 b0
                    data3 session3_bound)
  = Raise (too_many_features 3) /\
  fst (cell_40_body AngleEmbedding BasicEntanglerLayers expval_PauliZ
                    qml_grad_argnum0 qml_grad_argnum1 session3_bound)
  = Raise (too_many_features 3) /\
  fst (cell_40_body AngleEmbedding BasicEntanglerLayers expval_PauliZ
                    qml_grad_argnum0 failing_grad_argnum1 session_bound)
  = Raise not_differentiable /\
  fst (cell_40_body AngleEmbedding FragileLayers expval_PauliZ
                    ones_grad_argnum0 flat_grad_argnum1 session_bound)
  = Raise weights_rejected /\
  fst (cell_42_body AngleEmbedding BasicEntanglerLayers expval_PauliZ
                    qml_grad_argnum0 failing_grad_argnum1 session_bound)
  = Raise not_differentiable /\
  fst (for_range 15 (cell_40_body AngleEmbedding BasicEntanglerLayers
                                  expval_PauliZ qml_grad_argnum0
                                  qml_grad_argnum1) session3_bound)
  = Raise (too_many_features 3) /\
  fst (closure AngleEmbedding BasicEntanglerLayers expval_PauliZ zero_grad
               backward session3_bound)
  = Raise (too_many_features 3) /\
  fst (cell_44_body AngleEmbedding BasicEntanglerLayers expval_PauliZ zero_grad
                    backward opt_step session3_bound)
  = Raise (too_many_features 3).
Proof.
  pose proof (library_errors_propagate
                AngleEmbedding BasicEntanglerLayers expval_PauliZ
                qml_grad_argnum0 qml_grad_argnum1 zero_grad backward opt_step)
    as (Hq & Hm & _ & _ & Ha & _ & _ & Hpass & _ & _ & Hloop & _ & _ & _ & _
        & Htorch & _ & Hclosure & Hstep & _).
  pose proof (library_errors_propagate
                AngleEmbedding BasicEntanglerLayers expval_PauliZ
                qml_grad_argnum0 failing_grad_argnum1 zero_grad backward
                opt_step)
    as (_ & _ & _ & _ & _ & _ & _ & Hpass_b & _ & Hopt_b & _).
  pose proof (library_errors_propagate
                AngleEmbedding FragileLayers expval_PauliZ
                ones_grad_argnum0 flat_grad_argnum1 zero_grad backward
                opt_step)
    as (_ & _ & _ & _ & _ & _ & _ & Hpass_p & _).
  assert (H1 : fst (quantum_model AngleEmbedding BasicEntanglerLayers
                                  expval_PauliZ x3 w0 session3)
               = Raise (too_many_features 3)).
  { apply Hq. reflexivity. }
  assert (H3 : fst (average_loss AngleEmbedding BasicEntanglerLayers
                                 expval_PauliZ w0 b0 data3 session3_bound)
               = Raise (too_many_features 3)).
  { apply (Ha w0 b0 [(x0, y0)] (x3, y0) [] session3_bound).
    - exact session3_allocated.
    - constructor; [exists 1; reflexivity|constructor].
    - reflexivity. }
  assert (H9 : fst (average_loss_torch AngleEmbedding BasicEntanglerLayers
                                       expval_PauliZ w0 data3 session3_bound)
               = Raise (too_many_features 3)).
  { apply (Htorch w0 [(x0, y0)] (x3, y0) [] session3_bound).
    - apply session3_allocated.
    - apply session3_allocated.
    - constructor; [exists 1; reflexivity|constructor].
    - reflexivity. }
  repeat apply conj.
  - exact H1.
  - apply Hm. exact H1.
  - exact H3.
  - apply (proj1 (Hpass session3_bound w0 b0 data3 (too_many_features 3)
                    session3_names session3_allocated)).
    reflexivity.
  - eapply (proj1 (proj2 (proj2 (Hpass_b session_bound w0 b0 data0
                                   not_differentiable session_bound_names
                                   session_bound_allocated)))).
    + reflexivity.
    + reflexivity.
    + reflexivity.
  - destruct fragile_loss_at_start as [l Hl].
    eapply (proj2 (proj2 (proj2 (Hpass_p session_bound w0 b0 data0
                                   weights_rejected session_bound_names
                                   session_bound_allocated)))).
    + exact Hl.
    + reflexivity.
    + reflexivity.
    + exact fragile_loss_after_a_step.
  - eapply (proj2 (proj2 (Hopt_b session_bound 0.05 w0 b0 data0
                            not_differentiable eq_refl session_bound_names
                            session_bound_allocated))).
    + reflexivity.
    + reflexivity.
    + reflexivity.
  - apply (Hloop 15%nat session3_bound w0 b0 data3 (too_many_features 3)
             session3_names session3_allocated).
    reflexivity.
  - apply (proj1 (Hclosure session3_bound session3_bound w0 data3
                    (too_many_features 3) ltac:(eexists; reflexivity) eq_refl
                    session3_torch_names)).
    exact H9.
  - apply (Hstep session3_bound (too_many_features 3)).
    + eexists. reflexivity.
    + eexists. reflexivity.
    + apply (proj1 (Hclosure session3_bound session3_bound w0 data3
                      (too_many_features 3) ltac:(eexists; reflexivity) eq_refl
                      session3_torch_names)).
      exact H9.
Defined.

(** ** The further properties at concrete inputs *)

Lemma session2_allocated : allocated session2 w0 b0 data2.
Proof.
  unfold allocated, data2, w0, b0, x0, y0, x2, y2. simpl.
  split; [lia|split; [lia|]].
  constructor; [simpl; lia|constructor; [simpl; lia|constructor]].
Defined.

Lemma average_loss_is_mean_squared_error_witness :
  exists v s',
    average_loss AngleEmbedding BasicEntanglerLayers expval_PauliZ w0 b0 data0
                 session = (Ok v, s') /\
    value_of s' v = mean_squared_error [1 + 0] [1].
Proof.
  apply (average_loss_is_mean_squared_error
           AngleEmbedding BasicEntanglerLayers expval_PauliZ w0 b0 data0
           session [1]).
  - discriminate.
  - exact session_allocated.
  - constructor; [reflexivity|constructor].
Defined.

Lemma average_loss_raises_what_the_first_failing_sample_raises_witness :
  fst (average_loss AngleEmbedding BasicEntanglerLayers expval_PauliZ w0 b0
                    data3 session3_bound)
  = Raise (too_many_features 3).
Proof.
  apply (average_loss_raises_what_the_first_failing_sample_raises
           AngleEmbedding BasicEntanglerLayers expval_PauliZ w0 b0
           data3 session3_bound).
  - discriminate.
  - exact session3_allocated.
  - exists [(x0, y0)], (x3, y0), []. split; [reflexivity|].
    split; [|reflexivity].
    constructor; [exists 1; reflexivity|constructor].
Defined.



Lemma hand_coded_loop_is_gradient_descent_witness :
  exists wv' bv' ls w' b' s',
    for_range 2 (cell_40_body AngleEmbedding BasicEntanglerLayers expval_PauliZ
                              qml_grad_argnum0 qml_grad_argnum1) session_bound
    = (Ok tt, s') /\
    globals s' !! "w" = Some (OMatrix w') /\ matrices s' w' = wv' /\
    globals s' !! "b" = Some (OScalar b') /\ scalars s' b' = bv' /\
    stdout s' = stdout session_bound ++ ls /\ length ls = 2%nat.
Proof.
  eexists _, _, _.
  eapply (hand_coded_loop_is_gradient_descent
            AngleEmbedding BasicEntanglerLayers expval_PauliZ
            qml_grad_argnum0 qml_grad_argnum1 2 session_bound w0 b0 data0).
  - exact session_bound_names.
  - exact session_bound_allocated.
  - reflexivity.
Defined.

Lemma optimizer_loop_is_gradient_descent_witness :
  exists wv' bv' ls w' b' s',
    for_range 2 (cell_42_body AngleEmbedding BasicEntanglerLayers expval_PauliZ
                              qml_grad_argnum0 qml_grad_argnum1) session_bound
    = (Ok tt, s') /\
    globals s' !! "w" = Some (OMatrix w') /\ matrices s' w' = wv' /\
    globals s' !! "b" = Some (OScalar b') /\ scalars s' b' = bv' /\
    stdout s' = stdout session_bound ++ ls /\ length ls = 2%nat.
Proof.
  eexists _, _, _.
  eapply (optimizer_loop_is_gradient_descent
            AngleEmbedding BasicEntanglerLayers expval_PauliZ
            qml_grad_argnum0 qml_grad_argnum1 2 session_bound 0.05 w0 b0 data0).
  - reflexivity.
  - exact session_bound_names.
  - exact session_bound_allocated.
  - reflexivity.
Defined.

Lemma training_loops_reach_the_same_pair_witness :
  exists w1 b1 s1 w2 b2 s2,
    for_range 2 (cell_40_body AngleEmbedding BasicEntanglerLayers expval_PauliZ
                              qml_grad_argnum0 qml_grad_argnum1) session_bound
    = (Ok tt, s1) /\
    for_range 2 (cell_42_body AngleEmbedding BasicEntanglerLayers expval_PauliZ
                              qml_grad_argnum0 qml_grad_argnum1) session_bound
    = (Ok tt, s2) /\
    globals s1 !! "w" = Some (OMatrix w1) /\
    globals s2 !! "w" = Some (OMatrix w2) /\
    matrices s2 w2 = matrices s1 w1 /\
    globals s1 !! "b" = Some (OScalar b1) /\
    globals s2 !! "b" = Some (OScalar b2) /\
    scalars s2 b2 = scalars s1 b1.
Proof.
  edestruct (training_loops_reach_the_same_pair
               AngleEmbedding BasicEntanglerLayers expval_PauliZ
               qml_grad_argnum0 qml_grad_argnum1 1 session_bound w0 b0 data0)
    as (w1 & b1 & s1 & w2 & b2 & s2 & l0 & H1 & H2 & Hw1 & Hw2 & Hwv & Hb1 & Hb2
        & Hbv & _).
  - reflexivity.
  - exact session_bound_names.
  - exact session_bound_allocated.
  - reflexivity.
  - exists w1, b1, s1, w2, b2, s2. repeat split; assumption.
Defined.

(** With the stand-in library the model evaluates on every sample of at
    most two features, so the objective has a value at every pair, and with
    gradients that vanish every step of gradient descent goes through. *)
Lemma two_features_evaluate dv wv :
  Forall (fun xy => (length (fst xy) <= 2)%nat) dv ->
  Forall (evaluates AngleEmbedding BasicEntanglerLayers expval_PauliZ wv) dv.
Proof.
  intros Hd. eapply Forall_impl; [exact Hd|]. intros xy Hl. exists 1.
  unfold quantum_model_val, AngleEmbedding, BasicEntanglerLayers,
    expval_PauliZ.
  cbn [apply_gates result_bind]. cbv beta in Hl.
  destruct (Nat.leb_spec (length (fst xy)) 2); [reflexivity|].
  unfold vector in *. lia.
Qed.

Lemma two_features_objective dv wv bv :
  dv <> [] ->
  Forall (fun xy => (length (fst xy) <= 2)%nat) dv ->
  exists r,
    objective AngleEmbedding BasicEntanglerLayers expval_PauliZ dv wv bv = Ok r.
Proof.
  intros Hne Hd. unfold objective.
  rewrite (average_loss_val_mean AngleEmbedding BasicEntanglerLayers
             expval_PauliZ wv bv dv Hne (two_features_evaluate dv wv Hd)).
  eexists. reflexivity.
Qed.

Lemma flat_descent_step dv stepsize wb :
  dv <> [] ->
  Forall (fun xy => (length (fst xy) <= 2)%nat) dv ->
  exists wb',
    descent_step AngleEmbedding BasicEntanglerLayers expval_PauliZ
                 flat_grad_argnum0 flat_grad_argnum1 stepsize dv wb
    = Ok wb'.
Proof.
  intros Hne Hd. unfold descent_step.
  destruct (two_features_objective dv (fst wb) (snd wb) Hne Hd) as [r ->].
  eexists. reflexivity.
Qed.

Lemma flat_hand_coded_descent dv n :
  dv <> [] ->
  Forall (fun xy => (length (fst xy) <= 2)%nat) dv ->
  forall wb,
  exists wb' ls,
    hand_coded_descent AngleEmbedding BasicEntanglerLayers expval_PauliZ
                       flat_grad_argnum0 flat_grad_argnum1 n dv wb
    = Ok (wb', ls).
Proof.
  intros Hne Hd. induction n as [|n IH]; intros wb.
  - eexists _, _. reflexivity.
  - cbn [hand_coded_descent].
    destruct (flat_descent_step dv 0.05 wb Hne Hd) as [wb1 ->].
    cbn [result_bind].
    destruct (two_features_objective dv (fst wb1) (snd wb1) Hne Hd) as [l1 ->].
    cbn [result_bind].
    destruct (IH wb1) as (wb' & ls & ->).
    eexists _, _. reflexivity.
Qed.

Lemma flat_optimizer_descent dv stepsize n :
  dv <> [] ->
  Forall (fun xy => (length (fst xy) <= 2)%nat) dv ->
  forall wb,
  exists wb' ls,
    optimizer_descent AngleEmbedding BasicEntanglerLayers expval_PauliZ
                      flat_grad_argnum0 flat_grad_argnum1 n stepsize dv wb
    = Ok (wb', ls).
Proof.
  intros Hne Hd. induction n as [|n IH]; intros wb.
  - eexists _, _. reflexivity.
  - cbn [optimizer_descent].
    destruct (two_features_objective dv (fst wb) (snd wb) Hne Hd) as [l0 ->].
    cbn [result_bind].
    destruct (flat_descent_step dv stepsize wb Hne Hd) as [wb1 ->].
    cbn [result_bind].
    destruct (IH wb1) as (wb' & ls & ->).
    eexists _, _. reflexivity.
Qed.

Lemma samples_nonempty rng : samples rng <> [].
Proof. discriminate. Qed.

Lemma samples_two_features rng :
  Forall (fun xy => (length (fst xy) <= 2)%nat) (samples rng).
Proof.
  unfold samples. apply Forall_forall. intros xy Hin.
  apply list_elem_of_In, in_map_iff in Hin. destruct Hin as (i & <- & _).
  simpl. lia.
Qed.

Lemma training_cells_in_notebook_order_witness :
  exists ls40 ls42,
    shown AngleEmbedding BasicEntanglerLayers expval_PauliZ
          flat_grad_argnum0 flat_grad_argnum1
          [Cell2; Cell5; Cell32] (Cell40 rng0) = Ok (DPrinted ls40) /\
    shown AngleEmbedding BasicEntanglerLayers expval_PauliZ
          flat_grad_argnum0 flat_grad_argnum1
          [Cell2; Cell5; Cell32; Cell40 rng0] Cell42 = Ok (DPrinted ls42) /\
    length ls40 = 15%nat /\ length ls42 = 15%nat /\
    List.hd 0 ls42 = List.last ls40 0.
Proof.
  destruct (flat_hand_coded_descent (samples rng0) 15 (samples_nonempty rng0)
              (samples_two_features rng0) (w_init rng0, 0))
    as (wb15 & ls40 & H40).
  destruct (flat_optimizer_descent (samples rng0) 0.05 15
              (samples_nonempty rng0) (samples_two_features rng0) wb15)
    as (wb30 & ls42 & H42).
  exists ls40, ls42.
  exact (training_cells_in_notebook_order
           AngleEmbedding BasicEntanglerLayers expval_PauliZ
           flat_grad_argnum0 flat_grad_argnum1 rng0 wb15 ls40 wb30 ls42
           H40 H42).
Defined.

Lemma training_stays_at_a_stationary_point_witness :
  exists l w' b' s',
    for_range 3 (cell_40_body AngleEmbedding BasicEntanglerLayers expval_PauliZ
                              flat_grad_argnum0 flat_grad_argnum1) session_bound
    = (Ok tt, s') /\
    globals s' !! "w" = Some (OMatrix w') /\
    matrices s' w' = matrices session_bound w0 /\
    globals s' !! "b" = Some (OScalar b') /\
    scalars s' b' = scalars session_bound b0 /\
    stdout s' = stdout session_bound ++ [l; l; l].
Proof.
  eexists.
  eapply (training_stays_at_a_stationary_point
            AngleEmbedding BasicEntanglerLayers expval_PauliZ
            flat_grad_argnum0 flat_grad_argnum1 3 session_bound w0 b0 data0).
  - exact session_bound_names.
  - exact session_bound_allocated.
  - reflexivity.
  - reflexivity.
  - reflexivity.
Defined.

Lemma average_loss_leaves_the_state_of_the_last_sample_witness :
  apply_gates [AngleEmbedding (vectors session x0);
               BasicEntanglerLayers (matrices session w0)] ket00
  = Ok (dev_state
          (snd (average_loss AngleEmbedding BasicEntanglerLayers expval_PauliZ
                             w0 b0 ([] ++ [(x0, y0)]) session))).
Proof.
  eapply (average_loss_leaves_the_state_of_the_last_sample
            AngleEmbedding BasicEntanglerLayers expval_PauliZ w0 b0 []
            x0 y0 session).
  - exact session_allocated.
  - reflexivity.
Defined.

Lemma torch_average_loss_is_average_loss_without_bias_witness :
  outcome value_of
    (average_loss_torch AngleEmbedding BasicEntanglerLayers expval_PauliZ w0
                        data2 session2)
  = outcome value_of
      (average_loss AngleEmbedding BasicEntanglerLayers expval_PauliZ w0 b0
                    data2 session2).
Proof.
  apply (torch_average_loss_is_average_loss_without_bias
           AngleEmbedding BasicEntanglerLayers expval_PauliZ w0 b0 data2
           session2).
  - exact session2_allocated.
  - reflexivity.
Defined.

Lemma training_cells_print_a_line_per_pass_witness :
  exists s' out,
    for_range 1 (cell_40_body AngleEmbedding BasicEntanglerLayers expval_PauliZ
                              qml_grad_argnum0 qml_grad_argnum1) session_bound
    = (Ok tt, s') /\
    stdout s' = stdout session_bound ++ out /\ length out = 1%nat.
Proof.
  edestruct (for_range_cell_40_body
               AngleEmbedding BasicEntanglerLayers expval_PauliZ
               qml_grad_argnum0 qml_grad_argnum1 1 session_bound w0 b0 data0)
    as (w' & b' & s' & Hrun & _).
  - exact session_bound_names.
  - exact session_bound_allocated.
  - reflexivity.
  - destruct (proj1 (training_cells_print_a_line_per_pass
                       AngleEmbedding BasicEntanglerLayers expval_PauliZ
                       qml_grad_argnum0 qml_grad_argnum1)
                1%nat session_bound s' Hrun) as (out & Ho & Hl).
    exists s', out. repeat split; assumption.
Defined.


Lemma cell_40_needs_np_qml_and_quantum_model_witness :
  fst (cell_40 AngleEmbedding BasicEntanglerLayers expval_PauliZ
               qml_grad_argnum0 qml_grad_argnum1 rng0 fresh)
  = Raise (NameError "np") /\
  fst (cell_40 AngleEmbedding BasicEntanglerLayers expval_PauliZ
               qml_grad_argnum0 qml_grad_argnum1 rng0
               (snd (cell_5 (snd (cell_2 fresh)))))
  = Raise (NameError "quantum_model").
Proof.
  split.
  - apply (proj1 (cell_40_needs_np_qml_and_quantum_model
                    AngleEmbedding BasicEntanglerLayers expval_PauliZ
                    qml_grad_argnum0 qml_grad_argnum1 rng0 fresh)).
    reflexivity.
  - apply (proj2 (proj2 (cell_40_needs_np_qml_and_quantum_model
                           AngleEmbedding BasicEntanglerLayers expval_PauliZ
                           qml_grad_argnum0 qml_grad_argnum1 rng0
                           (snd (cell_5 (snd (cell_2 fresh))))))).
    + eexists. reflexivity.
    + eexists. reflexivity.
    + reflexivity.
Defined.


Lemma circuit_cells_do_not_depend_on_the_device_state_witness :
  fst (cell_10 (snd (cell_5 (snd (cell_2 fresh))))) = Ok (DVector [1; 0; 0; 0]) /\
  fst (cell_14 session_with_U) = Ok (DVector [0; / 2; / 2; 0]).
Proof.
  split.
  - apply (proj1 circuit_cells_do_not_depend_on_the_device_state).
    + eexists. reflexivity.
    + eexists. reflexivity.
  - apply (proj2 circuit_cells_do_not_depend_on_the_device_state).
    + eexists. reflexivity.
    + eexists. reflexivity.
    + eexists. reflexivity.
Defined.

Lemma cell_40_trains_from_its_own_start_witness :
  exists ls s',
    cell_40 AngleEmbedding BasicEntanglerLayers expval_PauliZ
            flat_grad_argnum0 flat_grad_argnum1 rng0
            (run_cells AngleEmbedding BasicEntanglerLayers expval_PauliZ
                       flat_grad_argnum0 flat_grad_argnum1
                       [Cell2; Cell5; Cell32] fresh)
    = (Ok (DPrinted ls), s') /\
    length ls = 15%nat.
Proof.
  destruct (flat_hand_coded_descent (samples rng0) 15 (samples_nonempty rng0)
              (samples_two_features rng0) (w_init rng0, 0))
    as ([wv' bv'] & ls & H).
  destruct (notebook_prelude AngleEmbedding BasicEntanglerLayers expval_PauliZ
              flat_grad_argnum0 flat_grad_argnum1) as (Hnp & Hqml & Hqm).
  destruct (cell_40_trains_from_its_own_start
              AngleEmbedding BasicEntanglerLayers expval_PauliZ
              flat_grad_argnum0 flat_grad_argnum1 rng0 _ wv' bv' ls
              Hnp Hqml Hqm H)
    as (w' & b' & s' & Hrun & Hlen & _).
  exists ls, s'. split; assumption.
Defined.

Lemma session_bound_qml :
  is_Some (globals (with_globals (<["qml" := OModule]> (globals session_bound))
                                 session_bound) !! "qml").
Proof. eexists. reflexivity. Defined.

Lemma cell_42_continues_from_the_session_witness :
  exists ls s',
    cell_42 AngleEmbedding BasicEntanglerLayers expval_PauliZ
            flat_grad_argnum0 flat_grad_argnum1
            (with_globals (<["qml" := OModule]> (globals session_bound))
                          session_bound)
    = (Ok (DPrinted ls), s') /\
    length ls = 15%nat.
Proof.
  set (s := with_globals (<["qml" := OModule]> (globals session_bound))
                         session_bound).
  destruct (flat_optimizer_descent (data_values s data0) 0.05 15)
    with (wb := (matrices s w0, scalars s b0)) as ([wv' bv'] & ls & H).
  { discriminate. }
  { constructor; [simpl; lia|constructor]. }
  destruct (cell_42_continues_from_the_session
              AngleEmbedding BasicEntanglerLayers expval_PauliZ
              flat_grad_argnum0 flat_grad_argnum1 s w0 b0 data0 wv' bv' ls)
    as (w' & b' & s' & Hrun & Hlen & _).
  - exact session_bound_qml.
  - apply (names_bound_insert session_bound s "qml" OModule);
      [discriminate|discriminate|discriminate|reflexivity
      |exact session_bound_names].
  - exact session_bound_allocated.
  - exact H.
  - exists ls, s'. split; [exact Hrun|exact Hlen].
Defined.

